(** * TileStache/PixelEffects.py: pixel effects applied to rendered tiles

    A shallow embedding of the module and the statements of its
    specification.

    The module is Python 2 code (it shuffles the list returned by [range],
    and [/] on two ints is floor division).  Its effects are calls into the
    Python Imaging Library on mutable image objects, so the embedding has

    - Python numbers ([pynum]) and exceptions ([exn]);
    - the part of the imaging library the module calls ([Module PIL]), as
      functions on image values that return an image or the exception the
      library raises; the numeric kernels of the library (mode conversion
      with its dithering, the Gaussian blur, the rounding of its
      single-precision arithmetic) are left as parameters ([PIL.Kernels]);
    - a store of image objects and list objects addressed by reference,
      the process-wide random generator, and a state-and-exception monad
      [M] over them;
    - the functions and classes of PixelEffects.py, written in [M] line by
      line. *)

From Stdlib Require Import ZArith QArith Qround String List Lia Lqa Bool Permutation.
From stdpp Require Import base list strings gmap.

Open Scope string_scope.
Open Scope list_scope.

(** ** Python numbers *)

(** A configuration value is an int or a float; a float is taken as the
    rational it denotes, so the numbers range over the ints and the finite
    floats: not-a-number and the infinities are not among them. *)
Inductive pynum :=
| PyInt (z : Z)
| PyFloat (q : Q).

Definition num_val (n : pynum) : Q :=
  match n with
  | PyInt z => inject_Z z
  | PyFloat q => q
  end.

(** [a < b] on numbers of either kind. *)
Definition py_lt (a b : pynum) : bool := negb (Qle_bool (num_val b) (num_val a)).

(** [max(a, b)] and [min(a, b)]: the first argument is kept unless the
    second is strictly larger (smaller). *)
Definition py_max (a b : pynum) : pynum := if py_lt a b then b else a.
Definition py_min (a b : pynum) : pynum := if py_lt b a then b else a.

(** [int(x)]: truncation towards zero. *)
Definition Qtrunc (q : Q) : Z := if Qle_bool 0 q then Qfloor q else Qceiling q.

Definition py_int (n : pynum) : Z :=
  match n with
  | PyInt z => z
  | PyFloat q => Qtrunc q
  end.

(** ** Exceptions *)

Inductive exn :=
| ValueError
| KeyError (key : string)
| TypeError
| AttributeError
| IndexError
| ZeroDivisionError
| NotImplementedError
| IOError
| OtherError (name : string)
| LoopBound.  (* not a Python exception: the bound given to a loop of the
                 model was too small *)

(** [a / b] in Python 2: floor division on two ints, true division as soon
    as one operand is a float. *)
Definition py_div (a b : pynum) : exn + pynum :=
  if Qeq_bool (num_val b) 0 then inl ZeroDivisionError
  else match a, b with
       | PyInt x, PyInt y => inr (PyInt (x / y))
       | _, _ => inr (PyFloat (num_val a / num_val b))
       end.

(** [s.index(c)]: position of the first occurrence, [None] standing for the
    ValueError of a missing substring. *)
Definition str_index (c s : string) : option nat := String.index 0 c s.

(** ** The imaging library *)

(** The operations of the library that the module calls, on image values.
    An image is its mode, its size and its bands.  An operation returns an
    image or the exception the library raises: a merge of bands that do not
    fit, a resize to a size with a side below 1, a blend or a blur of an
    image in a mode the operation is not defined on, a blend of images that
    do not match, an alpha layer of another size, a promotion to an alpha
    mode for which the library has no converter.  [convert] is the
    conversion between modes between which the library converts. *)

Module PIL.

(** One band of an image: the 8-bit value at column [x], row [y]. *)
Abbreviation band := (Z -> Z -> Z).

Record Image := mkImage {
  mode : string;
  size : Z * Z;
  bands : list band
}.

Definition width (im : Image) : Z := fst (size im).
Definition height (im : Image) : Z := snd (size im).

Definition inside (sz : Z * Z) (x y : Z) : bool :=
  ((0 <=? x) && (x <? fst sz) && (0 <=? y) && (y <? snd sz))%Z.

(** Number of bands of a mode (ImageMode). *)
Definition getmodebands (m : string) : nat :=
  if String.eqb m "YCbCr" then 3 else String.length m.

(** Base mode of a mode (ImageMode). *)
Definition getmodebase (m : string) : option string :=
  if existsb (String.eqb m) ["1"; "L"; "I"; "F"; "LA"; "La"] then Some "L"
  else if String.eqb m "P" then Some "P"
  else if existsb (String.eqb m)
            ["RGB"; "RGBX"; "RGBA"; "RGBa"; "CMYK"; "YCbCr"; "LAB"; "HSV"; "PA"]
       then Some "RGB"
  else None.

(** Modes that carry an alpha layer as their last band. *)
Definition has_alpha_layer (m : string) : bool :=
  existsb (String.eqb m) ["LA"; "PA"; "RGBA"].

(** The modes [Image.blend] is defined on: 8-bit bands, no palette, and
    not 1. *)
Definition blendable (m : string) : bool :=
  existsb (String.eqb m)
    ["L"; "LA"; "La"; "RGB"; "RGBA"; "RGBa"; "RGBX"; "CMYK"; "YCbCr"; "LAB"; "HSV"].

(** The modes the box blur behind [GaussianBlur] is defined on. *)
Definition blurrable (m : string) : bool :=
  existsb (String.eqb m) ["RGB"; "RGBA"; "RGBa"; "RGBX"; "CMYK"; "L"; "LA"; "La"].

(** The modes of rendered tiles, on which every operation the effects use
    is defined. *)
Definition plain (m : string) : bool :=
  existsb (String.eqb m) ["L"; "LA"; "RGB"; "RGBA"].

(** The kernels of the library that are not spelled out here. *)
Record Kernels := mkKernels {
  (** [convert_band from to size bands k]: band [k] of the image obtained
      by converting [bands] from mode [from] to mode [to]. *)
  convert_band : string -> string -> Z * Z -> list band -> nat -> band;
  (** [gaussian_blur radius size b]: the band [b] blurred. *)
  gaussian_blur : Q -> Z * Z -> band -> band;
  (** [has_converter from to]: whether the core of the library converts
      directly from mode [from] to mode [to]. *)
  has_converter : string -> string -> bool;
  (** [round_float q]: the single-precision float nearest to [q], in which
      [Image.blend] computes. *)
  round_float : Q -> Q
}.


Definition opaque : band := fun _ _ => 255%Z.
Definition blank : band := fun _ _ => 0%Z.

(** [Image.new(mode, size)]: every band zero. *)
Definition new (m : string) (sz : Z * Z) : Image :=
  {| mode := m; size := sz; bands := replicate (getmodebands m) blank |}.

Section WithKernels.
Variable K : Kernels.

(** [im.convert(mode)].  Converting to the mode the image already has is a
    copy; L to LA and RGB to RGBA add an opaque alpha band. *)
Definition convert (im : Image) (m : string) : Image :=
  if String.eqb m (mode im) then im
  else if (String.eqb (mode im) "L" && String.eqb m "LA")
          || (String.eqb (mode im) "RGB" && String.eqb m "RGBA")
  then {| mode := m; size := size im; bands := bands im ++ [opaque] |}
  else {| mode := m; size := size im;
          bands := map (convert_band K (mode im) m (size im) (bands im))
                       (seq 0 (getmodebands m)) |}.

(** [im.split()]: a single-band image is copied, the bands of any other
    image become L images. *)
Definition split (im : Image) : list Image :=
  match bands im with
  | [_] => [im]
  | bs => map (fun b => {| mode := "L"; size := size im; bands := [b] |}) bs
  end.

(** [Image.merge(mode, bands)]. *)
Definition merge (m : string) (ims : list Image) : exn + Image :=
  match ims with
  | [] => inl ValueError
  | first :: _ =>
      if negb (Nat.eqb (getmodebands m) (length ims)) then inl ValueError
      else if forallb (fun im => String.eqb (mode im) "L"
                                 && Z.eqb (width im) (width first)
                                 && Z.eqb (height im) (height first)) ims
      then inr {| mode := m; size := size first; bands := flat_map bands ims |}
      else inl ValueError
  end.

(** Source coordinate of destination coordinate [x] when [src] pixels are
    resampled to [dst] pixels with the NEAREST filter: the floor of
    [(x + 1/2) * src / dst], taken here as the exact quotient.  The library
    steps through the coordinates in floating point, which gives the same
    number whenever [src] is a multiple of [dst] or [dst] a multiple of
    [src] (the steps are then exact, or stay clear of the whole numbers);
    the theorems on pixel values use it in these cases only. *)
Definition nearest (src dst x : Z) : Z := ((2 * x + 1) * src / (2 * dst))%Z.

(** [im.resize(size, Image.NEAREST)]: a resize to the size the image has
    is a copy; otherwise the library raises ValueError for a size with a
    side below 1, and resamples. *)
Definition resize (im : Image) (sz : Z * Z) : exn + Image :=
  if Z.eqb (fst sz) (width im) && Z.eqb (snd sz) (height im) then inr im
  else if Z.ltb (fst sz) 1 || Z.ltb (snd sz) 1 then inl ValueError
  else inr {| mode := mode im; size := sz;
              bands := map (fun (b : band) x y =>
                              b (nearest (width im) (fst sz) x)
                                (nearest (height im) (snd sz) y))
                           (bands im) |}.

(** [im.filter(ImageFilter.GaussianBlur(radius))]: a radius of 0 gives a
    copy; otherwise the library raises ValueError for a mode its box blur
    is not defined on, and blurs every band. *)
Definition filter_blur (im : Image) (radius : Q) : exn + Image :=
  if Qeq_bool radius 0 then inr im
  else if blurrable (mode im)
  then inr {| mode := mode im; size := size im;
              bands := map (gaussian_blur K radius (size im)) (bands im) |}
  else inl ValueError.

(** One value of [image1 * (1.0 - alpha) + image2 * alpha], as the library
    computes it: [in1 + alpha * (in2 - in1)] in single precision, the
    product and the sum rounded, then cut to an integer; for an [alpha]
    outside 0..1 the value is clipped to 0..255. *)
Definition interpolate (alpha : Q) (v1 v2 : Z) : Z :=
  let a := round_float K alpha in
  let temp := round_float K (inject_Z v1 + round_float K (a * inject_Z (v2 - v1))) in
  if Qle_bool 0 a && Qle_bool a 1 then Qtrunc temp
  else if Qle_bool temp 0 then 0%Z
  else if Qle_bool 255 temp then 255%Z
  else Qtrunc temp.

(** [Image.blend(im1, im2, alpha)]: the library raises ValueError unless
    both images are in a mode it blends, and unless they agree in the
    number of bands and in size; at an [alpha] that is 0.0 in single
    precision (0.0 itself, or a number that rounds to it) the result is a
    copy of the first image, at one that is 1.0 a copy of the second. *)
Definition blend (im1 im2 : Image) (alpha : Q) : exn + Image :=
  if negb (blendable (mode im1) && blendable (mode im2)) then inl ValueError
  else if negb (Nat.eqb (getmodebands (mode im1)) (getmodebands (mode im2))
                && Z.eqb (width im1) (width im2)
                && Z.eqb (height im1) (height im2))
  then inl ValueError
  else if Qeq_bool alpha 0 then inr im1
  else if Qeq_bool alpha 1 then inr im2
  else if Qeq_bool (round_float K alpha) 0 then inr im1
  else if Qeq_bool (round_float K alpha) 1 then inr im2
  else inr {| mode := mode im1; size := size im1;
              bands := zip_with (fun (b1 b2 : band) x y =>
                                   interpolate alpha (b1 x y) (b2 x y))
                                (bands im1) (bands im2) |}.

(** The promotion [putalpha] makes of an image without an alpha layer, to
    its base mode with an alpha layer: RGB and RGBX are relabelled RGBA,
    the fourth band filled with 255; L is converted to LA; for any other
    mode the core of the library must have a converter to the alpha mode,
    and [putalpha] raises ValueError when it has none, or when the mode
    has no base mode. *)
Definition promote (im : Image) : exn + Image :=
  match getmodebase (mode im) with
  | None => inl ValueError
  | Some base =>
      let m := String.append base "A" in
      if existsb (String.eqb (mode im)) ["RGB"; "RGBX"]
      then inr {| mode := "RGBA"; size := size im;
                  bands := take 3 (bands im) ++ [opaque] |}
      else if String.eqb (mode im) "L" || has_converter K (mode im) m
      then inr (convert im m)
      else inl ValueError
  end.

(** [im.crop((x1, y1, x2, y2))]; what lies outside the image is zero. *)
Definition crop (im : Image) (box : Z * Z * Z * Z) : Image :=
  let '(x1, y1, x2, y2) := box in
  {| mode := mode im; size := ((x2 - x1)%Z, (y2 - y1)%Z);
     bands := map (fun (b : band) x y =>
                     if inside (size im) (x + x1) (y + y1)
                     then b (x + x1)%Z (y + y1)%Z else 0%Z)
                  (bands im) |}.

(** The image [dst] after [dst.paste(src, (ox, oy))]: a source of another
    mode is converted to the mode of the destination first. *)
Definition paste (dst src : Image) (pos : Z * Z) : Image :=
  let src' :=
    if negb (String.eqb (mode src) (mode dst))
       && (negb (String.eqb (mode dst) "RGB")
           || negb (existsb (String.eqb (mode src)) ["RGBA"; "RGBa"]))
    then convert src (mode dst) else src in
  {| mode := mode dst; size := size dst;
     bands := zip_with (fun (bd bs : band) x y =>
                          if inside (size src') (x - fst pos) (y - snd pos)
                          then bs (x - fst pos)%Z (y - snd pos)%Z
                          else bd x y)
                       (bands dst) (bands src') |}.

(** The lookup table of [ImageOps.solarize]:
    [i if i < threshold else 255 - i]. *)
Definition solarize_lut (threshold : pynum) (i : Z) : Z :=
  if py_lt (PyInt i) threshold then i else (255 - i)%Z.

(** [ImageOps.solarize(image, threshold)] on an L or RGB image: every
    band goes through the lookup table.  (The palette branch of the
    library is not reached from this module.) *)
Definition solarize (im : Image) (threshold : pynum) : exn + Image :=
  if existsb (String.eqb (mode im)) ["L"; "RGB"]
  then inr {| mode := mode im; size := size im;
              bands := map (fun (b : band) x y => solarize_lut threshold (b x y))
                           (bands im) |}
  else inl IOError.

End WithKernels.

(** The alpha layer of an image, and its other bands. *)
Definition alpha_band (im : Image) : option band :=
  if has_alpha_layer (mode im) then last (bands im) else None.

Definition color_bands (im : Image) : list band :=
  if has_alpha_layer (mode im) then removelast (bands im) else bands im.

(** Modes to which [putalpha] attaches a layer keeping the other bands:
    those with an alpha layer, and L and RGB, which become LA and RGBA. *)
Definition alpha_ready (m : string) : bool :=
  existsb (String.eqb m) ["L"; "LA"; "PA"; "RGB"; "RGBA"].

(** The modes in which the letter A, when the mode has it, stands for an
    alpha layer (of the modes of the library, LAB is the one mode in
    which it does not). *)
Definition supported (m : string) : bool :=
  match str_index "A" m with
  | None => true
  | Some _ => has_alpha_layer m
  end.

(** The value of band [k] at column [x], row [y]; 0 for a band the image
    does not have. *)
Definition pixel (im : Image) (k : nat) (x y : Z) : Z :=
  match bands im !! k with
  | Some b => b x y
  | None => 0%Z
  end.

(** An image is well formed when it has the bands of its mode. *)
Definition wf (im : Image) : Prop := length (bands im) = getmodebands (mode im).

(** Same mode, same size, same value at every pixel of every band. *)
Definition same_pixels (a b : Image) : Prop :=
  mode a = mode b /\ size a = size b /\
  length (bands a) = length (bands b) /\
  forall k ba bb, bands a !! k = Some ba -> bands b !! k = Some bb ->
    forall x y, inside (size a) x y = true -> ba x y = bb x y.

End PIL.

(** ** Objects, the random generator and the monad of effects *)

(** A reference to an object of the store. *)
Definition ref := nat.

(** The state of the interpreter as far as the module sees it: the image
    objects, the list objects, and the process-wide random generator given
    by the sequence of raw numbers it will produce and the count of those
    already consumed. *)
Record World := mkWorld {
  images : list PIL.Image;
  lists : list (list string);
  random : nat -> nat;
  consumed : nat
}.

Definition set_images (f : list PIL.Image -> list PIL.Image) (w : World) : World :=
  {| images := f (images w); lists := lists w;
     random := random w; consumed := consumed w |}.

Definition set_lists (f : list (list string) -> list (list string)) (w : World) : World :=
  {| images := images w; lists := f (lists w);
     random := random w; consumed := consumed w |}.

Definition consume (w : World) : World :=
  {| images := images w; lists := lists w;
     random := random w; consumed := S (consumed w) |}.

Inductive outcome (A : Type) :=
| Returned (a : A)
| Raised (e : exn).
Arguments Returned {A} a.
Arguments Raised {A} e.

(** A computation: from a state to what it returns or raises, and the state
    it leaves. *)
Definition M (A : Type) : Type := World -> outcome A * World.

Definition ret {A} (a : A) : M A := fun w => (Returned a, w).
Definition raise {A} (e : exn) : M A := fun w => (Raised e, w).
Definition bind {A B} (m : M A) (k : A -> M B) : M B :=
  fun w => match m w with
           | (Returned a, w') => k a w'
           | (Raised e, w') => (Raised e, w')
           end.

Notation "x <- c ;; k" := (bind c (fun x => k))
  (at level 100, c at next level, right associativity).
Notation "c ;;; k" := (bind c (fun _ => k))
  (at level 100, right associativity).

Definition lift {A} (r : exn + A) : M A :=
  match r with
  | inl e => raise e
  | inr a => ret a
  end.

Definition lift_opt {A} (o : option A) (e : exn) : M A :=
  match o with
  | Some a => ret a
  | None => raise e
  end.

(** [try: m except <caught>: handler]. *)
Definition try_except {A} (m : M A) (caught : exn -> bool) (handler : M A) : M A :=
  fun w => match m w with
           | (Raised e, w') => if caught e then handler w' else (Raised e, w')
           | r => r
           end.

Fixpoint mapM {A B} (f : A -> M B) (l : list A) : M (list B) :=
  match l with
  | [] => ret []
  | a :: l' => b <- f a ;; bs <- mapM f l' ;; ret (b :: bs)
  end.

(** [for a in l: body(a)]. *)
Fixpoint for_each {A} (l : list A) (body : A -> M unit) : M unit :=
  match l with
  | [] => ret tt
  | a :: l' => body a ;;; for_each l' body
  end.

(** [enumerate(l)], counting from [i]. *)
Fixpoint enumerate_from {A} (i : nat) (l : list A) : list (nat * A) :=
  match l with
  | [] => []
  | a :: l' => (i, a) :: enumerate_from (S i) l'
  end.
Definition enumerate {A} (l : list A) : list (nat * A) := enumerate_from 0 l.

(** *** The random module *)

(** The generator yields a number below [n]. *)
Definition randbelow (n : nat) : M nat :=
  fun w => (Returned (random w (consumed w) mod n), consume w).

(** [randint(a, b)]: an integer of [a..b]. *)
Definition randint (a b : Z) : M Z :=
  k <- randbelow (Z.to_nat (b - a + 1)) ;; ret (a + Z.of_nat k)%Z.

(** [x[i], x[j] = x[j], x[i]]. *)
Definition swap {A} (x : list A) (i j : nat) : list A :=
  match x !! i, x !! j with
  | Some a, Some b => <[j := a]> (<[i := b]> x)
  | _, _ => x
  end.

(** [shuffle(x)]: for [i] from [len(x) - 1] down to 1, exchange [x[i]] with
    [x[j]] for a [j] drawn from [0..i].  The list shuffled by this module is
    local to the caller, so the shuffled list is returned. *)
Fixpoint shuffle_loop {A} (i : nat) (x : list A) : M (list A) :=
  match i with
  | 0 => ret x
  | S i' => j <- randbelow (S i) ;; shuffle_loop i' (swap x i j)
  end.

Definition shuffle {A} (x : list A) : M (list A) := shuffle_loop (length x - 1) x.

(** [range(a, b)] of Python 2. *)
Definition range (a b : Z) : list Z := map (fun k => (a + Z.of_nat k)%Z) (seq 0 (Z.to_nat (b - a))).

(** [a / b] on two ints. *)
Definition int_div (a b : Z) : M Z :=
  if (b =? 0)%Z then raise ZeroDivisionError else ret (a / b)%Z.

(** *** Python values *)

(** What [apply] may be handed: an image object; an object without an
    attribute [image]; an object whose [image()] returns a value (a tile of
    Providers.Verbatim); an object whose [image()] raises an exception
    (TypeError when the attribute cannot be called with no arguments). *)
Inductive pyvalue :=
| PImage (r : ref)
| PObject
| PVerbatim (rendered : pyvalue)
| PFailing (e : exn).

(** [v.image()]. *)
Definition call_image (v : pyvalue) : M pyvalue :=
  match v with
  | PImage _ => raise AttributeError
  | PObject => raise AttributeError
  | PVerbatim v' => ret v'
  | PFailing e => raise e
  end.

(** *** Image objects *)

(** Reading an attribute or calling a method of the imaging library on a
    value that is not an image fails with AttributeError. *)
Definition load (v : pyvalue) : M PIL.Image :=
  match v with
  | PImage r => fun w => match images w !! r with
                         | Some im => (Returned im, w)
                         | None => (Raised AttributeError, w)
                         end
  | _ => raise AttributeError
  end.

(** A new image object. *)
Definition alloc (im : PIL.Image) : M pyvalue :=
  fun w => (Returned (PImage (length (images w))), set_images (fun l => l ++ [im]) w).

(** Overwriting an image object in place. *)
Definition store (v : pyvalue) (im : PIL.Image) : M unit :=
  match v with
  | PImage r => fun w => (Returned tt, set_images (fun l => <[r := im]> l) w)
  | _ => raise AttributeError
  end.

Definition getmode (v : pyvalue) : M string := im <- load v ;; ret (PIL.mode im).
Definition getsize (v : pyvalue) : M (Z * Z) := im <- load v ;; ret (PIL.size im).

Section Methods.
Variable K : PIL.Kernels.

Definition Image_new (m : string) (sz : Z * Z) : M pyvalue := alloc (PIL.new m sz).

Definition Image_convert (self : pyvalue) (m : string) : M pyvalue :=
  im <- load self ;; alloc (PIL.convert K im m).

Definition Image_split (self : pyvalue) : M (list pyvalue) :=
  im <- load self ;; mapM alloc (PIL.split im).

Definition Image_merge (m : string) (bands : list pyvalue) : M pyvalue :=
  ims <- mapM load bands ;; im <- lift (PIL.merge m ims) ;; alloc im.

Definition Image_resize (self : pyvalue) (sz : Z * Z) : M pyvalue :=
  im <- load self ;; r <- lift (PIL.resize im sz) ;; alloc r.

Definition Image_filter (self : pyvalue) (radius : pynum) : M pyvalue :=
  im <- load self ;; r <- lift (PIL.filter_blur K im (num_val radius)) ;; alloc r.

Definition Image_blend (im1 im2 : pyvalue) (alpha : pynum) : M pyvalue :=
  i1 <- load im1 ;; i2 <- load im2 ;;
  im <- lift (PIL.blend K i1 i2 (num_val alpha)) ;; alloc im.

Definition Image_crop (self : pyvalue) (box : Z * Z * Z * Z) : M pyvalue :=
  im <- load self ;; alloc (PIL.crop im box).

(** [self.paste(im, box)] changes [self] in place. *)
Definition Image_paste (self im : pyvalue) (box : Z * Z) : M unit :=
  dst <- load self ;; src <- load im ;; store self (PIL.paste K dst src box).

Definition ImageOps_solarize (image : pyvalue) (threshold : pynum) : M pyvalue :=
  im <- load image ;; r <- lift (PIL.solarize im threshold) ;; alloc r.

(** [self.putalpha(alpha)] changes [self] in place.  An image without an
    alpha layer is first promoted, in place, to its base mode with an
    alpha layer; then the layer, an L or 1 image of the same size, replaces
    the last band. *)
Definition Image_putalpha (self alpha : pyvalue) : M unit :=
  im <- load self ;;
  (if PIL.has_alpha_layer (PIL.mode im) then ret tt
   else promoted <- lift (PIL.promote K im) ;;
        store self promoted) ;;;
  im <- load self ;;
  let band := if existsb (String.eqb (PIL.mode im)) ["LA"; "PA"] then 1 else 3 in
  a <- load alpha ;;
  if negb (existsb (String.eqb (PIL.mode a)) ["1"; "L"]) then raise ValueError
  else
    let a := if String.eqb (PIL.mode a) "1" then PIL.convert K a "L" else a in
    match PIL.bands a with
    | [layer] =>
        if Nat.ltb band (length (PIL.bands im))
           && Z.eqb (PIL.width a) (PIL.width im)
           && Z.eqb (PIL.height a) (PIL.height im)
        then store self {| PIL.mode := PIL.mode im; PIL.size := PIL.size im;
                           PIL.bands := <[band := layer]> (PIL.bands im) |}
        else raise ValueError
    | _ => raise ValueError
    end.

End Methods.

(** *** List objects *)

Definition list_len (r : ref) : M nat :=
  fun w => match lists w !! r with
           | Some l => (Returned (length l), w)
           | None => (Raised AttributeError, w)
           end.

(** [l.pop()]: the last element is removed from the list object and
    returned. *)
Definition list_pop (r : ref) : M string :=
  fun w => match lists w !! r with
           | Some l =>
               match last l with
               | Some x => (Returned x, set_lists (fun ls => <[r := removelast l]> ls) w)
               | None => (Raised IndexError, w)
               end
           | None => (Raised AttributeError, w)
           end.

(** ** PixelEffects.py *)

Section PixelEffects.
Variable K : PIL.Kernels.

Definition is_ValueError (e : exn) : bool :=
  match e with ValueError => true | _ => false end.

Definition is_AttributeError_or_TypeError (e : exn) : bool :=
  match e with AttributeError | TypeError => true | _ => false end.

(** Put alpha channel of original image (if any) in the new image. *)
Definition put_original_alpha (original_image new_image : pyvalue) : M pyvalue :=
  try_except
    (mode <- getmode original_image ;;
     alpha_idx <- lift_opt (str_index "A" mode) ValueError ;;
     channels <- Image_split original_image ;;
     alpha_channel <- lift_opt (channels !! alpha_idx) IndexError ;;
     Image_putalpha K new_image alpha_channel)
    is_ValueError
    (ret tt) ;;;
  ret new_image.

(** *** class PixelEffect *)

Section Apply.
Context {A : Type}.
(** The [apply_effect] of the subclass. *)
Variable apply_effect : pyvalue -> M A.

Definition PixelEffect_apply (image : pyvalue) : M A :=
  image <- try_except (call_image image)  (* Handle Providers.Verbatim tiles *)
                      is_AttributeError_or_TypeError
                      (ret image) ;;
  apply_effect image.
End Apply.

Definition PixelEffect_apply_effect (image : pyvalue) : M pyvalue :=
  raise NotImplementedError.

(** *** The effects and their constructors *)

(** An instance of one of the effects that hold at most a number. *)
Inductive effect :=
| Blackwhite
| Greyscale
| Desaturate (factor : pynum)
| Pixelate (reduction : pynum)
| Halftone
| Blur (radius : pynum)
| Solarize (threshold : pynum)
| Shredder.

(** An instance of Multiball holds a reference to a list of names. *)
Record Multiball := mkMultiball { effects : ref }.

(** The [__init__] methods; [None] is an argument left out. *)
Definition Desaturate_init (factor : option pynum) : effect :=
  let factor := default (PyFloat (85 # 100)) factor in
  Desaturate (py_min (py_max factor (PyFloat 0)) (PyFloat 1)).

Definition Pixelate_init (reduction : option pynum) : effect :=
  let reduction := default (PyInt 5) reduction in
  Pixelate (py_max reduction (PyInt 1)).

Definition Blur_init (radius : option pynum) : effect :=
  let radius := default (PyInt 5) radius in
  Blur (py_max radius (PyInt 0)).

Definition Solarize_init (threshold : option pynum) : effect :=
  Solarize (default (PyInt 128) threshold).

Definition Multiball_init (effects : ref) : Multiball := mkMultiball effects.

(** *** The module-level registry *)

Inductive class :=
| class_Blackwhite | class_Greyscale | class_Desaturate | class_Pixelate
| class_Halftone | class_Blur | class_Solarize | class_Shredder
| class_Multiball.

Definition all : gmap string class :=
  list_to_map [
    ("blackwhite", class_Blackwhite);
    ("greyscale", class_Greyscale);
    ("desaturate", class_Desaturate);
    ("pixelate", class_Pixelate);
    ("halftone", class_Halftone);
    ("blur", class_Blur);
    ("solarize", class_Solarize);
    ("shredder", class_Shredder);
    ("multiball", class_Multiball)
  ].

(** [all[effect_name]]. *)
Definition all_getitem (effect_name : string) : M class :=
  lift_opt (all !! effect_name) (KeyError effect_name).

(** [cls()]: a class called with no arguments.  Multiball's [__init__]
    requires [effects], so the call raises TypeError; no instance of
    Multiball is ever made this way. *)
Definition call_class (cls : class) : M effect :=
  match cls with
  | class_Blackwhite => ret Blackwhite
  | class_Greyscale => ret Greyscale
  | class_Desaturate => ret (Desaturate_init None)
  | class_Pixelate => ret (Pixelate_init None)
  | class_Halftone => ret Halftone
  | class_Blur => ret (Blur_init None)
  | class_Solarize => ret (Solarize_init None)
  | class_Shredder => ret Shredder
  | class_Multiball => raise TypeError
  end.

(** *** The [apply_effect] methods *)

Definition Blackwhite_apply_effect (image : pyvalue) : M pyvalue :=
  bw <- Image_convert K image "1" ;;
  mode <- getmode image ;;
  new_image <- Image_convert K bw mode ;;
  put_original_alpha image new_image.

Definition Greyscale_apply_effect (image : pyvalue) : M pyvalue :=
  la <- Image_convert K image "LA" ;;
  mode <- getmode image ;;
  Image_convert K la mode.

Definition Desaturate_apply_effect (factor : pynum) (image : pyvalue) : M pyvalue :=
  la <- Image_convert K image "LA" ;;
  mode <- getmode image ;;
  avg <- Image_convert K la mode ;;
  Image_blend K image avg factor.

Definition Pixelate_apply_effect (reduction : pynum) (image : pyvalue) : M pyvalue :=
  size <- getsize image ;;
  w <- lift (py_div (PyInt (fst size)) reduction) ;;
  size <- getsize image ;;
  h <- lift (py_div (PyInt (snd size)) reduction) ;;
  let tmp_size := (py_int w, py_int h) in
  pixelated <- Image_resize image tmp_size ;;
  size <- getsize image ;;
  Image_resize pixelated size.

Definition Halftone_apply_effect (image : pyvalue) : M pyvalue :=
  converted <- Image_convert K image "CMYK" ;;
  channels <- Image_split converted ;;
  cmyk <- mapM (fun band => bit <- Image_convert K band "1" ;;
                            Image_convert K bit "L") channels ;;
  merged <- Image_merge "CMYK" cmyk ;;
  mode <- getmode image ;;
  new_image <- Image_convert K merged mode ;;
  put_original_alpha image new_image.

Definition Blur_apply_effect (radius : pynum) (image : pyvalue) : M pyvalue :=
  Image_filter K image radius.

Definition Solarize_apply_effect (threshold : pynum) (image : pyvalue) : M pyvalue :=
  image <- Image_convert K image "RGB" ;;
  ImageOps_solarize image threshold.

Definition Shredder_apply_effect (image : pyvalue) : M pyvalue :=
  d <- randint 1 10 ;;
  (* If random number is even, shred the tile. *)
  if (d mod 2 =? 0)%Z then
    SHREDS <- randint 1 10 ;;
    size <- getsize image ;;
    shredded <- Image_new "RGBA" size ;;
    size <- getsize image ;;
    let width := fst size in
    let height := snd size in
    shred_width <- int_div width SHREDS ;;
    sequence <- shuffle (range 0 SHREDS) ;;
    for_each (enumerate sequence) (fun entry =>
      let i := Z.of_nat (fst entry) in
      let shred_index := snd entry in
      let shred_x1 := (shred_width * shred_index)%Z in
      let shred_y1 := 0%Z in
      let shred_x2 := (shred_x1 + shred_width)%Z in
      let shred_y2 := height in
      region <- Image_crop image (shred_x1, shred_y1, shred_x2, shred_y2) ;;
      Image_paste K shredded region ((shred_width * i)%Z, 0%Z)) ;;;
    ret shredded
  else ret image.

Definition apply_effect (self : effect) (image : pyvalue) : M pyvalue :=
  match self with
  | Blackwhite => Blackwhite_apply_effect image
  | Greyscale => Greyscale_apply_effect image
  | Desaturate factor => Desaturate_apply_effect factor image
  | Pixelate reduction => Pixelate_apply_effect reduction image
  | Halftone => Halftone_apply_effect image
  | Blur radius => Blur_apply_effect radius image
  | Solarize threshold => Solarize_apply_effect threshold image
  | Shredder => Shredder_apply_effect image
  end.

(** The body of the [while] loop of Multiball, run at most [bound] times. *)
Fixpoint Multiball_loop (bound : nat) (self : Multiball) (in_image : pyvalue)
  : M pyvalue :=
  n <- list_len (effects self) ;;
  if Nat.ltb 0 n then
    match bound with
    | 0 => raise LoopBound
    | S bound' =>
        effect_name <- list_pop (effects self) ;;
        cls <- all_getitem effect_name ;;
        effect_instance <- call_class cls ;;
        (* 50/50 chance to apply effect to tile *)
        d <- randint 1 10 ;;
        mod_image <- (if (d mod 2 =? 0)%Z
                      then apply_effect effect_instance in_image
                      else ret in_image) ;;
        Multiball_loop bound' self mod_image
    end
  else ret in_image.

(** Each iteration pops one name, so the length of the list at entry
    bounds the number of iterations. *)
Definition Multiball_apply_effect (self : Multiball) (image : pyvalue) : M pyvalue :=
  n <- list_len (effects self) ;;
  Multiball_loop n self image.

End PixelEffects.

(** * Notions used in the statements *)

(** The state after a new image object has been made. *)
Definition allocated (im : PIL.Image) (w : World) : World :=
  set_images (fun l => l ++ [im]) w.

(** The state after the image object [r] has been overwritten. *)
Definition stored (r : ref) (im : PIL.Image) (w : World) : World :=
  set_images (fun l => <[r := im]> l) w.


(** The state after [n] more numbers have been drawn from the generator. *)
Definition advance (n : nat) (w : World) : World :=
  {| images := images w; lists := lists w;
     random := random w; consumed := n + consumed w |}.

(** The integer [randint(1, 10)] yields in the state [w]. *)
Definition draw (w : World) : Z := (1 + Z.of_nat (random w (consumed w) mod 10))%Z.

(** The strip of index [p] and width [shred_width] of an image, as it is
    pasted into an RGBA image. *)
Definition strip (K : PIL.Kernels) (im : PIL.Image) (shred_width p : Z) : PIL.Image :=
  PIL.convert K
    (PIL.crop im ((shred_width * p)%Z, 0%Z, (shred_width * p + shred_width)%Z,
                  snd (PIL.size im)))
    "RGBA".

(** The image being assembled after one more strip has been pasted: the
    strip of index [snd e] goes to the slot [fst e]. *)
Definition shred_step (K : PIL.Kernels) (im : PIL.Image) (shred_width : Z)
    (acc : PIL.Image) (e : nat * Z) : PIL.Image :=
  PIL.paste K acc
    (PIL.crop im ((shred_width * snd e)%Z, 0%Z,
                  (shred_width * snd e + shred_width)%Z, snd (PIL.size im)))
    ((shred_width * Z.of_nat (fst e))%Z, 0%Z).

(** The list [shuffle(x)] returns, as the numbers of the generator
    decide it: for [i] from the last index down to 1, [x[i]] is exchanged
    with [x[j]], [j] being the next number of the generator reduced to
    [0..i]; [c] numbers have been consumed before. *)
Fixpoint shuffled_from {A} (random : nat -> nat) (c : nat) (i : nat) (x : list A)
  : list A :=
  match i with
  | 0 => x
  | S i' => shuffled_from random (S c) i' (swap x i (random c mod S i))
  end.

Definition shuffled {A} (w : World) (x : list A) : list A :=
  shuffled_from (random w) (consumed w) (length x - 1) x.

(** The effects whose result has the mode of their input, on an image
    whose sides are [size]: Solarize and Shredder are not among them, and a
    Pixelate is when its reduction, of at least 1 as its constructor
    ensures, exceeds neither side (so that no side of the reduced image is
    below 1). *)
Definition keeps_mode (e : effect) (size : Z * Z) : Prop :=
  match e with
  | Blackwhite | Greyscale | Halftone | Desaturate _ | Blur _ => True
  | Pixelate reduction =>
      (1 <= num_val reduction)%Q /\
      (num_val reduction <= inject_Z (fst size))%Q /\
      (num_val reduction <= inject_Z (snd size))%Q
  | Solarize _ | Shredder => False
  end.


(** * Sample data for the examples *)

(** A kernel that converts by repeating the first band and blurs by doing
    nothing. *)
Definition sample_kernels : PIL.Kernels :=
  {| PIL.convert_band := fun _ _ _ bs _ => hd PIL.blank bs;
     PIL.gaussian_blur := fun _ _ b => b;
     PIL.has_converter := fun _ _ => true;
     PIL.round_float := fun q => q |}.

Definition gradient (base : Z) : PIL.band := fun x y => (base + 10 * y + x)%Z.

(** A 4 x 2 RGB image, a 4 x 2 RGBA image whose alpha is 128 everywhere, and
    a 1 x 1 RGBA image. *)
Definition sample_rgb : PIL.Image :=
  {| PIL.mode := "RGB"; PIL.size := (4, 2)%Z;
     PIL.bands := [gradient 0; gradient 100; gradient 200] |}.

Definition sample_rgba : PIL.Image :=
  {| PIL.mode := "RGBA"; PIL.size := (4, 2)%Z;
     PIL.bands := [gradient 0; gradient 100; gradient 200; fun _ _ => 128%Z] |}.

Definition sample_dot : PIL.Image :=
  {| PIL.mode := "RGBA"; PIL.size := (1, 1)%Z;
     PIL.bands := [gradient 1; gradient 2; gradient 3; fun _ _ => 7%Z] |}.

(** A 1 x 1 RGB image whose three values are 128. *)
Definition sample_grey : PIL.Image :=
  {| PIL.mode := "RGB"; PIL.size := (1, 1)%Z;
     PIL.bands := [fun _ _ => 128%Z; fun _ _ => 128%Z; fun _ _ => 128%Z] |}.

(** A 2 x 2 palette image, and a 10 x 6 RGBA tile whose alpha is 200
    everywhere. *)
Definition sample_palette : PIL.Image :=
  {| PIL.mode := "P"; PIL.size := (2, 2)%Z; PIL.bands := [gradient 0] |}.

Definition sample_tile : PIL.Image :=
  {| PIL.mode := "RGBA"; PIL.size := (10, 6)%Z;
     PIL.bands := [gradient 0; gradient 60; gradient 120; fun _ _ => 200%Z] |}.

(** A state with these four images at references 0 to 3, one list of
    names at reference 0, and a generator yielding [draws] and then zeros. *)
Definition sample_world (names : list string) (draws : list nat) : World :=
  {| images := [sample_rgb; sample_rgba; sample_dot; sample_grey];
     lists := [names];
     random := fun n => nth n draws 0;
     consumed := 0 |}.

(** A state with the palette image at reference 0 and the tile at
    reference 1, one list of names at reference 0, and a generator yielding
    [draws] and then zeros. *)
Definition tile_world (names : list string) (draws : list nat) : World :=
  {| images := [sample_palette; sample_tile];
     lists := [names];
     random := fun n => nth n draws 0;
     consumed := 0 |}.

(** * Statements of the specification that are compared with the code *)

(** What [apply] hands to [apply_effect] if every failure of [image()]
    were swallowed: the rendered tile of a value that has one, the value
    itself otherwise. *)
Definition materialized (v : pyvalue) : pyvalue :=
  match v with
  | PVerbatim v' => v'
  | _ => v
  end.

(** "[apply] never raises on the materialization step": whatever the
    value, [apply] is [apply_effect] on the materialized value. *)
Definition apply_never_raises_on_materialization : Prop :=
  forall (apply_effect : pyvalue -> M pyvalue) v w,
    PixelEffect_apply apply_effect v w = apply_effect (materialized v) w.

(** "Resolve the name via the registry, construct a fresh instance with
    default parameters, draw an integer in 1..10; if even, run the
    sub-effect on the working image, if odd leave it unchanged." *)
Definition Multiball_spec_attempt (K : PIL.Kernels) (effect_name : string)
    (image : pyvalue) : M pyvalue :=
  cls <- all_getitem effect_name ;;
  effect_instance <- call_class cls ;;
  d <- randint 1 10 ;;
  if (d mod 2 =? 0)%Z then apply_effect K effect_instance image else ret image.

(** The names of a sequence attempted once each, in the order of the
    sequence. *)
Fixpoint Multiball_spec_each (K : PIL.Kernels) (names : list string)
    (image : pyvalue) : M pyvalue :=
  match names with
  | [] => ret image
  | effect_name :: names' =>
      image' <- Multiball_spec_attempt K effect_name image ;;
      Multiball_spec_each K names' image'
  end.

(** "An explicit iteration over a copied, reversed sequence." *)
Definition Multiball_spec (K : PIL.Kernels) (names : list string)
    (image : pyvalue) : M pyvalue :=
  Multiball_spec_each K (rev names) image.

(** A computation that, when it raises, raises a Python exception: the
    bound of no loop of the model is hit. *)
Definition within_bounds {A} (m : M A) : Prop :=
  forall w e w', m w = (Raised e, w') -> e <> LoopBound.

(** The luminance+alpha version of an image, converted back to its mode. *)
Definition desaturated (K : PIL.Kernels) (im : PIL.Image) : PIL.Image :=
  PIL.convert K (PIL.convert K im "LA") (PIL.mode im).

(** The computation [m] returns from the state [w], with a value and a
    state that satisfy [Q]. *)
Definition returns {A} (m : M A) (w : World) (Q : A -> World -> Prop) : Prop :=
  exists a w', m w = (Returned a, w') /\ Q a w'.

(** A computation that neither reads nor writes the list objects. *)
Definition lists_indep {A} (m : M A) : Prop :=
  forall f w, m (set_lists f w) = (fst (m w), set_lists f (snd (m w))).

(** "For every Multiball whose name list contains a name absent from the
    registry, [apply_effect] raises a lookup error at that name." *)
Definition Multiball_raises_KeyError_at_every_absent_name : Prop :=
  forall K self image w names name,
    lists w !! effects self = Some names ->
    name ∈ names ->
    all !! name = None ->
    exists w', Multiball_apply_effect K self image w = (Raised (KeyError name), w').

(** "Every channel value that exceeds the threshold is inverted, values at
    or below the threshold are unchanged." *)
Definition solarize_as_specified (threshold v : Z) : Z :=
  if (threshold <? v)%Z then (255 - v)%Z else v.

Definition Solarize_keeps_values_up_to_threshold : Prop :=
  forall K w image im threshold,
    images w !! image = Some im ->
    exists r' w' im',
      apply_effect K (Solarize (PyInt threshold)) (PImage image) w
      = (Returned (PImage r'), w') /\
      images w' !! r' = Some im' /\
      forall k b, PIL.bands (PIL.convert K im "RGB") !! k = Some b ->
        exists b', PIL.bands im' !! k = Some b' /\
                   forall x y, b' x y = solarize_as_specified threshold (b x y).




(** "For every pair of buffers (original, derived), when the mode of
    original contains an alpha component, [put_original_alpha] returns
    derived with its alpha channel set to that of original, the other
    channels being those of derived." *)
Definition put_original_alpha_sets_alpha_of_every_pair : Prop :=
  forall K w original derived io id,
    images w !! original = Some io ->
    images w !! derived = Some id ->
    PIL.wf io -> PIL.wf id ->
    PIL.has_alpha_layer (PIL.mode io) = true ->
    exists w' im',
      put_original_alpha K (PImage original) (PImage derived) w
      = (Returned (PImage derived), w') /\
      images w' !! derived = Some im' /\
      PIL.alpha_band im' = PIL.alpha_band io /\
      PIL.color_bands im' = PIL.color_bands id.

(** * Notions used in the statements about the state and the registry *)

(** A value that is not one of the first [n] image objects. *)
Definition fresh (n : nat) (v : pyvalue) : Prop :=
  forall d, v = PImage d -> n <= d.

(** A computation that leaves the first [n] image objects as they are,
    whether it returns or raises, and whose result satisfies [Q]. *)
Definition frames (n : nat) {A} (m : M A) (Q : A -> Prop) : Prop :=
  forall w, n <= length (images w) ->
    n <= length (images (snd (m w))) /\
    take n (images (snd (m w))) = take n (images w) /\
    forall a, fst (m w) = Returned a -> Q a.

(** A computation that draws no number from the random generator. *)
Definition no_draw {A} (m : M A) : Prop :=
  forall w, random (snd (m w)) = random w /\ consumed (snd (m w)) = consumed w.

(** The names of the registry whose class can be called without
    arguments: all but [multiball]. *)
Definition constructible_names : list string :=
  ["blackwhite"; "greyscale"; "desaturate"; "pixelate"; "halftone"; "blur";
   "solarize"; "shredder"].

(** [all[effect_name]()]. *)
Definition construct (effect_name : string) : M effect :=
  cls <- all_getitem effect_name ;; call_class cls.

(** An effect that fits an image of sides [size]: a Pixelate does when its
    reduction, of at least 1 as its constructor ensures, exceeds neither
    side, so that no side of the reduced image is below 1. *)
Definition fits (e : effect) (size : Z * Z) : Prop :=
  match e with
  | Pixelate reduction =>
      (1 <= num_val reduction)%Q /\
      (num_val reduction <= inject_Z (fst size))%Q /\
      (num_val reduction <= inject_Z (snd size))%Q
  | _ => True
  end.

(** The column (row) at the centre of the block of [r] columns (rows) in
    which [x] lies. *)
Definition block_centre (r x : Z) : Z := (r * (x / r) + r / 2)%Z.

(** The reduction a Pixelate built with [reduction] holds. *)
Definition clamped_reduction (reduction : option pynum) : pynum :=
  py_max (default (PyInt 5) reduction) (PyInt 1).

(** Every value of every band of the image, at every pixel of the image,
    lies in 0..255. *)
Definition eight_bit (im : PIL.Image) : Prop :=
  forall k b x y, PIL.bands im !! k = Some b ->
    PIL.inside (PIL.size im) x y = true -> (0 <= b x y <= 255)%Z.

(** * Reasoning about computations *)

Lemma bind_run {A B} (m : M A) (k : A -> M B) w a w' :
  m w = (Returned a, w') -> bind m k w = k a w'.
Proof. intros H. unfold bind. by rewrite H. Qed.

Lemma bind_raise {A B} (m : M A) (k : A -> M B) w e w' :
  m w = (Raised e, w') -> bind m k w = (Raised e, w').
Proof. intros H. unfold bind. by rewrite H. Qed.

Lemma bind_intro {A B} (m : M A) (k : A -> M B) w a w' r :
  m w = (Returned a, w') -> k a w' = r -> bind m k w = r.
Proof. intros H <-. by apply bind_run. Qed.

Lemma try_except_run {A} (m : M A) caught handler w a w' :
  m w = (Returned a, w') -> try_except m caught handler w = (Returned a, w').
Proof. intros H. unfold try_except. by rewrite H. Qed.

Lemma try_except_caught {A} (m : M A) caught handler w e w' :
  m w = (Raised e, w') -> caught e = true ->
  try_except m caught handler w = handler w'.
Proof. intros H He. unfold try_except. by rewrite H, He. Qed.

Lemma try_except_escapes {A} (m : M A) caught handler w e w' :
  m w = (Raised e, w') -> caught e = false ->
  try_except m caught handler w = (Raised e, w').
Proof. intros H He. unfold try_except. by rewrite H, He. Qed.

Lemma lookup_snoc_here {A} (l : list A) x : (l ++ [x]) !! length l = Some x.
Proof. rewrite lookup_app_r by lia. by rewrite Nat.sub_diag. Qed.

(** Bounds of references into a store that has grown or been updated. *)
Ltac heap_lt :=
  repeat first [rewrite length_app | rewrite length_insert]; simpl;
  repeat match goal with
         | H : _ !! _ = Some _ |- _ => apply lookup_lt_Some in H
         end;
  lia.

Ltac heap_simpl :=
  repeat first
    [ rewrite lookup_snoc_here
    | rewrite lookup_app_l by heap_lt
    | rewrite list_lookup_insert_eq by heap_lt
    | rewrite list_lookup_insert_ne by heap_lt ].

(** A list of known length, spelled out. *)
Ltac list_of_length H :=
  simpl in H;
  repeat match type of H with
         | length ?l = _ =>
             is_var l; destruct l as [|? l]; simpl in H;
             [try discriminate H
             |try discriminate H; try apply Nat.succ_inj in H]
         end.

Lemma load_ok w r im :
  images w !! r = Some im -> load (PImage r) w = (Returned im, w).
Proof. intros H. unfold load. by rewrite H. Qed.

Lemma getmode_ok w r im :
  images w !! r = Some im -> getmode (PImage r) w = (Returned (PIL.mode im), w).
Proof. intros H. unfold getmode. by rewrite (bind_run _ _ _ _ _ (load_ok _ _ _ H)). Qed.

Lemma getsize_ok w r im :
  images w !! r = Some im -> getsize (PImage r) w = (Returned (PIL.size im), w).
Proof. intros H. unfold getsize. by rewrite (bind_run _ _ _ _ _ (load_ok _ _ _ H)). Qed.

Lemma alloc_ok w im :
  alloc im w = (Returned (PImage (length (images w))), allocated im w).
Proof. reflexivity. Qed.

Lemma store_ok w r im : store (PImage r) im w = (Returned tt, stored r im w).
Proof. reflexivity. Qed.

Lemma images_allocated im w : images (allocated im w) = images w ++ [im].
Proof. reflexivity. Qed.

Lemma images_stored r im w : images (stored r im w) = <[r := im]> (images w).
Proof. reflexivity. Qed.

Section MethodFacts.
Variable K : PIL.Kernels.

Lemma Image_new_ok w m sz :
  Image_new m sz w = (Returned (PImage (length (images w))), allocated (PIL.new m sz) w).
Proof. reflexivity. Qed.

Lemma Image_convert_ok w r im m :
  images w !! r = Some im ->
  Image_convert K (PImage r) m w
  = (Returned (PImage (length (images w))), allocated (PIL.convert K im m) w).
Proof.
  intros H. unfold Image_convert.
  by rewrite (bind_run _ _ _ _ _ (load_ok _ _ _ H)).
Qed.

Lemma Image_resize_ok w r im sz im' :
  images w !! r = Some im ->
  PIL.resize im sz = inr im' ->
  Image_resize (PImage r) sz w
  = (Returned (PImage (length (images w))), allocated im' w).
Proof.
  intros H Hr. unfold Image_resize.
  rewrite (bind_run _ _ _ _ _ (load_ok _ _ _ H)).
  by rewrite Hr.
Qed.

Lemma Image_resize_raises w r im sz e :
  images w !! r = Some im ->
  PIL.resize im sz = inl e ->
  Image_resize (PImage r) sz w = (Raised e, w).
Proof.
  intros H Hr. unfold Image_resize.
  rewrite (bind_run _ _ _ _ _ (load_ok _ _ _ H)).
  by rewrite Hr.
Qed.

Lemma Image_filter_ok w r im radius im' :
  images w !! r = Some im ->
  PIL.filter_blur K im (num_val radius) = inr im' ->
  Image_filter K (PImage r) radius w
  = (Returned (PImage (length (images w))), allocated im' w).
Proof.
  intros H Hf. unfold Image_filter.
  rewrite (bind_run _ _ _ _ _ (load_ok _ _ _ H)).
  by rewrite Hf.
Qed.


Lemma Image_crop_ok w r im box :
  images w !! r = Some im ->
  Image_crop (PImage r) box w
  = (Returned (PImage (length (images w))), allocated (PIL.crop im box) w).
Proof.
  intros H. unfold Image_crop.
  by rewrite (bind_run _ _ _ _ _ (load_ok _ _ _ H)).
Qed.

Lemma Image_paste_ok w r dst s src box :
  images w !! r = Some dst -> images w !! s = Some src ->
  Image_paste K (PImage r) (PImage s) box w
  = (Returned tt, stored r (PIL.paste K dst src box) w).
Proof.
  intros H1 H2. unfold Image_paste.
  rewrite (bind_run _ _ _ _ _ (load_ok _ _ _ H1)).
  by rewrite (bind_run _ _ _ _ _ (load_ok _ _ _ H2)).
Qed.

Lemma Image_blend_ok w r1 r2 im1 im2 alpha im :
  images w !! r1 = Some im1 -> images w !! r2 = Some im2 ->
  PIL.blend K im1 im2 (num_val alpha) = inr im ->
  Image_blend K (PImage r1) (PImage r2) alpha w
  = (Returned (PImage (length (images w))), allocated im w).
Proof.
  intros H1 H2 Hb. unfold Image_blend.
  rewrite (bind_run _ _ _ _ _ (load_ok _ _ _ H1)).
  rewrite (bind_run _ _ _ _ _ (load_ok _ _ _ H2)).
  by rewrite Hb.
Qed.

Lemma ImageOps_solarize_ok w r im threshold im' :
  images w !! r = Some im ->
  PIL.solarize im threshold = inr im' ->
  ImageOps_solarize (PImage r) threshold w
  = (Returned (PImage (length (images w))), allocated im' w).
Proof.
  intros H Hs. unfold ImageOps_solarize.
  rewrite (bind_run _ _ _ _ _ (load_ok _ _ _ H)).
  by rewrite Hs.
Qed.

End MethodFacts.


Lemma size_convert K im m : PIL.size (PIL.convert K im m) = PIL.size im.
Proof.
  unfold PIL.convert. destruct (String.eqb m (PIL.mode im)); [done|].
  by destruct (_ || _).
Qed.

Lemma mode_convert K im m : PIL.mode (PIL.convert K im m) = m.
Proof.
  unfold PIL.convert. destruct (String.eqb_spec m (PIL.mode im)); [done|].
  by destruct (_ || _).
Qed.

(** Symbolic execution of a computation that returns: the goal
    [m w = r] is reduced step by step, the lookups of the store being
    discharged from the hypotheses. *)
Arguments bind : simpl never.
Arguments try_except : simpl never.
Arguments load : simpl never.
Arguments alloc : simpl never.
Arguments store : simpl never.
Arguments getmode : simpl never.
Arguments getsize : simpl never.
Arguments randint : simpl never.
Arguments randbelow : simpl never.
Arguments allocated : simpl never.
Arguments stored : simpl never.

Ltac heap_lookup :=
  repeat first [rewrite images_allocated | rewrite images_stored];
  heap_simpl;
  try first [eassumption | reflexivity].

(** A lookup at an index given as a sum. *)
Ltac heap_index :=
  repeat first [rewrite images_allocated | rewrite images_stored];
  repeat (rewrite lookup_app_l by (rewrite ?length_app; simpl; lia));
  rewrite lookup_app_r by (rewrite ?length_app; simpl; lia);
  rewrite ?length_app; simpl;
  match goal with
  | |- [_] !! ?i = _ => replace i with 0 by lia
  end;
  reflexivity.

Ltac run :=
  simpl;
  unfold PIL.width, PIL.height;
  rewrite ?size_convert, ?mode_convert; simpl; rewrite ?Z.eqb_refl; simpl;
  lazymatch goal with
  | |- bind _ _ _ = _ => eapply bind_intro; [run|run]
  | |- try_except _ _ _ _ = _ => eapply try_except_run; run
  | |- ret _ _ = _ => reflexivity
  | |- lift_opt (Some _) _ _ = _ => reflexivity
  | |- lift (inr _) _ = _ => reflexivity
  | |- load (PImage _) _ = _ => eapply load_ok; heap_lookup
  | |- getmode (PImage _) _ = _ => eapply getmode_ok; heap_lookup
  | |- getsize (PImage _) _ = _ => eapply getsize_ok; heap_lookup
  | |- alloc _ _ = _ => apply alloc_ok
  | |- store (PImage _) _ _ = _ => apply store_ok
  | |- Image_new _ _ _ = _ => apply Image_new_ok
  | |- Image_convert _ (PImage _) _ _ = _ => eapply Image_convert_ok; heap_lookup
  | |- Image_crop (PImage _) _ _ = _ => eapply Image_crop_ok; heap_lookup
  | |- Image_paste _ (PImage _) (PImage _) _ _ = _ =>
      eapply Image_paste_ok; heap_lookup
  | |- _ => idtac
  end.


(** * put_original_alpha *)

Lemma existsb_eqb_elem (m : string) (l : list string) :
  existsb (String.eqb m) l = true -> m ∈ l.
Proof.
  induction l as [|x l IH]; simpl; [discriminate|].
  intros [H|H]%orb_true_iff.
  - apply String.eqb_eq in H. subst. left.
  - right. auto.
Qed.

Ltac mode_cases H :=
  apply existsb_eqb_elem in H;
  repeat (apply elem_of_cons in H as [->|H]);
  [..|by apply elem_of_nil in H].

Section PutOriginalAlpha.
Variable K : PIL.Kernels.

(** Without the letter A in the mode of the original, [index] raises
    ValueError, which is caught: nothing happens. *)
Lemma put_original_alpha_no_alpha w original new_image io :
  images w !! original = Some io ->
  str_index "A" (PIL.mode io) = None ->
  put_original_alpha K (PImage original) new_image w = (Returned new_image, w).
Proof.
  intros Ho Hidx. unfold put_original_alpha.
  eapply bind_intro; [|reflexivity].
  eapply try_except_caught.
  - erewrite bind_run by (eapply getmode_ok; eassumption).
    rewrite Hidx. reflexivity.
  - reflexivity.
Qed.

(** With an alpha layer in the original, the layer is put into the object
    [derived] itself. *)
Lemma put_original_alpha_layer w original derived io id :
  images w !! original = Some io ->
  images w !! derived = Some id ->
  PIL.wf io -> PIL.wf id ->
  PIL.size io = PIL.size id ->
  PIL.has_alpha_layer (PIL.mode io) = true ->
  PIL.alpha_ready (PIL.mode id) = true ->
  exists w' im',
    put_original_alpha K (PImage original) (PImage derived) w
    = (Returned (PImage derived), w') /\
    images w' = <[derived := im']> (images w ++ PIL.split io) /\
    lists w' = lists w /\ random w' = random w /\ consumed w' = consumed w /\
    PIL.size im' = PIL.size id /\
    PIL.has_alpha_layer (PIL.mode im') = true /\
    PIL.alpha_band im' = PIL.alpha_band io /\
    PIL.color_bands im' = PIL.color_bands id /\
    PIL.wf im' /\
    (PIL.has_alpha_layer (PIL.mode id) = true -> PIL.mode im' = PIL.mode id).
Proof.
  intros Ho Hd Hwo Hwd Hs Hao Had.
  destruct io as [mo so bo], id as [md sd bd].
  unfold PIL.wf in *. simpl in *. subst sd.
  assert (Hlt : derived < length (images w)) by (eapply lookup_lt_Some; eauto).
  mode_cases Hao; mode_cases Had;
  list_of_length Hwo; list_of_length Hwd;
  unfold put_original_alpha, Image_split, Image_putalpha.
  all: do 2 eexists; split; [run|].
  all: simpl;
    repeat first [rewrite images_allocated | rewrite images_stored];
    rewrite ?list_insert_insert_eq, <- ?(assoc_L (++)); simpl.
  all: split; [reflexivity|]; repeat split; try reflexivity.
  all: intros [=].
Qed.

End PutOriginalAlpha.

(** The statement fails as it is worded: for a 1 x 1 original and a 4 x 2
    derived buffer, both RGBA, [putalpha] raises ValueError (the layer does
    not have the size of the image), the [except ValueError] clause
    swallows it, and derived comes back with the alpha channel it had. *)
Lemma put_original_alpha_size_mismatch :
  (exists w',
     put_original_alpha sample_kernels (PImage 2) (PImage 1) (sample_world [] [])
     = (Returned (PImage 1), w') /\
     images w' !! 1 = Some sample_rgba /\
     PIL.pixel sample_rgba 3 0%Z 0%Z = 128%Z /\
     PIL.pixel sample_dot 3 0%Z 0%Z = 7%Z) /\
  ~ put_original_alpha_sets_alpha_of_every_pair.
Proof.
  assert (Hrun : exists w',
             put_original_alpha sample_kernels (PImage 2) (PImage 1)
               (sample_world [] [])
             = (Returned (PImage 1), w') /\
             images w' !! 1 = Some sample_rgba).
  { eexists. split; [vm_compute; reflexivity|reflexivity]. }
  destruct Hrun as (w' & Hrun & Hl).
  split.
  - exists w'. by repeat split.
  - intros H.
    destruct (H sample_kernels (sample_world [] []) 2 1 sample_dot sample_rgba
                eq_refl eq_refl eq_refl eq_refl eq_refl)
      as (w2 & im' & Hrun2 & Hl2 & Ha & _).
    assert (w2 = w') as -> by congruence.
    assert (Him : Some im' = Some sample_rgba) by (rewrite <- Hl2; exact Hl).
    injection Him as ->.
    injection Ha as Ha.
    apply (f_equal (fun b : PIL.band => b 0%Z 0%Z)) in Ha.
    discriminate Ha.
Qed.

(** C7 (amended). For well-formed buffers [original] and [derived] of the
    same dimensions, [derived] being in a mode that has an alpha layer or
    is L or RGB, [put_original_alpha] returns [derived]; when the mode of
    [original] has no alpha component nothing is changed and no error is
    raised (whatever [derived] is); when it has one, the alpha channel of
    the result is the alpha channel of [original] and the other channels
    are those of [derived]. *)
Theorem put_original_alpha_spec K w original derived io :
  images w !! original = Some io ->
  (str_index "A" (PIL.mode io) = None ->
   put_original_alpha K (PImage original) derived w = (Returned derived, w)) /\
  (forall d id,
     derived = PImage d ->
     images w !! d = Some id ->
     PIL.has_alpha_layer (PIL.mode io) = true ->
     PIL.wf io -> PIL.wf id ->
     PIL.size io = PIL.size id ->
     PIL.alpha_ready (PIL.mode id) = true ->
     exists w' im',
       put_original_alpha K (PImage original) derived w = (Returned derived, w') /\
       images w' !! d = Some im' /\
       PIL.size im' = PIL.size id /\
       PIL.alpha_band im' = PIL.alpha_band io /\
       PIL.color_bands im' = PIL.color_bands id).
Proof.
  intros Ho. split.
  - intros Hidx. by eapply put_original_alpha_no_alpha.
  - intros d id -> Hd Hao Hwo Hwd Hs Had.
    destruct (put_original_alpha_layer K w original d io id)
      as (w' & im' & Hrun & Him & _ & _ & _ & Hsz & _ & Ha & Hc & _); auto.
    exists w', im'. repeat split; auto.
    rewrite Him. apply list_lookup_insert_eq.
    rewrite length_app. apply lookup_lt_Some in Hd. lia.
Qed.

Lemma put_original_alpha_spec_witness :
  put_original_alpha sample_kernels (PImage 0) (PImage 1) (sample_world [] [])
  = (Returned (PImage 1), sample_world [] []) /\
  exists w' im',
    put_original_alpha sample_kernels (PImage 1) (PImage 0) (sample_world [] [])
    = (Returned (PImage 0), w') /\
    images w' !! 0 = Some im' /\
    PIL.size im' = PIL.size sample_rgb /\
    PIL.alpha_band im' = PIL.alpha_band sample_rgba /\
    PIL.color_bands im' = PIL.color_bands sample_rgb.
Proof.
  split.
  - exact (proj1 (put_original_alpha_spec sample_kernels (sample_world [] []) 0
                    (PImage 1) sample_rgb eq_refl) eq_refl).
  - exact (proj2 (put_original_alpha_spec sample_kernels (sample_world [] []) 1
                    (PImage 0) sample_rgba eq_refl)
             0 sample_rgb eq_refl eq_refl eq_refl eq_refl eq_refl eq_refl eq_refl).
Defined.

(** The promotion of [putalpha] gives an image or raises ValueError. *)
Lemma promote_cases K im :
  (exists promoted, PIL.promote K im = inr promoted) \/
  PIL.promote K im = inl ValueError.
Proof.
  unfold PIL.promote. destruct (PIL.getmodebase _); [|by right].
  destruct (existsb _ _); [left; by eexists|].
  destruct (_ || _); [left; by eexists|by right].
Qed.





(** * PixelEffect.apply *)

(** The statement fails as it is worded: a tile whose [image()] raises
    IOError makes [apply] raise IOError, and [apply_effect] is not called. *)
Lemma apply_propagates_IOError :
  PixelEffect_apply (fun v => ret v) (PFailing IOError) (sample_world [] [])
  = (Raised IOError, sample_world [] []) /\
  ~ apply_never_raises_on_materialization.
Proof.
  split; [reflexivity|].
  intros H.
  specialize (H (fun v => ret v) (PFailing IOError) (sample_world [] [])).
  discriminate H.
Qed.

(** C4 (amended). [apply] hands the result of [image()] to [apply_effect]
    when the value has such a method and it returns; it hands the value
    itself over when the attribute is missing (AttributeError) or the call
    fails with TypeError or AttributeError; any other exception raised by
    [image()] leaves [apply], and [apply_effect] is not called. *)
Theorem PixelEffect_apply_spec {A} (apply_effect : pyvalue -> M A) v w :
  PixelEffect_apply apply_effect v w
  = match v with
    | PVerbatim rendered => apply_effect rendered w
    | PImage _ | PObject => apply_effect v w
    | PFailing e =>
        if is_AttributeError_or_TypeError e then apply_effect v w
        else (Raised e, w)
    end.
Proof.
  destruct v as [r| |v'|e]; try reflexivity.
  destruct e; reflexivity.
Qed.

(** * The effects leave the list objects alone *)

Lemma lists_indep_lists {A} (m : M A) w r w1 :
  lists_indep m -> m w = (r, w1) -> lists w1 = lists w.
Proof.
  intros Hm Hrun.
  specialize (Hm (fun _ => lists w) w).
  replace (set_lists (fun _ => lists w) w) with w in Hm by (by destruct w).
  rewrite Hrun in Hm. simpl in Hm.
  injection Hm as Hm. by rewrite Hm.
Qed.

Lemma lists_indep_ret {A} (a : A) : lists_indep (ret a).
Proof. by intros f w. Qed.

Lemma lists_indep_raise {A} e : lists_indep (@raise A e).
Proof. by intros f w. Qed.

Lemma lists_indep_bind {A B} (m : M A) (k : A -> M B) :
  lists_indep m -> (forall a, lists_indep (k a)) -> lists_indep (bind m k).
Proof.
  intros Hm Hk f w. unfold bind. rewrite Hm.
  destruct (m w) as [[a|e] w1]; simpl; [apply Hk|done].
Qed.

Lemma lists_indep_try_except {A} (m : M A) caught handler :
  lists_indep m -> lists_indep handler -> lists_indep (try_except m caught handler).
Proof.
  intros Hm Hh f w. unfold try_except. rewrite Hm.
  destruct (m w) as [[a|e] w1]; simpl; [done|].
  destruct (caught e); [apply Hh|done].
Qed.

Lemma lists_indep_lift {A} (r : exn + A) : lists_indep (lift r).
Proof. by destruct r. Qed.

Lemma lists_indep_lift_opt {A} (o : option A) e : lists_indep (lift_opt o e).
Proof. by destruct o. Qed.

Lemma lists_indep_load v : lists_indep (load v).
Proof.
  intros f w. destruct v; try done.
  unfold load. simpl. by destruct (images w !! r).
Qed.

Lemma lists_indep_alloc im : lists_indep (alloc im).
Proof. by intros f w. Qed.

Lemma lists_indep_store v im : lists_indep (store v im).
Proof. intros f w. by destruct v. Qed.

Lemma lists_indep_randbelow n : lists_indep (randbelow n).
Proof. by intros f w. Qed.

Lemma lists_indep_mapM {A B} (g : A -> M B) l :
  (forall a, lists_indep (g a)) -> lists_indep (mapM g l).
Proof.
  intros Hg. induction l as [|a l IH]; simpl.
  - apply lists_indep_ret.
  - apply lists_indep_bind; [apply Hg|]. intros b.
    apply lists_indep_bind; [apply IH|]. intros bs. apply lists_indep_ret.
Qed.

Lemma lists_indep_for_each {A} (body : A -> M unit) l :
  (forall a, lists_indep (body a)) -> lists_indep (for_each l body).
Proof.
  intros Hb. induction l as [|a l IH]; simpl.
  - apply lists_indep_ret.
  - apply lists_indep_bind; [apply Hb|]. intros _. apply IH.
Qed.

Lemma lists_indep_shuffle_loop {A} i (x : list A) : lists_indep (shuffle_loop i x).
Proof.
  revert x. induction i as [|i IH]; intros x; simpl.
  - apply lists_indep_ret.
  - apply lists_indep_bind; [apply lists_indep_randbelow|]. intros j. apply IH.
Qed.

(** Computations built from the operations above. *)
Ltac lists_indep_with known :=
  repeat first
    [ known
    | apply lists_indep_ret
    | apply lists_indep_raise
    | apply lists_indep_lift
    | apply lists_indep_lift_opt
    | apply lists_indep_load
    | apply lists_indep_alloc
    | apply lists_indep_store
    | apply lists_indep_randbelow
    | apply lists_indep_shuffle_loop
    | apply lists_indep_bind
    | apply lists_indep_try_except
    | apply lists_indep_mapM
    | apply lists_indep_for_each
    | match goal with
      | |- forall _, _ => intro
      | |- lists_indep (let _ := _ in _) => cbv zeta
      | |- lists_indep (if ?b then _ else _) => destruct b
      | |- lists_indep (match ?x with _ => _ end) => destruct x
      end ].

Ltac lists_indep := lists_indep_with fail.

Section ListsIndep.
Variable K : PIL.Kernels.

Lemma lists_indep_put_original_alpha o n : lists_indep (put_original_alpha K o n).
Proof.
  unfold put_original_alpha, getmode, Image_split, Image_putalpha.
  lists_indep.
Qed.

Lemma lists_indep_apply_effect e image : lists_indep (apply_effect K e image).
Proof.
  destruct e; unfold apply_effect; simpl;
    unfold Blackwhite_apply_effect, Greyscale_apply_effect,
      Desaturate_apply_effect, Pixelate_apply_effect, Halftone_apply_effect,
      Blur_apply_effect, Solarize_apply_effect, Shredder_apply_effect,
      Image_convert, Image_split, Image_merge, Image_resize, Image_filter,
      Image_blend, Image_crop, Image_paste, Image_new, ImageOps_solarize,
      getmode, getsize, randint, shuffle, int_div.
  all: lists_indep_with ltac:(apply lists_indep_put_original_alpha).
Qed.

Lemma lists_indep_spec_attempt name image :
  lists_indep (Multiball_spec_attempt K name image).
Proof.
  unfold Multiball_spec_attempt, all_getitem, randint.
  lists_indep_with ltac:(apply lists_indep_apply_effect).
  unfold call_class. lists_indep.
Qed.

Lemma lists_indep_spec_each names image :
  lists_indep (Multiball_spec_each K names image).
Proof.
  revert image. induction names as [|n names IH]; intros image; simpl.
  - apply lists_indep_ret.
  - apply lists_indep_bind; [apply lists_indep_spec_attempt|apply IH].
Qed.

End ListsIndep.

(** * Multiball *)

Lemma set_lists_id w s l :
  lists w !! s = Some l -> set_lists (fun ls => <[s := l]> ls) w = w.
Proof.
  intros H. destruct w as [ims ls rnd c]. unfold set_lists. simpl in *.
  f_equal. by apply list_insert_id.
Qed.

Lemma set_lists_twice w s l l' :
  set_lists (fun ls => <[s := l']> ls) (set_lists (fun ls => <[s := l]> ls) w)
  = set_lists (fun ls => <[s := l']> ls) w.
Proof. unfold set_lists. simpl. f_equal. apply list_insert_insert_eq. Qed.

Lemma list_len_ok w s l :
  lists w !! s = Some l -> list_len s w = (Returned (length l), w).
Proof. intros H. unfold list_len. by rewrite H. Qed.

Lemma list_pop_ok w s l x :
  lists w !! s = Some (l ++ [x]) ->
  list_pop s w = (Returned x, set_lists (fun ls => <[s := l]> ls) w).
Proof.
  intros H. unfold list_pop. rewrite H.
  by rewrite last_snoc, removelast_last.
Qed.

Section MultiballFacts.
Variable K : PIL.Kernels.

(** One turn of the loop: the last name is popped and attempted. *)
Lemma Multiball_loop_step s names n bound image w :
  lists w !! s = Some (names ++ [n]) ->
  Multiball_loop K (S bound) (mkMultiball s) image w
  = bind (Multiball_spec_attempt K n image)
         (fun image' => Multiball_loop K bound (mkMultiball s) image')
         (set_lists (fun ls => <[s := names]> ls) w).
Proof.
  intros H. simpl.
  erewrite bind_run by (eapply list_len_ok; eassumption).
  rewrite length_app. simpl.
  replace (0 <? length names + 1)%nat with true
    by (symmetry; apply Nat.ltb_lt; lia).
  erewrite bind_run by (eapply list_pop_ok; eassumption).
  unfold Multiball_spec_attempt, bind.
  destruct (all_getitem n _) as [[cls|e] w1]; [|done].
  destruct (call_class cls w1) as [[inst|e] w2]; [|done].
  destruct (randint 1 10 w2) as [[d|e] w3]; [|done].
  done.
Qed.

(** The loop is the iteration over the reversed list. *)
Lemma Multiball_loop_spec s names :
  forall bound image w,
    lists w !! s = Some names ->
    length names <= bound ->
    exists rest,
      rest `prefix_of` names /\
      Multiball_loop K bound (mkMultiball s) image w
      = (fst (Multiball_spec K names image w),
         set_lists (fun ls => <[s := rest]> ls)
                   (snd (Multiball_spec K names image w))) /\
      (forall image', fst (Multiball_spec K names image w) = Returned image' ->
                      rest = []).
Proof.
  unfold Multiball_spec.
  induction names as [|n names IH] using rev_ind; intros bound image w Hl Hb.
  - exists []. split; [done|]. split; [|done].
    simpl. destruct bound; simpl.
    all: erewrite bind_run by (eapply list_len_ok; eassumption); simpl.
    all: unfold ret; simpl; by rewrite set_lists_id.
  - rewrite length_app in Hb. simpl in Hb.
    destruct bound as [|bound]; [lia|].
    rewrite (Multiball_loop_step _ _ _ _ _ _ Hl).
    rewrite rev_unit. simpl.
    pose proof (lists_indep_spec_attempt K n image
                  (fun ls => <[s := names]> ls) w) as Hpop.
    destruct (Multiball_spec_attempt K n image w) as [[image1|e] w1] eqn:Ha;
      simpl in Hpop.
    + rewrite (bind_run _ _ _ _ _ Hpop), !(bind_run _ _ _ _ _ Ha).
      assert (Hl1 : lists (set_lists (fun ls => <[s := names]> ls) w1) !! s
                    = Some names).
      { simpl.
        rewrite (lists_indep_lists _ _ _ _ (lists_indep_spec_attempt K n image) Ha).
        apply list_lookup_insert_eq. eapply lookup_lt_Some; eauto. }
      destruct (IH bound image1 _ Hl1 ltac:(lia)) as (rest & Hp & Hrun & Hret).
      exists rest. split; [by apply prefix_app_r|].
      rewrite Hrun, lists_indep_spec_each. simpl.
      rewrite set_lists_twice. split; [done|].
      intros image' Hi. eapply Hret.
      by rewrite lists_indep_spec_each.
    + rewrite (bind_raise _ _ _ _ _ Hpop), !(bind_raise _ _ _ _ _ Ha).
      exists names. split; [by apply prefix_app_r|]. split; [done|].
      discriminate.
Qed.

Lemma Multiball_apply_effect_spec s names image w :
  lists w !! s = Some names ->
  exists rest,
    rest `prefix_of` names /\
    Multiball_apply_effect K (mkMultiball s) image w
    = (fst (Multiball_spec K names image w),
       set_lists (fun ls => <[s := rest]> ls)
                 (snd (Multiball_spec K names image w))) /\
    (forall image', fst (Multiball_spec K names image w) = Returned image' ->
                    rest = []).
Proof.
  intros Hl. unfold Multiball_apply_effect.
  erewrite bind_run by (eapply list_len_ok; eassumption).
  by apply Multiball_loop_spec.
Qed.

(** On an empty list the loop does nothing. *)
Lemma Multiball_apply_effect_empty s image w :
  lists w !! s = Some [] ->
  Multiball_apply_effect K (mkMultiball s) image w = (Returned image, w).
Proof.
  intros Hl. unfold Multiball_apply_effect.
  erewrite bind_run by (eapply list_len_ok; eassumption).
  simpl. by erewrite bind_run by (eapply list_len_ok; eassumption).
Qed.

End MultiballFacts.

(** * The bound of a loop is never hit inside an effect *)

Lemma within_bounds_ret {A} (a : A) : within_bounds (ret a).
Proof. intros w e w' H. discriminate H. Qed.

Lemma within_bounds_raise {A} e : e <> LoopBound -> within_bounds (@raise A e).
Proof. intros He w e' w' [= <- _]. done. Qed.

Lemma within_bounds_bind {A B} (m : M A) (k : A -> M B) :
  within_bounds m -> (forall a, within_bounds (k a)) -> within_bounds (bind m k).
Proof.
  intros Hm Hk w e w' H. unfold bind in H.
  destruct (m w) as [[a|e1] w1] eqn:E.
  - by eapply Hk.
  - injection H as <- <-. by eapply Hm.
Qed.

Lemma within_bounds_try_except {A} (m : M A) caught handler :
  within_bounds m -> within_bounds handler ->
  within_bounds (try_except m caught handler).
Proof.
  intros Hm Hh w e w' H. unfold try_except in H.
  destruct (m w) as [[a|e1] w1] eqn:E; [discriminate H|].
  destruct (caught e1).
  - by eapply Hh.
  - injection H as <- <-. by eapply Hm.
Qed.

Lemma within_bounds_lift {A} (r : exn + A) :
  (forall e, r = inl e -> e <> LoopBound) -> within_bounds (lift r).
Proof.
  intros Hr. destruct r as [e|a]; simpl.
  - apply within_bounds_raise. by apply Hr.
  - apply within_bounds_ret.
Qed.

Lemma within_bounds_lift_opt {A} (o : option A) e :
  e <> LoopBound -> within_bounds (lift_opt o e).
Proof.
  intros He. destruct o; [apply within_bounds_ret|by apply within_bounds_raise].
Qed.

Lemma within_bounds_load v : within_bounds (load v).
Proof.
  intros w e w' H. destruct v; try (injection H as <- _; done).
  unfold load in H. destruct (images w !! r); [discriminate H|].
  injection H as <- _. done.
Qed.

Lemma within_bounds_alloc im : within_bounds (alloc im).
Proof. intros w e w' H. discriminate H. Qed.

Lemma within_bounds_store v im : within_bounds (store v im).
Proof.
  intros w e w' H. destruct v; try (injection H as <- _; done). discriminate H.
Qed.

Lemma within_bounds_randbelow n : within_bounds (randbelow n).
Proof. intros w e w' H. discriminate H. Qed.

Lemma within_bounds_mapM {A B} (g : A -> M B) l :
  (forall a, within_bounds (g a)) -> within_bounds (mapM g l).
Proof.
  intros Hg. induction l as [|a l IH]; simpl.
  - apply within_bounds_ret.
  - apply within_bounds_bind; [apply Hg|]. intros b.
    apply within_bounds_bind; [apply IH|]. intros bs. apply within_bounds_ret.
Qed.

Lemma within_bounds_for_each {A} (body : A -> M unit) l :
  (forall a, within_bounds (body a)) -> within_bounds (for_each l body).
Proof.
  intros Hb. induction l as [|a l IH]; simpl.
  - apply within_bounds_ret.
  - apply within_bounds_bind; [apply Hb|]. intros _. apply IH.
Qed.

Lemma within_bounds_shuffle_loop {A} i (x : list A) :
  within_bounds (shuffle_loop i x).
Proof.
  revert x. induction i as [|i IH]; intros x; simpl.
  - apply within_bounds_ret.
  - apply within_bounds_bind; [apply within_bounds_randbelow|]. intros j. apply IH.
Qed.

Lemma blend_not_LoopBound K a b q e :
  PIL.blend K a b q = inl e -> e <> LoopBound.
Proof.
  unfold PIL.blend. destruct (negb _); [by intros [= <-]|].
  destruct (negb _); [by intros [= <-]|].
  repeat (destruct (Qeq_bool _ _); [done|]). done.
Qed.

Lemma resize_not_LoopBound im sz e : PIL.resize im sz = inl e -> e <> LoopBound.
Proof.
  unfold PIL.resize. destruct (_ && _); [done|].
  destruct (_ || _); [by intros [= <-]|done].
Qed.

Lemma filter_blur_not_LoopBound K im radius e :
  PIL.filter_blur K im radius = inl e -> e <> LoopBound.
Proof.
  unfold PIL.filter_blur. destruct (Qeq_bool _ _); [done|].
  destruct (PIL.blurrable _); [done|by intros [= <-]].
Qed.

Lemma promote_not_LoopBound K im e : PIL.promote K im = inl e -> e <> LoopBound.
Proof.
  intros H. destruct (promote_cases K im) as [[p Hp]|Hp]; congruence.
Qed.

Lemma merge_not_LoopBound m ims e : PIL.merge m ims = inl e -> e <> LoopBound.
Proof.
  unfold PIL.merge. destruct ims as [|first ims]; [by intros [= <-]|].
  destruct (negb _); [by intros [= <-]|].
  destruct (forallb _ _); [done|by intros [= <-]].
Qed.

Lemma solarize_not_LoopBound im t e : PIL.solarize im t = inl e -> e <> LoopBound.
Proof.
  unfold PIL.solarize. destruct (existsb _ _); [done|by intros [= <-]].
Qed.

Lemma py_div_not_LoopBound a b e : py_div a b = inl e -> e <> LoopBound.
Proof.
  unfold py_div. destruct (Qeq_bool _ _); [by intros [= <-]|].
  by destruct a, b.
Qed.

Ltac within_bounds_with known :=
  repeat first
    [ known
    | apply within_bounds_ret
    | apply within_bounds_raise; discriminate
    | apply within_bounds_lift_opt; discriminate
    | apply within_bounds_lift;
      first [apply blend_not_LoopBound | apply merge_not_LoopBound
            | apply solarize_not_LoopBound | apply py_div_not_LoopBound
            | apply resize_not_LoopBound | apply filter_blur_not_LoopBound
            | apply promote_not_LoopBound]
    | apply within_bounds_load
    | apply within_bounds_alloc
    | apply within_bounds_store
    | apply within_bounds_randbelow
    | apply within_bounds_shuffle_loop
    | apply within_bounds_bind
    | apply within_bounds_try_except
    | apply within_bounds_mapM
    | apply within_bounds_for_each
    | match goal with
      | |- forall _, _ => intro
      | |- within_bounds (let _ := _ in _) => cbv zeta
      | |- within_bounds (if ?b then _ else _) => destruct b
      | |- within_bounds (match ?x with _ => _ end) => destruct x
      end ].

Lemma within_bounds_put_original_alpha K o n :
  within_bounds (put_original_alpha K o n).
Proof.
  unfold put_original_alpha, getmode, Image_split, Image_putalpha.
  within_bounds_with fail.
Qed.

Lemma within_bounds_apply_effect K e image : within_bounds (apply_effect K e image).
Proof.
  destruct e; unfold apply_effect; simpl;
    unfold Blackwhite_apply_effect, Greyscale_apply_effect,
      Desaturate_apply_effect, Pixelate_apply_effect, Halftone_apply_effect,
      Blur_apply_effect, Solarize_apply_effect, Shredder_apply_effect,
      Image_convert, Image_split, Image_merge, Image_resize, Image_filter,
      Image_blend, Image_crop, Image_paste, Image_new, ImageOps_solarize,
      getmode, getsize, randint, shuffle, int_div.
  all: within_bounds_with ltac:(apply within_bounds_put_original_alpha).
Qed.

Lemma within_bounds_spec_attempt K name image :
  within_bounds (Multiball_spec_attempt K name image).
Proof.
  unfold Multiball_spec_attempt, all_getitem, randint.
  within_bounds_with ltac:(apply within_bounds_apply_effect).
  unfold call_class. within_bounds_with fail.
Qed.

Lemma within_bounds_spec_each K names image :
  within_bounds (Multiball_spec_each K names image).
Proof.
  revert image. induction names as [|n names IH]; intros image; simpl.
  - apply within_bounds_ret.
  - apply within_bounds_bind; [apply within_bounds_spec_attempt|apply IH].
Qed.

(** C2. One call of [Multiball.apply_effect] is the iteration over the
    reversed list of names, each position of the list attempted once and
    none twice; what is left of the list is a prefix of it; when the call
    returns the list object is empty, and a second call on the same
    instance returns the image it is given and changes nothing. *)
Theorem Multiball_apply_effect_once K self image w names :
  lists w !! effects self = Some names ->
  exists rest,
    rest `prefix_of` names /\
    Multiball_apply_effect K self image w
    = (fst (Multiball_spec K names image w),
       set_lists (fun ls => <[effects self := rest]> ls)
                 (snd (Multiball_spec K names image w))) /\
    forall image' w',
      Multiball_apply_effect K self image w = (Returned image', w') ->
      lists w' !! effects self = Some [] /\
      forall image2,
        Multiball_apply_effect K self image2 w' = (Returned image2, w').
Proof.
  destruct self as [s]. simpl. intros Hl.
  destruct (Multiball_apply_effect_spec K s names image w Hl)
    as (rest & Hp & Hrun & Hret).
  exists rest. split; [done|]. split; [done|].
  intros image' w' Hrun'. rewrite Hrun in Hrun'.
  injection Hrun' as Hfst Hw'.
  specialize (Hret _ Hfst). subst rest.
  assert (Hempty : lists w' !! s = Some []).
  { subst w'.
    destruct (Multiball_spec K names image w) as [r w1] eqn:Hs.
    unfold Multiball_spec in Hs. simpl.
    rewrite (lists_indep_lists _ _ _ _ (lists_indep_spec_each K _ image) Hs).
    apply list_lookup_insert_eq. eapply lookup_lt_Some; eauto. }
  split; [done|].
  intros image2. by apply Multiball_apply_effect_empty.
Qed.

Lemma Multiball_apply_effect_once_witness :
  let w := sample_world ["blackwhite"; "solarize"] [1; 0] in
  let w' := snd (Multiball_apply_effect sample_kernels (mkMultiball 0) (PImage 0) w) in
  lists w !! 0 = Some ["blackwhite"; "solarize"] /\
  Multiball_apply_effect sample_kernels (mkMultiball 0) (PImage 0) w
  = (Returned (PImage 5), w') /\
  lists w' !! 0 = Some [] /\
  forall image2,
    Multiball_apply_effect sample_kernels (mkMultiball 0) image2 w'
    = (Returned image2, w').
Proof.
  intros w w'.
  assert (Hrun : Multiball_apply_effect sample_kernels (mkMultiball 0) (PImage 0) w
                 = (Returned (PImage 5), w')) by (vm_compute; reflexivity).
  split; [reflexivity|]. split; [exact Hrun|].
  destruct (Multiball_apply_effect_once sample_kernels (mkMultiball 0) (PImage 0)
              w ["blackwhite"; "solarize"] eq_refl) as (rest & _ & _ & Hret).
  exact (Hret (PImage 5) w' Hrun).
Defined.

(** The order is the reverse of the list: with the draws 2 (even) and 1
    (odd), solarize, the last name, is the one applied. *)
Example Multiball_reverse_order :
  exists w',
    Multiball_apply_effect sample_kernels (mkMultiball 0) (PImage 0)
      (sample_world ["blackwhite"; "solarize"] [1; 0])
    = (Returned (PImage 5), w') /\
    (PIL.mode <$> images w' !! 5) = Some "RGB" /\
    length (images w') = 6 /\
    lists w' = [[]].
Proof. eexists. split; [vm_compute; reflexivity|]. by vm_compute. Qed.

Lemma Multiball_spec_each_app K l1 l2 image w :
  Multiball_spec_each K (l1 ++ l2) image w
  = bind (Multiball_spec_each K l1 image) (Multiball_spec_each K l2) w.
Proof.
  revert image w. induction l1 as [|n l1 IH]; intros image w; simpl.
  - done.
  - unfold bind at 1 2 3.
    destruct (Multiball_spec_attempt K n image w) as [[image1|e] w1]; [|done].
    apply IH.
Qed.

Lemma Multiball_spec_attempt_bad K bad image w :
  all !! bad = None \/ bad = "multiball" ->
  Multiball_spec_attempt K bad image w
  = (Raised (match all !! bad with None => KeyError bad | Some _ => TypeError end), w).
Proof.
  intros [H| ->]; unfold Multiball_spec_attempt, all_getitem.
  - by rewrite H.
  - reflexivity.
Qed.

(** The statement fails as it is worded: in the list [nope, multiball] the
    name [multiball] is popped first and its construction raises TypeError;
    the lookup of [nope] is never reached. *)
Lemma Multiball_absent_name_not_reached :
  fst (Multiball_apply_effect sample_kernels (mkMultiball 0) (PImage 0)
         (sample_world ["nope"; "multiball"] []))
  = Raised TypeError /\
  ~ Multiball_raises_KeyError_at_every_absent_name.
Proof.
  split; [by vm_compute|].
  intros H.
  destruct (H sample_kernels (mkMultiball 0) (PImage 0)
              (sample_world ["nope"; "multiball"] [])
              ["nope"; "multiball"] "nope" eq_refl) as [w' Hw'].
  - left.
  - by vm_compute.
  - apply (f_equal fst) in Hw'. vm_compute in Hw'. discriminate Hw'.
Qed.

(** C10 (amended). A name that is absent from the registry, or is
    [multiball], is never skipped: a call whose list contains one raises
    a Python exception.
    Names are popped from the end, so when the names after it have been
    attempted without an exception, the exception is the lookup error
    (KeyError) of that very name if it is absent and the TypeError of the
    construction without arguments if it is [multiball]. *)
Theorem Multiball_apply_effect_raises K self image w before bad after :
  lists w !! effects self = Some (before ++ bad :: after) ->
  all !! bad = None \/ bad = "multiball" ->
  (exists e w',
     Multiball_apply_effect K self image w = (Raised e, w') /\
     e <> LoopBound) /\
  (forall image' w1,
     Multiball_spec K after image w = (Returned image', w1) ->
     exists w',
       Multiball_apply_effect K self image w
       = (Raised (match all !! bad with
                  | None => KeyError bad
                  | Some _ => TypeError
                  end), w')).
Proof.
  destruct self as [s]. simpl. intros Hl Hbad.
  destruct (Multiball_apply_effect_spec K s _ image w Hl)
    as (rest & _ & Hrun & _).
  rewrite Hrun. clear Hrun.
  unfold Multiball_spec.
  rewrite rev_app_distr. simpl. rewrite <- (assoc_L (++)). simpl.
  rewrite Multiball_spec_each_app.
  destruct (Multiball_spec_each K (rev after) image w) as [[image1|e] w1] eqn:Ha.
  - rewrite (bind_run _ _ _ _ _ Ha). simpl.
    erewrite bind_raise by (by apply Multiball_spec_attempt_bad).
    simpl. split; [|intros image' w2 _; by eauto].
    eexists _, _. split; [reflexivity|]. by destruct (all !! bad).
  - rewrite (bind_raise _ _ _ _ _ Ha). simpl.
    split; [|intros image' w2 [=]].
    eexists _, _. split; [reflexivity|].
    exact (within_bounds_spec_each K _ _ _ _ _ Ha).
Qed.

Lemma Multiball_apply_effect_raises_witness :
  let w := sample_world ["blackwhite"; "nope"; "greyscale"] [0] in
  (exists e w',
     Multiball_apply_effect sample_kernels (mkMultiball 0) (PImage 0) w
     = (Raised e, w') /\ e <> LoopBound) /\
  (exists w',
     Multiball_apply_effect sample_kernels (mkMultiball 0) (PImage 0) w
     = (Raised (KeyError "nope"), w')).
Proof.
  intros w.
  destruct (Multiball_apply_effect_raises sample_kernels (mkMultiball 0) (PImage 0)
              w ["blackwhite"] "nope" ["greyscale"] eq_refl (or_introl eq_refl))
    as [H1 H2].
  split; [exact H1|].
  exact (H2 (PImage 0) (consume w) eq_refl).
Defined.

(** * Desaturate *)

Lemma py_lt_spec a b : py_lt a b = true <-> (num_val a < num_val b)%Q.
Proof.
  unfold py_lt. rewrite negb_true_iff.
  split.
  - intros H. apply Qnot_le_lt. intros Hle.
    apply Qle_bool_iff in Hle. congruence.
  - intros H. destruct (Qle_bool (num_val b) (num_val a)) eqn:E; [|done].
    apply Qle_bool_iff in E. exfalso. by apply (Qlt_not_le _ _ H).
Qed.

Lemma py_lt_false a b : py_lt a b = false <-> (num_val b <= num_val a)%Q.
Proof.
  unfold py_lt. rewrite negb_false_iff. apply Qle_bool_iff.
Qed.


Lemma blend_checks (a b : PIL.Image) :
  PIL.blendable (PIL.mode a) = true ->
  PIL.mode a = PIL.mode b -> PIL.size a = PIL.size b ->
  negb (PIL.blendable (PIL.mode a) && PIL.blendable (PIL.mode b)) = false /\
  negb (Nat.eqb (PIL.getmodebands (PIL.mode a)) (PIL.getmodebands (PIL.mode b))
        && Z.eqb (PIL.width a) (PIL.width b)
        && Z.eqb (PIL.height a) (PIL.height b)) = false.
Proof.
  intros Hb Hm Hs. unfold PIL.width, PIL.height.
  by rewrite <- Hm, <- Hs, Hb, Nat.eqb_refl, !Z.eqb_refl.
Qed.



(** On a palette image the blend raises ValueError, whatever the factor. *)
Lemma blend_not_blendable K (a b : PIL.Image) q :
  PIL.blendable (PIL.mode a) = false -> PIL.blend K a b q = inl ValueError.
Proof. intros Hb. unfold PIL.blend. by rewrite Hb. Qed.

Section DesaturateFacts.
Variable K : PIL.Kernels.

Lemma Desaturate_apply_effect_run w image im factor out :
  images w !! image = Some im ->
  PIL.blend K im (desaturated K im) (num_val factor) = inr out ->
  Desaturate_apply_effect K factor (PImage image) w
  = (Returned (PImage (S (S (length (images w))))),
     allocated out (allocated (desaturated K im)
                      (allocated (PIL.convert K im "LA") w))).
Proof.
  intros Hi Hb. unfold Desaturate_apply_effect.
  eapply bind_intro; [run|]. eapply bind_intro; [run|].
  eapply bind_intro; [run|].
  erewrite Image_blend_ok; [|heap_lookup|heap_lookup|exact Hb].
  rewrite !images_allocated, !length_app. simpl.
  do 3 f_equal. lia.
Qed.


End DesaturateFacts.




(** * Pixelate *)

Lemma Qtrunc_inject_Z z : Qtrunc (inject_Z z) = z.
Proof.
  unfold Qtrunc. destruct (Qle_bool 0 (inject_Z z)).
  - apply Qfloor_Z.
  - apply Qceiling_Z.
Qed.

Lemma Qtrunc_comp q q' : (q == q')%Q -> Qtrunc q = Qtrunc q'.
Proof.
  intros H. unfold Qtrunc.
  assert (Qle_bool 0 q = Qle_bool 0 q') as ->.
  { destruct (Qle_bool 0 q) eqn:E, (Qle_bool 0 q') eqn:E'; try done.
    - apply Qle_bool_iff in E. rewrite H in E.
      apply Qle_bool_iff in E. congruence.
    - apply Qle_bool_iff in E'. rewrite <- H in E'.
      apply Qle_bool_iff in E'. congruence. }
  destruct (Qle_bool 0 q'); [by apply Qfloor_comp|by apply Qceiling_comp].
Qed.

(** Dividing a dimension by a reduction of 1 and truncating gives it back. *)
Lemma py_div_one z r :
  (num_val r == 1)%Q ->
  exists q, py_div (PyInt z) r = inr q /\ py_int q = z.
Proof.
  intros Hr. unfold py_div.
  destruct (Qeq_bool (num_val r) 0) eqn:E.
  { apply Qeq_bool_iff in E. rewrite E in Hr. discriminate Hr. }
  destruct r as [y|q]; simpl in *.
  - exists (PyInt (z / y)). split; [done|]. simpl.
    assert (y = 1%Z) as ->.
    { unfold Qeq in Hr. simpl in Hr. lia. }
    apply Z.div_1_r.
  - eexists. split; [reflexivity|]. simpl.
    rewrite <- (Qtrunc_inject_Z z) at 2.
    apply Qtrunc_comp. rewrite Hr. field.
Qed.

(** [max(reduction, 1)] is at least 1, and is [reduction] itself when that
    is. *)
Lemma clamp_one r :
  let c := py_max r (PyInt 1) in
  (1 <= num_val c)%Q /\ ((1 <= num_val r)%Q -> c = r).
Proof.
  unfold py_max. destruct (py_lt r (PyInt 1)) eqn:E.
  - apply py_lt_spec in E. simpl in *. split; [done|].
    intros H. exfalso. by apply (Qlt_not_le _ _ E).
  - apply py_lt_false in E. simpl in *. by split.
Qed.

Lemma Qtrunc_lower q (a : Z) : (inject_Z a <= q)%Q -> (a <= Qtrunc q)%Z.
Proof.
  intros Ha. unfold Qtrunc. destruct (Qle_bool 0 q).
  - pose proof (Qlt_floor q) as H.
    pose proof (Qle_lt_trans _ _ _ Ha H) as H'.
    rewrite <- Zlt_Qlt in H'. lia.
  - pose proof (Qle_ceiling q) as H.
    pose proof (Qle_trans _ _ _ Ha H) as H'.
    by rewrite <- Zle_Qle in H'.
Qed.


(** A side divided by a reduction of at least 1 that does not exceed it,
    and truncated, is at least 1. *)
Lemma py_div_ge_one z r :
  (1 <= num_val r)%Q -> (num_val r <= inject_Z z)%Q ->
  exists q, py_div (PyInt z) r = inr q /\ (1 <= py_int q)%Z.
Proof.
  intros H1 Hz. unfold py_div.
  destruct (Qeq_bool (num_val r) 0) eqn:E.
  { apply Qeq_bool_iff in E. rewrite E in H1. by exfalso. }
  destruct r as [y|q]; simpl in *.
  - exists (PyInt (z / y)). split; [done|]. simpl.
    change 1%Q with (inject_Z 1) in H1.
    rewrite <- Zle_Qle in H1, Hz.
    apply Z.div_le_lower_bound; lia.
  - eexists. split; [reflexivity|]. simpl.
    apply Qtrunc_lower. apply Qle_shift_div_l.
    + eapply Qlt_le_trans; [|exact H1]. done.
    + by rewrite Qmult_1_l.
Qed.

(** A resize to a size without a side below 1 returns an image of that
    size, in the mode and with as many bands as the image. *)
Lemma resize_ok im sz :
  (1 <= fst sz)%Z -> (1 <= snd sz)%Z ->
  exists out, PIL.resize im sz = inr out /\
              PIL.mode out = PIL.mode im /\ PIL.size out = sz /\
              length (PIL.bands out) = length (PIL.bands im).
Proof.
  intros Hw Hh. unfold PIL.resize, PIL.width, PIL.height.
  destruct (_ && _) eqn:E.
  - exists im. split; [done|]. split; [done|]. split; [|done].
    apply andb_prop in E as [E1 E2]. apply Z.eqb_eq in E1, E2.
    destruct sz, (PIL.size im). simpl in *. congruence.
  - replace (fst sz <? 1)%Z with false by (symmetry; apply Z.ltb_ge; lia).
    replace (snd sz <? 1)%Z with false by (symmetry; apply Z.ltb_ge; lia).
    simpl. eexists. split; [reflexivity|]. simpl. by rewrite length_map.
Qed.

(** A resize to a size with a side below 1, other than the size the image
    has, raises ValueError. *)
Lemma resize_raises im sz :
  sz <> PIL.size im ->
  (fst sz < 1)%Z \/ (snd sz < 1)%Z ->
  PIL.resize im sz = inl ValueError.
Proof.
  intros Hne Hlt. unfold PIL.resize, PIL.width, PIL.height.
  destruct (_ && _) eqn:E.
  - apply andb_prop in E as [E1 E2]. apply Z.eqb_eq in E1, E2.
    destruct Hne. destruct sz, (PIL.size im). simpl in *. congruence.
  - replace ((fst sz <? 1)%Z || (snd sz <? 1)%Z) with true; [done|].
    symmetry. apply orb_true_iff.
    destruct Hlt; [left|right]; by apply Z.ltb_lt.
Qed.

(** A resize to the size the image has is a copy. *)
Lemma resize_same im : PIL.resize im (PIL.size im) = inr im.
Proof. unfold PIL.resize, PIL.width, PIL.height. by rewrite !Z.eqb_refl. Qed.


Lemma Pixelate_apply_effect_run K w image im reduction qw qh small out :
  images w !! image = Some im ->
  py_div (PyInt (fst (PIL.size im))) reduction = inr qw ->
  py_div (PyInt (snd (PIL.size im))) reduction = inr qh ->
  PIL.resize im (py_int qw, py_int qh) = inr small ->
  PIL.resize small (PIL.size im) = inr out ->
  apply_effect K (Pixelate reduction) (PImage image) w
  = (Returned (PImage (S (length (images w)))),
     allocated out (allocated small w)).
Proof.
  intros Hi Hw Hh Hsmall Hout. simpl. unfold Pixelate_apply_effect.
  eapply bind_intro; [run|]. rewrite Hw.
  eapply bind_intro; [run|]. eapply bind_intro; [run|]. rewrite Hh.
  eapply bind_intro; [run|].
  eapply bind_intro; [eapply Image_resize_ok; [heap_lookup|exact Hsmall]|].
  eapply bind_intro; [run|].
  erewrite Image_resize_ok; [|heap_lookup|exact Hout].
  rewrite images_allocated, length_app. simpl.
  do 3 f_equal. lia.
Qed.



(** * Solarize *)

Lemma Solarize_apply_effect_run K w image im threshold :
  images w !! image = Some im ->
  apply_effect K (Solarize threshold) (PImage image) w
  = (Returned (PImage (S (length (images w)))),
     allocated
       {| PIL.mode := "RGB"; PIL.size := PIL.size im;
          PIL.bands :=
            map (fun (b : PIL.band) x y => PIL.solarize_lut threshold (b x y))
                (PIL.bands (PIL.convert K im "RGB")) |}
       (allocated (PIL.convert K im "RGB") w)).
Proof.
  intros Hi. simpl. unfold Solarize_apply_effect.
  eapply bind_intro; [run|].
  erewrite ImageOps_solarize_ok; [|heap_lookup|].
  - rewrite images_allocated, length_app. simpl. do 3 f_equal. lia.
  - unfold PIL.solarize. rewrite mode_convert, size_convert. reflexivity.
Qed.

(** The statement fails as it is worded: with the default threshold 128, a
    value of 128 does not exceed the threshold and yet comes out as 127. *)
Lemma Solarize_inverts_threshold_value :
  (exists w' im' b',
     apply_effect sample_kernels (Solarize_init None) (PImage 3) (sample_world [] [])
     = (Returned (PImage 5), w') /\
     images w' !! 5 = Some im' /\
     PIL.bands im' !! 0 = Some b' /\
     b' 0%Z 0%Z = 127%Z) /\
  ~ Solarize_keeps_values_up_to_threshold.
Proof.
  split.
  - do 3 eexists. split; [|split; [|split]]; reflexivity.
  - intros H.
    destruct (H sample_kernels (sample_world [] []) 3 sample_grey 128%Z eq_refl)
      as (r' & w' & im' & Hrun & Hi & Hb).
    rewrite (Solarize_apply_effect_run sample_kernels (sample_world [] []) 3
               sample_grey (PyInt 128) eq_refl) in Hrun.
    injection Hrun as <- <-.
    injection Hi as <-.
    destruct (Hb 0 (fun _ _ => 128%Z) eq_refl) as (b' & Hb' & Hv).
    injection Hb' as <-.
    specialize (Hv 0%Z 0%Z). discriminate Hv.
Qed.

(** C8 (amended). Solarize converts the buffer to RGB, then inverts every
    channel value that is at or above the threshold and leaves the values
    strictly below it unchanged; the threshold is 128 by default and is
    used as given, without clamping; the result is an RGB buffer, without
    an alpha channel whatever the input. *)
Theorem Solarize_spec K w image im threshold :
  images w !! image = Some im ->
  Solarize_init threshold = Solarize (default (PyInt 128) threshold) /\
  exists r' w' im',
    apply_effect K (Solarize_init threshold) (PImage image) w
    = (Returned (PImage r'), w') /\
    images w' !! r' = Some im' /\
    PIL.mode im' = "RGB" /\
    PIL.has_alpha_layer (PIL.mode im') = false /\
    PIL.size im' = PIL.size im /\
    length (PIL.bands im') = length (PIL.bands (PIL.convert K im "RGB")) /\
    forall k b, PIL.bands (PIL.convert K im "RGB") !! k = Some b ->
      exists b', PIL.bands im' !! k = Some b' /\
        forall x y,
          b' x y = if py_lt (PyInt (b x y)) (default (PyInt 128) threshold)
                   then b x y else (255 - b x y)%Z.
Proof.
  intros Hi. split; [reflexivity|].
  do 3 eexists. split; [|split].
  - unfold Solarize_init. by apply Solarize_apply_effect_run.
  - heap_index.
  - simpl. repeat split; try done.
    + by rewrite length_map.
    + intros k b Hb.
      rewrite list_lookup_fmap, Hb. simpl. eexists. split; [reflexivity|].
      intros x y. reflexivity.
Qed.

Lemma Solarize_spec_witness :
  exists r' w' im',
    apply_effect sample_kernels (Solarize_init (Some (PyInt 100))) (PImage 1)
      (sample_world [] [])
    = (Returned (PImage r'), w') /\
    images w' !! r' = Some im' /\
    PIL.mode im' = "RGB" /\
    PIL.has_alpha_layer (PIL.mode im') = false /\
    PIL.size im' = PIL.size sample_rgba /\
    length (PIL.bands im')
    = length (PIL.bands (PIL.convert sample_kernels sample_rgba "RGB")) /\
    forall k b,
      PIL.bands (PIL.convert sample_kernels sample_rgba "RGB") !! k = Some b ->
      exists b', PIL.bands im' !! k = Some b' /\
        forall x y,
          b' x y = if py_lt (PyInt (b x y)) (PyInt 100)
                   then b x y else (255 - b x y)%Z.
Proof.
  exact (proj2 (Solarize_spec sample_kernels (sample_world [] []) 1 sample_rgba
                  (Some (PyInt 100)) eq_refl)).
Defined.

(** * The random module *)

Lemma randbelow_ok n w :
  randbelow n w = (Returned (random w (consumed w) mod n), advance 1 w).
Proof. reflexivity. Qed.

Lemma randint_ok w : randint 1 10 w = (Returned (draw w), advance 1 w).
Proof. reflexivity. Qed.

Lemma draw_range w : (1 <= draw w <= 10)%Z.
Proof.
  unfold draw.
  pose proof (Nat.mod_upper_bound (random w (consumed w)) 10). lia.
Qed.

Lemma advance_advance n m w : advance n (advance m w) = advance (n + m) w.
Proof. unfold advance. simpl. f_equal. lia. Qed.

Lemma insert_Permutation {A} (x : list A) j a b :
  x !! j = Some b -> b :: <[j := a]> x ≡ₚ a :: x.
Proof.
  revert j. induction x as [|c x IH]; intros [|j] H; simpl in *; try done.
  - injection H as ->. apply Permutation_swap.
  - etransitivity; [apply Permutation_swap|].
    etransitivity; [apply Permutation_skip, (IH _ H)|].
    apply Permutation_swap.
Qed.

Lemma swap_Permutation {A} (x : list A) i j : swap x i j ≡ₚ x.
Proof.
  unfold swap.
  destruct (x !! i) as [a|] eqn:Hi; [|done].
  destruct (x !! j) as [b|] eqn:Hj; [|done].
  revert i j Hi Hj. induction x as [|c x IH]; intros [|i] [|j] Hi Hj;
    simpl in *; try done.
  - injection Hi as ->. injection Hj as ->. done.
  - injection Hi as ->. by apply insert_Permutation.
  - injection Hj as ->. by apply insert_Permutation.
  - constructor. by apply IH.
Qed.

(** [shuffle] returns a permutation of its argument, and only draws
    numbers. *)
Lemma shuffle_loop_ok {A} i (x : list A) w :
  exists x', shuffle_loop i x w = (Returned x', advance i w) /\ x' ≡ₚ x.
Proof.
  revert x w. induction i as [|i IH]; intros x w; simpl.
  - exists x. split; [|done]. by destruct w.
  - rewrite (bind_run _ _ _ _ _ (randbelow_ok _ w)).
    destruct (IH (swap x (S i) (random w (consumed w) mod S (S i))) (advance 1 w))
      as (x' & Hrun & Hp).
    exists x'. split.
    + rewrite Hrun, advance_advance. do 2 f_equal. lia.
    + by rewrite Hp, swap_Permutation.
Qed.

Lemma shuffle_ok {A} (x : list A) w :
  exists x', shuffle x w = (Returned x', advance (length x - 1) w) /\ x' ≡ₚ x.
Proof. apply shuffle_loop_ok. Qed.

(** The list [shuffle] returns is the one the numbers of the generator
    decide. *)
Lemma shuffle_loop_exact {A} i (x : list A) w :
  shuffle_loop i x w
  = (Returned (shuffled_from (random w) (consumed w) i x), advance i w).
Proof.
  revert x w. induction i as [|i IH]; intros x w; simpl.
  - unfold ret. by destruct w.
  - rewrite (bind_run _ _ _ _ _ (randbelow_ok _ w)).
    rewrite IH, advance_advance. simpl. do 2 f_equal. lia.
Qed.

Lemma shuffle_exact {A} (x : list A) w :
  shuffle x w = (Returned (shuffled w x), advance (length x - 1) w).
Proof. apply shuffle_loop_exact. Qed.

Lemma shuffled_from_Permutation {A} random c i (x : list A) :
  shuffled_from random c i x ≡ₚ x.
Proof.
  revert c x. induction i as [|i IH]; intros c x; simpl; [done|].
  by rewrite IH, swap_Permutation.
Qed.

Lemma elem_of_range a b p : p ∈ range a b <-> (a <= p < b)%Z.
Proof.
  unfold range. rewrite list_elem_of_fmap. split.
  - intros (k & -> & Hk). apply elem_of_seq in Hk. lia.
  - intros H. exists (Z.to_nat (p - a)). split; [lia|].
    apply elem_of_seq. lia.
Qed.

Lemma length_range a b : length (range a b) = Z.to_nat (b - a).
Proof. unfold range. by rewrite length_map, length_seq. Qed.

(** * Shredder *)

Section ShredderFacts.
Variable K : PIL.Kernels.

Lemma size_strip im sw p :
  PIL.size (strip K im sw p) = (sw, snd (PIL.size im)).
Proof.
  unfold strip. rewrite size_convert. simpl. f_equal; lia.
Qed.

Lemma length_bands_strip im sw p :
  PIL.wf im -> length (PIL.bands (strip K im sw p)) = 4.
Proof.
  intros Hwf. unfold PIL.wf in Hwf. unfold strip, PIL.convert.
  cbn -[String.eqb PIL.getmodebands].
  replace ("RGBA" =? "LA") with false by reflexivity.
  replace ("RGBA" =? "RGBA") with true by reflexivity.
  rewrite andb_false_r, andb_true_r, orb_false_l.
  destruct (String.eqb_spec "RGBA" (PIL.mode im)) as [E|E].
  - cbn -[String.eqb PIL.getmodebands].
    by rewrite length_map, Hwf, <- E.
  - destruct (String.eqb_spec (PIL.mode im) "RGB") as [E'|E'];
      cbn -[String.eqb PIL.getmodebands].
    + by rewrite length_app, length_map, Hwf, E'.
    + by rewrite length_map, length_seq.
Qed.

(** Pasting a strip into an RGBA image. *)
Lemma shred_step_eq im sw acc i p :
  PIL.mode acc = "RGBA" ->
  shred_step K im sw acc (i, p)
  = {| PIL.mode := "RGBA"; PIL.size := PIL.size acc;
       PIL.bands :=
         zip_with (fun (bd bs : PIL.band) x y =>
                     if PIL.inside (sw, snd (PIL.size im))
                          (x - sw * Z.of_nat i) (y - 0)
                     then bs (x - sw * Z.of_nat i)%Z (y - 0)%Z
                     else bd x y)
                  (PIL.bands acc) (PIL.bands (strip K im sw p)) |}.
Proof.
  intros Hm. unfold shred_step, PIL.paste.
  cbn -[String.eqb PIL.convert].
  rewrite Hm.
  replace ("RGBA" =? "RGB") with false by reflexivity.
  cbn -[String.eqb PIL.convert].
  rewrite andb_true_r.
  assert (Hsrc : (if negb (PIL.mode im =? "RGBA")
                  then PIL.convert K
                         (PIL.crop im ((sw * p)%Z, 0%Z, (sw * p + sw)%Z,
                                       snd (PIL.size im))) "RGBA"
                  else PIL.crop im ((sw * p)%Z, 0%Z, (sw * p + sw)%Z,
                                    snd (PIL.size im)))
                 = strip K im sw p).
  { unfold strip. destruct (String.eqb_spec (PIL.mode im) "RGBA") as [E|E];
      [|done].
    unfold PIL.convert. cbn -[String.eqb]. by rewrite E. }
  cbn -[String.eqb PIL.convert] in Hsrc. rewrite Hsrc, size_strip.
  reflexivity.
Qed.

(** Inside the slot the values are those of the strip, outside they are
    kept. *)
Lemma pixel_shred_step im sw acc i p k X y :
  PIL.mode acc = "RGBA" ->
  length (PIL.bands acc) = length (PIL.bands (strip K im sw p)) ->
  PIL.pixel (shred_step K im sw acc (i, p)) k X y
  = if PIL.inside (sw, snd (PIL.size im)) (X - sw * Z.of_nat i) y
    then PIL.pixel (strip K im sw p) k (X - sw * Z.of_nat i) y
    else PIL.pixel acc k X y.
Proof.
  intros Hm Hlen. rewrite shred_step_eq by done.
  unfold PIL.pixel. cbn [PIL.bands]. rewrite lookup_zip_with.
  destruct (PIL.bands acc !! k) as [bd|] eqn:Hd; simpl.
  - destruct (PIL.bands (strip K im sw p) !! k) as [bs|] eqn:Hs; simpl.
    + by rewrite Z.sub_0_r.
    + apply lookup_lt_Some in Hd. apply lookup_ge_None in Hs. lia.
  - apply lookup_ge_None in Hd.
    destruct (PIL.bands (strip K im sw p) !! k) as [bs|] eqn:Hs.
    + apply lookup_lt_Some in Hs. lia.
    + by destruct (PIL.inside _ _ _).
Qed.

Lemma shred_step_shape im sw acc e :
  PIL.wf im ->
  PIL.mode acc = "RGBA" -> length (PIL.bands acc) = 4 ->
  PIL.mode (shred_step K im sw acc e) = "RGBA" /\
  PIL.size (shred_step K im sw acc e) = PIL.size acc /\
  length (PIL.bands (shred_step K im sw acc e)) = 4.
Proof.
  intros Hwf Hm Hlen. destruct e as [i p].
  rewrite shred_step_eq by done. cbn [PIL.mode PIL.size PIL.bands].
  repeat split.
  rewrite length_zip_with, Hlen, length_bands_strip by done. done.
Qed.

(** The strips of [sequence], pasted into the slots [start],
    [start + 1], ...: each slot holds its strip, and what lies in none of
    these slots is as it was. *)
Lemma pixel_shred_fold im sw (Hwf : PIL.wf im) sequence :
  forall start acc,
    PIL.mode acc = "RGBA" -> length (PIL.bands acc) = 4 ->
    let res := fold_left (shred_step K im sw) (enumerate_from start sequence) acc in
    (PIL.mode res = "RGBA" /\ PIL.size res = PIL.size acc /\
     length (PIL.bands res) = 4) /\
    (forall i p k x y,
       sequence !! i = Some p ->
       (0 <= x < sw)%Z -> (0 <= y < snd (PIL.size im))%Z ->
       PIL.pixel res k (sw * Z.of_nat (start + i) + x) y
       = PIL.pixel (strip K im sw p) k x y) /\
    (forall k X y,
       (forall i, start <= i < start + length sequence ->
                  ~ (sw * Z.of_nat i <= X < sw * Z.of_nat i + sw)%Z)
       \/ ~ (0 <= y < snd (PIL.size im))%Z ->
       PIL.pixel res k X y = PIL.pixel acc k X y).
Proof.
  induction sequence as [|p0 sequence IH]; intros start acc Hm Hlen; simpl.
  - repeat split; try done.
  - destruct (shred_step_shape im sw acc (start, p0) Hwf Hm Hlen)
      as (Hm' & Hs' & Hlen').
    destruct (IH (S start) _ Hm' Hlen') as ((Hrm & Hrs & Hrl) & Ha & Hb).
    assert (Hstep : forall k X y,
               PIL.pixel (shred_step K im sw acc (start, p0)) k X y
               = if PIL.inside (sw, snd (PIL.size im)) (X - sw * Z.of_nat start) y
                 then PIL.pixel (strip K im sw p0) k (X - sw * Z.of_nat start) y
                 else PIL.pixel acc k X y).
    { intros. apply pixel_shred_step; [done|].
      by rewrite Hlen, length_bands_strip. }
    split; [|split].
    + repeat split; [done| |done]. by rewrite Hrs.
    + intros [|i] p k x y Hp Hx Hy; simpl in Hp.
      * injection Hp as ->. rewrite Hb, Hstep.
        -- replace (sw * Z.of_nat (start + 0) + x - sw * Z.of_nat start)%Z
             with x by lia.
           unfold PIL.inside. simpl.
           replace (0 <=? x)%Z with true by (symmetry; apply Z.leb_le; lia).
           replace (x <? sw)%Z with true by (symmetry; apply Z.ltb_lt; lia).
           replace (0 <=? y)%Z with true by (symmetry; apply Z.leb_le; lia).
           replace (y <? snd (PIL.size im))%Z with true
             by (symmetry; apply Z.ltb_lt; lia).
           done.
        -- left. intros i Hi. nia.
      * replace (start + S i) with (S start + i) by lia.
        by apply Ha.
    + intros k X y Hout. rewrite Hb, Hstep.
      * destruct (PIL.inside _ _ _) eqn:Hin; [|done].
        exfalso. unfold PIL.inside in Hin. simpl in Hin.
        apply andb_prop in Hin as [Hin Hy2]. apply andb_prop in Hin as [Hin Hy1].
        apply andb_prop in Hin as [Hx1 Hx2].
        apply Z.leb_le in Hx1, Hy1. apply Z.ltb_lt in Hx2, Hy2.
        destruct Hout as [Hout|Hout]; [|lia].
        apply (Hout start); lia.
      * destruct Hout as [Hout|Hout]; [left|by right].
        intros i Hi. apply Hout. lia.
Qed.

End ShredderFacts.

Section ShredderRun.
Variable K : PIL.Kernels.

(** The loop of Shredder pastes the strips into the object [shredded],
    one after the other, and leaves the image alone. *)
Lemma Shredder_loop_ok image shredded im sw es :
  image <> shredded ->
  forall acc w,
    images w !! image = Some im ->
    images w !! shredded = Some acc ->
    exists w',
      for_each es (fun entry =>
        region <- Image_crop (PImage image)
                    ((sw * snd entry)%Z, 0%Z, (sw * snd entry + sw)%Z,
                     snd (PIL.size im)) ;;
        Image_paste K (PImage shredded) region
          ((sw * Z.of_nat (fst entry))%Z, 0%Z)) w
      = (Returned tt, w') /\
      images w' !! shredded = Some (fold_left (shred_step K im sw) es acc) /\
      images w' !! image = Some im /\
      length (images w) <= length (images w') /\
      lists w' = lists w /\ random w' = random w /\ consumed w' = consumed w.
Proof.
  intros Hne. induction es as [|e es IH]; intros acc w Hi Hs.
  - exists w. by repeat split.
  - assert (Hli : image < length (images w)) by (eapply lookup_lt_Some; eauto).
    assert (Hls : shredded < length (images w)) by (eapply lookup_lt_Some; eauto).
    edestruct (IH (shred_step K im sw acc e)
                 (stored shredded (shred_step K im sw acc e)
                    (allocated (PIL.crop im ((sw * snd e)%Z, 0%Z,
                                             (sw * snd e + sw)%Z,
                                             snd (PIL.size im))) w)))
      as (w' & Hrun & Hs' & Hi' & Hlen & Hl & Hr & Hc).
    { heap_lookup. }
    { heap_lookup. }
    exists w'. split; [|split; [|split; [|split]]]; try done.
    + simpl. eapply bind_intro; [|exact Hrun].
      eapply bind_intro; [run|].
      eapply Image_paste_ok; heap_lookup.
    + rewrite images_stored, length_insert, images_allocated, length_app in Hlen.
      simpl in Hlen. lia.
Qed.

End ShredderRun.

Lemma pixel_new m sz k x y : PIL.pixel (PIL.new m sz) k x y = 0%Z.
Proof.
  unfold PIL.pixel, PIL.new. simpl.
  destruct (replicate (PIL.getmodebands m) PIL.blank !! k) as [b|] eqn:E; [|done].
  apply lookup_replicate in E as [-> _]. done.
Qed.

(** A strip of an RGBA image holds the values of the image itself. *)
Lemma pixel_strip_RGBA K im S p k x y :
  PIL.mode im = "RGBA" ->
  (0 < S)%Z -> (0 <= p < S)%Z ->
  (0 <= x < fst (PIL.size im) / S)%Z -> (0 <= y < snd (PIL.size im))%Z ->
  PIL.pixel (strip K im (fst (PIL.size im) / S) p) k x y
  = PIL.pixel im k (fst (PIL.size im) / S * p + x) y.
Proof.
  intros Hm HS Hp Hx Hy.
  pose proof (Z.mul_div_le (fst (PIL.size im)) S HS) as Hle.
  unfold strip, PIL.convert. cbn -[String.eqb]. rewrite Hm.
  replace ("RGBA" =? "RGBA") with true by reflexivity.
  unfold PIL.pixel. cbn -[String.eqb]. rewrite list_lookup_fmap.
  destruct (PIL.bands im !! k) as [b|]; simpl; [|done].
  unfold PIL.inside.
  replace (0 <=? x + fst (PIL.size im) / S * p)%Z with true
    by (symmetry; apply Z.leb_le; nia).
  replace (x + fst (PIL.size im) / S * p <? fst (PIL.size im))%Z with true
    by (symmetry; apply Z.ltb_lt; nia).
  replace (0 <=? y + 0)%Z with true by (symmetry; apply Z.leb_le; lia).
  replace (y + 0 <? snd (PIL.size im))%Z with true
    by (symmetry; apply Z.ltb_lt; lia).
  simpl. f_equal; lia.
Qed.

Lemma Shredder_apply_effect_odd K w image :
  (draw w mod 2 = 1)%Z ->
  apply_effect K Shredder image w = (Returned image, advance 1 w).
Proof.
  intros Hodd. simpl. unfold Shredder_apply_effect.
  rewrite (bind_run _ _ _ _ _ (randint_ok w)). by rewrite Hodd.
Qed.

Lemma py_div_int a b :
  b <> 0%Z -> py_div (PyInt a) (PyInt b) = inr (PyInt (a / b)).
Proof.
  intros Hb. unfold py_div. simpl.
  destruct (Qeq_bool (inject_Z b) 0) eqn:E; [|done].
  apply Qeq_bool_iff in E. unfold Qeq in E. simpl in E. lia.
Qed.

Lemma Shredder_apply_effect_even K w image im :
  images w !! image = Some im ->
  PIL.wf im ->
  (draw w mod 2 = 0)%Z ->
  let SHREDS := draw (advance 1 w) in
  let shred_width := (fst (PIL.size im) / SHREDS)%Z in
  exists sequence w' im',
    sequence ≡ₚ range 0 SHREDS /\
    apply_effect K Shredder (PImage image) w
    = (Returned (PImage (length (images w))), w') /\
    images w' !! length (images w) = Some im' /\
    images w' !! image = Some im /\
    PIL.mode im' = "RGBA" /\
    PIL.size im' = PIL.size im /\
    length (PIL.bands im') = 4 /\
    (forall i p k x y,
       sequence !! i = Some p ->
       (0 <= x < shred_width)%Z -> (0 <= y < snd (PIL.size im))%Z ->
       PIL.pixel im' k (shred_width * Z.of_nat i + x) y
       = PIL.pixel (strip K im shred_width p) k x y) /\
    (PIL.mode im = "RGBA" ->
     forall i p k x y,
       sequence !! i = Some p ->
       (0 <= x < shred_width)%Z -> (0 <= y < snd (PIL.size im))%Z ->
       PIL.pixel im' k (shred_width * Z.of_nat i + x) y
       = PIL.pixel im k (shred_width * p + x) y) /\
    (forall k X y,
       (forall i, i < length sequence ->
                  ~ (shred_width * Z.of_nat i <= X
                     < shred_width * Z.of_nat i + shred_width)%Z) ->
       PIL.pixel im' k X y = 0%Z).
Proof.
  intros Hi Hwf Heven SHREDS shred_width.
  assert (Hlt : image < length (images w)) by (eapply lookup_lt_Some; eauto).
  pose proof (draw_range (advance 1 w)) as HS. fold SHREDS in HS.
  set (w1 := allocated (PIL.new "RGBA" (PIL.size im)) (advance 1 (advance 1 w))).
  destruct (shuffle_ok (range 0 SHREDS) w1) as (sequence & Hsh & Hperm).
  set (w2 := advance (length (range 0 SHREDS) - 1) w1) in *.
  destruct (Shredder_loop_ok K image (length (images w)) im shred_width
              (enumerate sequence) ltac:(lia)
              (PIL.new "RGBA" (PIL.size im)) w2)
    as (w' & Hloop & Hs' & Hi' & _).
  { unfold w2, w1. simpl. heap_lookup. }
  { unfold w2, w1. simpl. heap_lookup. }
  destruct (pixel_shred_fold K im shred_width Hwf sequence 0
              (PIL.new "RGBA" (PIL.size im)) eq_refl eq_refl)
    as ((Hm & Hsz & Hlen) & Ha & Hb).
  exists sequence, w', (fold_left (shred_step K im shred_width)
                          (enumerate sequence) (PIL.new "RGBA" (PIL.size im))).
  split; [done|].
  split; [|split; [done|split; [done|split; [done|split; [done|split; [done|]]]]]].
  - simpl. unfold Shredder_apply_effect.
    eapply bind_intro; [apply randint_ok|]. rewrite Heven. simpl.
    eapply bind_intro; [apply randint_ok|].
    eapply bind_intro; [eapply getsize_ok; exact Hi|].
    eapply bind_intro; [apply Image_new_ok|].
    eapply bind_intro; [eapply getsize_ok; heap_lookup|].
    unfold int_div. fold SHREDS.
    replace (SHREDS =? 0)%Z with false by (symmetry; apply Z.eqb_neq; lia).
    eapply bind_intro; [reflexivity|].
    eapply bind_intro; [exact Hsh|].
    eapply bind_intro; [exact Hloop|].
    reflexivity.
  - split; [|split].
    + intros i p k x y Hp Hx Hy. exact (Ha i p k x y Hp Hx Hy).
    + intros Hrgba i p k x y Hp Hx Hy.
      etransitivity; [exact (Ha i p k x y Hp Hx Hy)|].
      assert (Hin : p ∈ range 0 SHREDS).
      { rewrite <- Hperm. eapply list_elem_of_lookup_2. eauto. }
      apply elem_of_range in Hin.
      apply pixel_strip_RGBA; try done; lia.
    + intros k X y Hout. rewrite Hb; [apply pixel_new|].
      left. intros i Hi2. apply Hout. lia.
Qed.

(** On an even draw the sequence of the strips is the shuffle of
    [0..SHREDS-1] that the numbers of the generator decide, the first two
    having gone to the two draws; the buffer returned is the blank RGBA
    buffer into which the strips have been pasted in that order. *)
Lemma Shredder_apply_effect_even_exact K w image im :
  images w !! image = Some im ->
  (draw w mod 2 = 0)%Z ->
  let SHREDS := draw (advance 1 w) in
  let shred_width := (fst (PIL.size im) / SHREDS)%Z in
  let sequence := shuffled (advance 2 w) (range 0 SHREDS) in
  exists w',
    apply_effect K Shredder (PImage image) w
    = (Returned (PImage (length (images w))), w') /\
    images w' !! length (images w)
    = Some (fold_left (shred_step K im shred_width) (enumerate sequence)
              (PIL.new "RGBA" (PIL.size im))) /\
    images w' !! image = Some im.
Proof.
  intros Hi Heven SHREDS shred_width sequence.
  assert (Hlt : image < length (images w)) by (eapply lookup_lt_Some; eauto).
  pose proof (draw_range (advance 1 w)) as HS. fold SHREDS in HS.
  set (w1 := allocated (PIL.new "RGBA" (PIL.size im)) (advance 1 (advance 1 w))).
  pose proof (shuffle_exact (range 0 SHREDS) w1) as Hsh.
  change (shuffled w1 (range 0 SHREDS)) with sequence in Hsh.
  set (w2 := advance (length (range 0 SHREDS) - 1) w1) in *.
  destruct (Shredder_loop_ok K image (length (images w)) im shred_width
              (enumerate sequence) ltac:(lia)
              (PIL.new "RGBA" (PIL.size im)) w2)
    as (w' & Hloop & Hs' & Hi' & _).
  { unfold w2, w1. simpl. heap_lookup. }
  { unfold w2, w1. simpl. heap_lookup. }
  exists w'. split; [|by split].
  simpl. unfold Shredder_apply_effect.
  eapply bind_intro; [apply randint_ok|]. rewrite Heven. simpl.
  eapply bind_intro; [apply randint_ok|].
  eapply bind_intro; [eapply getsize_ok; exact Hi|].
  eapply bind_intro; [apply Image_new_ok|].
  eapply bind_intro; [eapply getsize_ok; heap_lookup|].
  unfold int_div. fold SHREDS.
  replace (SHREDS =? 0)%Z with false by (symmetry; apply Z.eqb_neq; lia).
  eapply bind_intro; [reflexivity|].
  eapply bind_intro; [exact Hsh|].
  eapply bind_intro; [exact Hloop|].
  reflexivity.
Qed.

(** C3. One call of [Shredder.apply_effect] draws an integer of 1..10;
    if it is odd the buffer it was given is returned, unchanged; if it is
    even it draws the number of shreds S in 1..10, takes strips of width
    [width / S], the integer division of Pixelate's reduction computation
    (a truncation), shuffles [0..S-1] with the next S - 1 numbers of the
    generator, and returns a new RGBA buffer of the same size, blank but
    for the strips: the slot [i] holds the strip that the shuffled
    sequence, a permutation of [0..S-1], has at position [i]. *)
Theorem Shredder_spec K w image im :
  images w !! image = Some im ->
  PIL.wf im ->
  (1 <= draw w <= 10)%Z /\
  ((draw w mod 2 = 1)%Z ->
   apply_effect K Shredder (PImage image) w
   = (Returned (PImage image), advance 1 w)) /\
  ((draw w mod 2 = 0)%Z ->
   let SHREDS := draw (advance 1 w) in
   let shred_width := (fst (PIL.size im) / SHREDS)%Z in
   let sequence := shuffled (advance 2 w) (range 0 SHREDS) in
   (1 <= SHREDS <= 10)%Z /\
   (exists q, py_div (PyInt (fst (PIL.size im))) (PyInt SHREDS) = inr q /\
              py_int q = shred_width) /\
   ((0 <= fst (PIL.size im))%Z -> shred_width = (fst (PIL.size im) ÷ SHREDS)%Z) /\
   sequence ≡ₚ range 0 SHREDS /\
   exists w' im',
     apply_effect K Shredder (PImage image) w
     = (Returned (PImage (length (images w))), w') /\
     images w !! length (images w) = None /\
     images w' !! length (images w) = Some im' /\
     images w' !! image = Some im /\
     im' = fold_left (shred_step K im shred_width) (enumerate sequence)
             (PIL.new "RGBA" (PIL.size im)) /\
     PIL.mode im' = "RGBA" /\
     PIL.size im' = PIL.size im /\
     (forall i p k x y,
        sequence !! i = Some p ->
        (0 <= x < shred_width)%Z -> (0 <= y < snd (PIL.size im))%Z ->
        PIL.pixel im' k (shred_width * Z.of_nat i + x) y
        = PIL.pixel (strip K im shred_width p) k x y) /\
     (PIL.mode im = "RGBA" ->
      forall i p k x y,
        sequence !! i = Some p ->
        (0 <= x < shred_width)%Z -> (0 <= y < snd (PIL.size im))%Z ->
        PIL.pixel im' k (shred_width * Z.of_nat i + x) y
        = PIL.pixel im k (shred_width * p + x) y) /\
     (forall k X y,
        (forall i, i < length sequence ->
                   ~ (shred_width * Z.of_nat i <= X
                      < shred_width * Z.of_nat i + shred_width)%Z) ->
        PIL.pixel im' k X y = 0%Z)).
Proof.
  intros Hi Hwf.
  split; [apply draw_range|]. split; [apply Shredder_apply_effect_odd|].
  intros Heven SHREDS shred_width sequence.
  pose proof (draw_range (advance 1 w)) as HS. fold SHREDS in HS.
  assert (Hperm : sequence ≡ₚ range 0 SHREDS)
    by apply shuffled_from_Permutation.
  split; [done|]. split; [|split; [|split; [done|]]].
  - rewrite py_div_int by lia. by eexists.
  - intros Hw. unfold shred_width. symmetry. apply Z.quot_div_nonneg; lia.
  - destruct (Shredder_apply_effect_even_exact K w image im Hi Heven)
      as (w' & Hrun & Hl & Hi').
    fold SHREDS shred_width sequence in Hl.
    destruct (pixel_shred_fold K im shred_width Hwf sequence 0
                (PIL.new "RGBA" (PIL.size im)) eq_refl eq_refl)
      as ((Hm & Hsz & Hlen) & Ha & Hb).
    exists w', (fold_left (shred_step K im shred_width) (enumerate sequence)
                  (PIL.new "RGBA" (PIL.size im))).
    split; [done|]. split; [apply lookup_ge_None; lia|].
    split; [done|]. split; [done|]. split; [done|]. split; [done|].
    split; [done|]. split; [|split].
    + intros i p k x y Hp Hx Hy. exact (Ha i p k x y Hp Hx Hy).
    + intros Hrgba i p k x y Hp Hx Hy.
      etransitivity; [exact (Ha i p k x y Hp Hx Hy)|].
      assert (Hin : p ∈ range 0 SHREDS).
      { rewrite <- Hperm. eapply list_elem_of_lookup_2. eauto. }
      apply elem_of_range in Hin.
      apply pixel_strip_RGBA; try done; lia.
    + intros k X y Hout. rewrite Hb; [apply pixel_new|].
      left. intros i Hi2. apply Hout. lia.
Qed.

(** With the draws 2 (even), 2 (two shreds) and 0, the shuffle exchanges
    the two strips: the first column of the result is the third column of
    the input. *)
Lemma Shredder_spec_witness :
  apply_effect sample_kernels Shredder (PImage 1) (sample_world [] [0])
  = (Returned (PImage 1), advance 1 (sample_world [] [0])) /\
  shuffled (advance 2 (sample_world [] [1; 1; 0])) (range 0 2) = [1%Z; 0%Z] /\
  exists w' im',
    apply_effect sample_kernels Shredder (PImage 1) (sample_world [] [1; 1; 0])
    = (Returned (PImage 4), w') /\
    images w' !! 4 = Some im' /\
    PIL.mode im' = "RGBA" /\
    PIL.size im' = PIL.size sample_rgba /\
    PIL.pixel im' 0 0%Z 0%Z = PIL.pixel sample_rgba 0 2%Z 0%Z /\
    PIL.pixel im' 0 2%Z 0%Z = PIL.pixel sample_rgba 0 0%Z 0%Z.
Proof.
  split; [|split; [reflexivity|]].
  - exact (proj1 (proj2 (Shredder_spec sample_kernels (sample_world [] [0]) 1
                           sample_rgba eq_refl eq_refl)) eq_refl).
  - destruct (proj2 (proj2 (Shredder_spec sample_kernels
                              (sample_world [] [1; 1; 0]) 1
                              sample_rgba eq_refl eq_refl)) eq_refl)
      as (_ & _ & _ & _ & w' & im' & Hrun & _ & Hl & _ & _ & Hm & Hs
          & _ & Hrgba & _).
    exists w', im'.
    split; [exact Hrun|]. split; [exact Hl|].
    split; [exact Hm|]. split; [exact Hs|]. split.
    + exact (Hrgba eq_refl 0 1%Z 0 0%Z 0%Z eq_refl
               (conj (Z.le_refl 0) eq_refl) (conj (Z.le_refl 0) eq_refl)).
    + exact (Hrgba eq_refl 1 0%Z 0 0%Z 0%Z eq_refl
               (conj (Z.le_refl 0) eq_refl) (conj (Z.le_refl 0) eq_refl)).
Defined.

(** * The mode of the result *)

Lemma wf_convert K im m : PIL.wf im -> PIL.wf (PIL.convert K im m).
Proof.
  intros Hwf. unfold PIL.wf in *. unfold PIL.convert.
  destruct (String.eqb_spec m (PIL.mode im)) as [E|E]; [done|].
  destruct (String.eqb_spec (PIL.mode im) "L") as [E1|E1];
    destruct (String.eqb_spec m "LA") as [E2|E2];
    destruct (String.eqb_spec (PIL.mode im) "RGB") as [E3|E3];
    destruct (String.eqb_spec m "RGBA") as [E4|E4];
    cbn -[PIL.getmodebands]; subst;
    rewrite ?length_app, ?length_map, ?length_seq, ?Hwf, ?E1, ?E3;
    try reflexivity; congruence.
Qed.

Lemma supported_cases m :
  PIL.supported m = true ->
  str_index "A" m = None \/ PIL.has_alpha_layer m = true.
Proof.
  unfold PIL.supported. destruct (str_index "A" m); [by right|by left].
Qed.

Lemma has_alpha_layer_alpha_ready m :
  PIL.has_alpha_layer m = true -> PIL.alpha_ready m = true.
Proof. intros H. mode_cases H; reflexivity. Qed.

(** The modes of tiles are modes every operation of the effects is
    defined on. *)
Lemma plain_cases m :
  PIL.plain m = true ->
  PIL.supported m = true /\ PIL.blendable m = true /\ PIL.blurrable m = true.
Proof. intros H. mode_cases H; by repeat split. Qed.

Section KeepsMode.
Variable K : PIL.Kernels.

(** Putting the alpha of the original into a buffer that has the mode
    and the size of the original keeps the mode. *)
Lemma put_original_alpha_keeps_mode w image new io id :
  images w !! image = Some io ->
  images w !! new = Some id ->
  PIL.wf io -> PIL.wf id ->
  PIL.size io = PIL.size id ->
  PIL.mode id = PIL.mode io ->
  PIL.supported (PIL.mode io) = true ->
  exists w' im',
    put_original_alpha K (PImage image) (PImage new) w
    = (Returned (PImage new), w') /\
    images w' !! new = Some im' /\
    PIL.mode im' = PIL.mode io /\
    PIL.size im' = PIL.size io /\
    PIL.wf im'.
Proof.
  intros Hi Hn Hwo Hwd Hs Hm Hsup.
  destruct (supported_cases _ Hsup) as [Hno|Ha].
  - exists w, id. split; [|by rewrite Hs].
    by eapply put_original_alpha_no_alpha.
  - destruct (put_original_alpha_layer K w image new io id)
      as (w' & im' & Hrun & Him & _ & _ & _ & Hsz & _ & _ & _ & Hwf & Hmode);
      auto.
    { apply has_alpha_layer_alpha_ready. by rewrite Hm. }
    exists w', im'. split; [done|]. split.
    + rewrite Him. apply list_lookup_insert_eq.
      rewrite length_app. apply lookup_lt_Some in Hn. lia.
    + rewrite Hmode by (by rewrite Hm). by rewrite Hsz, Hs.
Qed.

Lemma Blackwhite_keeps_mode w image im :
  images w !! image = Some im ->
  PIL.wf im -> PIL.supported (PIL.mode im) = true ->
  exists r' w' im',
    apply_effect K Blackwhite (PImage image) w = (Returned (PImage r'), w') /\
    images w' !! r' = Some im' /\
    PIL.mode im' = PIL.mode im /\ PIL.size im' = PIL.size im /\ PIL.wf im'.
Proof.
  intros Hi Hwf Hsup.
  set (w2 := allocated (PIL.convert K (PIL.convert K im "1") (PIL.mode im))
               (allocated (PIL.convert K im "1") w)).
  destruct (put_original_alpha_keeps_mode w2 image (S (length (images w))) im
              (PIL.convert K (PIL.convert K im "1") (PIL.mode im)))
    as (w' & im' & Hrun & Hl & Hm & Hs & Hwf'); auto.
  { unfold w2. heap_lookup. }
  { unfold w2. heap_index. }
  { by do 2 apply wf_convert. }
  { by rewrite !size_convert. }
  { by rewrite mode_convert. }
  exists (S (length (images w))), w', im'. split; [|done].
  simpl. unfold Blackwhite_apply_effect.
  eapply bind_intro; [run|]. eapply bind_intro; [run|].
  eapply bind_intro; [run|].
  rewrite images_allocated, length_app. simpl.
  replace (length (images w) + 1) with (S (length (images w))) by lia.
  exact Hrun.
Qed.

Lemma Greyscale_keeps_mode w image im :
  images w !! image = Some im ->
  PIL.wf im ->
  exists r' w' im',
    apply_effect K Greyscale (PImage image) w = (Returned (PImage r'), w') /\
    images w' !! r' = Some im' /\
    PIL.mode im' = PIL.mode im /\ PIL.size im' = PIL.size im /\ PIL.wf im'.
Proof.
  intros Hi Hwf.
  do 3 eexists. split; [|split].
  - simpl. unfold Greyscale_apply_effect.
    eapply bind_intro; [run|]. eapply bind_intro; [run|]. run.
  - heap_index.
  - rewrite mode_convert, !size_convert. repeat split.
    by do 2 apply wf_convert.
Qed.

Lemma blend_keeps_mode (a b : PIL.Image) q :
  PIL.blendable (PIL.mode a) = true ->
  PIL.mode a = PIL.mode b -> PIL.size a = PIL.size b ->
  PIL.wf a -> PIL.wf b ->
  exists out, PIL.blend K a b q = inr out /\
              PIL.mode out = PIL.mode a /\ PIL.size out = PIL.size a /\
              PIL.wf out.
Proof.
  intros Hbl Hm Hs Hwa Hwb. unfold PIL.blend.
  destruct (blend_checks a b Hbl Hm Hs) as [-> ->].
  destruct (Qeq_bool q 0); [by exists a|].
  destruct (Qeq_bool q 1); [by exists b|].
  destruct (Qeq_bool (PIL.round_float K q) 0); [by exists a|].
  destruct (Qeq_bool (PIL.round_float K q) 1); [by exists b|].
  eexists. split; [reflexivity|]. simpl. repeat split.
  unfold PIL.wf in *. simpl. rewrite length_zip_with, Hwa, Hwb, Hm. lia.
Qed.

Lemma Desaturate_keeps_mode w image im factor :
  images w !! image = Some im ->
  PIL.wf im ->
  PIL.blendable (PIL.mode im) = true ->
  exists r' w' im',
    apply_effect K (Desaturate factor) (PImage image) w
    = (Returned (PImage r'), w') /\
    images w' !! r' = Some im' /\
    PIL.mode im' = PIL.mode im /\ PIL.size im' = PIL.size im /\ PIL.wf im'.
Proof.
  intros Hi Hwf Hbl.
  destruct (blend_keeps_mode im (desaturated K im) (num_val factor))
    as (out & Hb & Hm & Hs & Hwo).
  { done. }
  { unfold desaturated. by rewrite mode_convert. }
  { unfold desaturated. by rewrite !size_convert. }
  { done. }
  { unfold desaturated. by do 2 apply wf_convert. }
  do 3 eexists. split; [|split].
  - simpl. eapply Desaturate_apply_effect_run; eassumption.
  - heap_index.
  - done.
Qed.

Lemma py_div_ok z r :
  (1 <= num_val r)%Q -> exists q, py_div (PyInt z) r = inr q.
Proof.
  intros Hr. unfold py_div.
  destruct (Qeq_bool (num_val r) 0) eqn:E.
  - apply Qeq_bool_iff in E. rewrite E in Hr. by exfalso.
  - destruct r; eauto.
Qed.

Lemma Pixelate_keeps_mode w image im reduction :
  images w !! image = Some im ->
  PIL.wf im ->
  (1 <= num_val reduction)%Q ->
  (num_val reduction <= inject_Z (fst (PIL.size im)))%Q ->
  (num_val reduction <= inject_Z (snd (PIL.size im)))%Q ->
  exists r' w' im',
    apply_effect K (Pixelate reduction) (PImage image) w
    = (Returned (PImage r'), w') /\
    images w' !! r' = Some im' /\
    PIL.mode im' = PIL.mode im /\ PIL.size im' = PIL.size im /\ PIL.wf im'.
Proof.
  intros Hi Hwf Hr Hw Hh.
  destruct (py_div_ge_one (fst (PIL.size im)) reduction Hr Hw) as (qw & Hqw & Hw1).
  destruct (py_div_ge_one (snd (PIL.size im)) reduction Hr Hh) as (qh & Hqh & Hh1).
  destruct (resize_ok im (py_int qw, py_int qh) Hw1 Hh1)
    as (small & Hsmall & Hms & Hss & Hls).
  assert (H1w : (1 <= fst (PIL.size im))%Z).
  { rewrite Zle_Qle. eapply Qle_trans; [exact Hr|exact Hw]. }
  assert (H1h : (1 <= snd (PIL.size im))%Z).
  { rewrite Zle_Qle. eapply Qle_trans; [exact Hr|exact Hh]. }
  destruct (resize_ok small (PIL.size im) H1w H1h)
    as (out & Hout & Hmo & Hso & Hlo).
  exists (S (length (images w))), (allocated out (allocated small w)), out.
  split; [|split].
  - eapply (Pixelate_apply_effect_run K); eassumption.
  - heap_index.
  - split; [congruence|]. split; [done|].
    unfold PIL.wf in *. congruence.
Qed.

(** A blur, of a radius of 0 or of an image in a mode the blur is defined
    on, returns an image of the mode and the size of the image. *)
Lemma filter_blur_ok (im : PIL.Image) radius :
  PIL.blurrable (PIL.mode im) = true \/ (radius == 0)%Q ->
  exists out, PIL.filter_blur K im radius = inr out /\
              PIL.mode out = PIL.mode im /\ PIL.size out = PIL.size im /\
              length (PIL.bands out) = length (PIL.bands im).
Proof.
  intros H. unfold PIL.filter_blur.
  destruct (Qeq_bool radius 0) eqn:E; [by exists im|].
  destruct H as [->|H].
  - eexists. split; [reflexivity|]. simpl. by rewrite length_map.
  - apply Qeq_bool_iff in H. congruence.
Qed.

Lemma Blur_keeps_mode w image im radius :
  images w !! image = Some im ->
  PIL.wf im ->
  PIL.blurrable (PIL.mode im) = true ->
  exists r' w' im',
    apply_effect K (Blur radius) (PImage image) w = (Returned (PImage r'), w') /\
    images w' !! r' = Some im' /\
    PIL.mode im' = PIL.mode im /\ PIL.size im' = PIL.size im /\ PIL.wf im'.
Proof.
  intros Hi Hwf Hbl.
  destruct (filter_blur_ok im (num_val radius) (or_introl Hbl))
    as (out & Hout & Hm & Hs & Hl).
  exists (length (images w)), (allocated out w), out. split; [|split].
  - simpl. unfold Blur_apply_effect. by eapply Image_filter_ok.
  - heap_index.
  - split; [done|]. split; [done|]. unfold PIL.wf in *. congruence.
Qed.

End KeepsMode.

Lemma returns_bind {A B} (m : M A) (k : A -> M B) w Q :
  returns m w (fun a w1 => returns (k a) w1 Q) -> returns (bind m k) w Q.
Proof.
  intros (a & w1 & Hm & b & w2 & Hk & HQ).
  exists b, w2. split; [|done]. by rewrite (bind_run _ _ _ _ _ Hm).
Qed.

Lemma returns_exact {A} (m : M A) w a w' (Q : A -> World -> Prop) :
  m w = (Returned a, w') -> Q a w' -> returns m w Q.
Proof. intros Hm HQ. by exists a, w'. Qed.

(** One statement of a method body: it returns, and the rest of the body
    is run from the state it leaves. *)
Ltac returns_step :=
  eapply returns_bind; eapply returns_exact; [run|].

Lemma merge_CMYK (a b c d : PIL.Image) :
  PIL.mode a = "L" -> PIL.mode b = "L" -> PIL.mode c = "L" -> PIL.mode d = "L" ->
  PIL.size b = PIL.size a -> PIL.size c = PIL.size a -> PIL.size d = PIL.size a ->
  PIL.merge "CMYK" [a; b; c; d]
  = inr {| PIL.mode := "CMYK"; PIL.size := PIL.size a;
           PIL.bands := PIL.bands a ++ PIL.bands b ++ PIL.bands c ++ PIL.bands d |}.
Proof.
  intros Ha Hb Hc Hd Hsb Hsc Hsd. unfold PIL.merge, PIL.width, PIL.height.
  cbn -[String.eqb]. rewrite Ha, Hb, Hc, Hd, Hsb, Hsc, Hsd.
  replace ("L" =? "L") with true by reflexivity.
  rewrite !Z.eqb_refl. cbn. by rewrite app_nil_r.
Qed.

Section HalftoneFacts.
Variable K : PIL.Kernels.

Lemma Halftone_keeps_mode w image im :
  images w !! image = Some im ->
  PIL.wf im -> PIL.supported (PIL.mode im) = true ->
  exists r' w' im',
    apply_effect K Halftone (PImage image) w = (Returned (PImage r'), w') /\
    images w' !! r' = Some im' /\
    PIL.mode im' = PIL.mode im /\ PIL.size im' = PIL.size im /\ PIL.wf im'.
Proof.
  intros Hi Hwf Hsup.
  assert (Hlt : image < length (images w)) by (eapply lookup_lt_Some; eauto).
  pose proof (wf_convert K im "CMYK" Hwf) as Hwc.
  pose proof (mode_convert K im "CMYK") as Hmc.
  pose proof (size_convert K im "CMYK") as Hsc.
  destruct (PIL.convert K im "CMYK") as [mc sc bc] eqn:Hcv.
  simpl in Hmc, Hsc. subst mc sc. unfold PIL.wf in Hwc.
  list_of_length Hwc.
  enough (returns (apply_effect K Halftone (PImage image)) w
            (fun v w' => exists r' im',
                 v = PImage r' /\ images w' !! r' = Some im' /\
                 PIL.mode im' = PIL.mode im /\ PIL.size im' = PIL.size im /\
                 PIL.wf im')) as (v & w' & Hrun & r' & im' & -> & H).
  { by exists r', w', im'. }
  simpl. unfold Halftone_apply_effect.
  eapply returns_bind, returns_exact; [run|]. rewrite Hcv.
  eapply returns_bind, returns_exact.
  { unfold Image_split. run. }
  eapply returns_bind, returns_exact; [run|].
  eapply returns_bind, returns_exact.
  { unfold Image_merge. eapply bind_intro; [run|].
    erewrite merge_CMYK;
      [run|rewrite ?mode_convert, ?size_convert; reflexivity..]. }
  returns_step. returns_step.
  match goal with
  | |- returns (put_original_alpha _ _ (PImage ?n)) (allocated ?X ?W) _ =>
      destruct (put_original_alpha_keeps_mode K (allocated X W) image n im X)
      as (w' & im' & Hrun & Hl & Hm & Hs & Hwf')
  end.
  { heap_lookup. }
  { heap_index. }
  { done. }
  { apply wf_convert. reflexivity. }
  { by rewrite size_convert. }
  { by rewrite mode_convert. }
  { done. }
  do 2 eexists. split; [exact Hrun|].
  do 2 eexists. split; [reflexivity|].
  split; [exact Hl|]. split; [exact Hm|]. split; [exact Hs|exact Hwf'].
Qed.

End HalftoneFacts.

Lemma keeps_mode_ok K e w image im :
  keeps_mode e (PIL.size im) ->
  images w !! image = Some im ->
  PIL.wf im -> PIL.plain (PIL.mode im) = true ->
  exists r' w' im',
    apply_effect K e (PImage image) w = (Returned (PImage r'), w') /\
    images w' !! r' = Some im' /\
    PIL.mode im' = PIL.mode im /\ PIL.size im' = PIL.size im /\ PIL.wf im'.
Proof.
  intros He Hi Hwf Hplain.
  destruct (plain_cases _ Hplain) as (Hsup & Hbl & Hblur).
  destruct e; simpl in He; try done.
  - by apply Blackwhite_keeps_mode.
  - by apply Greyscale_keeps_mode.
  - by apply Desaturate_keeps_mode.
  - destruct He as (H1 & Hw & Hh). by apply Pixelate_keeps_mode.
  - by apply Halftone_keeps_mode.
  - by apply Blur_keeps_mode.
Qed.






(** * Further properties of the module *)

(** ** The base class *)

(** X1. [apply] of the base class never returns: its [apply_effect] raises
    NotImplementedError, unless [image()] has raised an exception that
    [apply] does not catch, which is then the one that leaves; the state is
    untouched. *)
Theorem PixelEffect_base_apply_raises v w :
  PixelEffect_apply PixelEffect_apply_effect v w
  = (Raised (match v with
             | PFailing e =>
                 if is_AttributeError_or_TypeError e then NotImplementedError
                 else e
             | _ => NotImplementedError
             end), w).
Proof.
  destruct v as [r| |v'|e]; try reflexivity.
  destruct e; reflexivity.
Qed.

(** ** Values that are not images *)

Lemma load_non_image v w :
  (forall r, v <> PImage r) -> load v w = (Raised AttributeError, w).
Proof. intros H. destruct v; try reflexivity. by destruct (H r). Qed.

Lemma apply_effect_non_image K e v w :
  e <> Shredder -> (forall r, v <> PImage r) ->
  apply_effect K e v w = (Raised AttributeError, w).
Proof.
  intros He Hv. pose proof (load_non_image v w Hv) as Hl.
  destruct e; try done; simpl;
    unfold Blackwhite_apply_effect, Greyscale_apply_effect,
      Desaturate_apply_effect, Pixelate_apply_effect, Halftone_apply_effect,
      Blur_apply_effect, Solarize_apply_effect,
      Image_convert, Image_filter, getsize.
  all: repeat (erewrite bind_raise; [reflexivity|]); exact Hl.
Qed.

(** X2. The value that [apply] passes on when [image()] is missing or has
    failed with a caught exception is not an image, and every effect but
    Shredder then fails on its first access to the image with
    AttributeError, the state being untouched: the failure that [apply]
    swallowed comes back from [apply_effect]. *)
Theorem apply_of_non_image_raises K e v w :
  e <> Shredder ->
  (forall r, v <> PImage r) ->
  (forall rendered, v <> PVerbatim rendered) ->
  PixelEffect_apply (apply_effect K e) v w
  = (Raised (match v with
             | PFailing x => if is_AttributeError_or_TypeError x
                             then AttributeError else x
             | _ => AttributeError
             end), w).
Proof.
  intros He Hv Hr.
  destruct v as [r| |v'|x].
  - by destruct (Hv r).
  - unfold PixelEffect_apply.
    erewrite bind_run by (by eapply try_except_caught).
    by apply apply_effect_non_image.
  - by destruct (Hr v').
  - unfold PixelEffect_apply.
    destruct (is_AttributeError_or_TypeError x) eqn:Hx.
    + erewrite bind_run by (by eapply try_except_caught).
      by apply apply_effect_non_image.
    + erewrite bind_raise; [reflexivity|].
      by eapply try_except_escapes.
Qed.

Lemma apply_of_non_image_raises_witness :
  PixelEffect_apply (apply_effect sample_kernels Blackwhite) (PFailing TypeError)
    (sample_world [] [])
  = (Raised AttributeError, sample_world [] []).
Proof.
  apply (apply_of_non_image_raises sample_kernels Blackwhite (PFailing TypeError));
    discriminate.
Defined.

(** ** The image objects an effect leaves alone *)

Section Frames.
Variable n : nat.

Lemma frames_weaken {A} (m : M A) (Q Q' : A -> Prop) :
  frames n m Q -> (forall a, Q a -> Q' a) -> frames n m Q'.
Proof.
  intros Hm HQ w Hn. destruct (Hm w Hn) as (H1 & H2 & H3).
  split; [done|]. split; [done|]. intros a Ha. by apply HQ, H3.
Qed.

Lemma frames_ret {A} (a : A) (Q : A -> Prop) : Q a -> frames n (ret a) Q.
Proof. intros HQ w Hn. simpl. split; [done|]. split; [done|]. by intros ? [= <-]. Qed.

Lemma frames_raise {A} e (Q : A -> Prop) : frames n (raise e) Q.
Proof. intros w Hn. simpl. split; [done|]. split; [done|]. by intros ? [=]. Qed.

Lemma frames_bind {A B} (m : M A) (k : A -> M B) Q R :
  frames n m Q -> (forall a, Q a -> frames n (k a) R) -> frames n (bind m k) R.
Proof.
  intros Hm Hk w Hn. destruct (Hm w Hn) as (H1 & H2 & H3).
  unfold bind. destruct (m w) as [[a|e] w1]; simpl in *.
  - destruct (Hk a (H3 a eq_refl) w1 H1) as (K1 & K2 & K3).
    split; [done|]. split; [by rewrite K2|done].
  - split; [done|]. split; [done|]. by intros ? [=].
Qed.

Lemma frames_bind_any {A B} (m : M A) (k : A -> M B) R :
  frames n m (fun _ => True) -> (forall a, frames n (k a) R) ->
  frames n (bind m k) R.
Proof. intros Hm Hk. eapply frames_bind; [exact Hm|]. intros a _. apply Hk. Qed.

Lemma frames_try_except {A} (m : M A) caught handler (Q : A -> Prop) :
  frames n m Q -> frames n handler Q -> frames n (try_except m caught handler) Q.
Proof.
  intros Hm Hh w Hn. destruct (Hm w Hn) as (H1 & H2 & H3).
  unfold try_except. destruct (m w) as [[a|e] w1]; simpl in *.
  - by repeat split.
  - destruct (caught e); simpl.
    + destruct (Hh w1 H1) as (K1 & K2 & K3).
      split; [done|]. split; [by rewrite K2|done].
    + split; [done|]. split; [done|]. by intros ? [=].
Qed.

Lemma frames_lift {A} (r : exn + A) : frames n (lift r) (fun _ => True).
Proof. destruct r; [apply frames_raise|by apply frames_ret]. Qed.

Lemma frames_lift_opt {A} (o : option A) e : frames n (lift_opt o e) (fun _ => True).
Proof. destruct o; [by apply frames_ret|apply frames_raise]. Qed.

Lemma frames_load v : frames n (load v) (fun _ => True).
Proof.
  intros w Hn. destruct v; try (by repeat split).
  unfold load. by destruct (images w !! r).
Qed.

(** A new object lies beyond the first [n]. *)
Lemma frames_alloc im : frames n (alloc im) (fresh n).
Proof.
  intros w Hn. unfold alloc. simpl. rewrite length_app.
  split; [lia|]. split; [by rewrite take_app_le|].
  intros a [= <-] d [= <-]. done.
Qed.

(** Overwriting an object that lies beyond the first [n]. *)
Lemma frames_store v im : fresh n v -> frames n (store v im) (fun _ => True).
Proof.
  intros Hv w Hn. destruct v; try (by repeat split).
  unfold store. simpl. rewrite length_insert.
  split; [done|]. split; [|done].
  apply take_insert_ge. by apply Hv.
Qed.

Lemma frames_randbelow k : frames n (randbelow k) (fun _ => True).
Proof. intros w Hn. by repeat split. Qed.

Lemma frames_mapM {A B} (g : A -> M B) l :
  (forall a, frames n (g a) (fun _ => True)) ->
  frames n (mapM g l) (fun _ => True).
Proof.
  intros Hg. induction l as [|a l IH]; simpl.
  - by apply frames_ret.
  - apply frames_bind_any; [apply Hg|]. intros b.
    apply frames_bind_any; [apply IH|]. intros bs. by apply frames_ret.
Qed.

Lemma frames_for_each {A} (body : A -> M unit) l :
  (forall a, frames n (body a) (fun _ => True)) ->
  frames n (for_each l body) (fun _ => True).
Proof.
  intros Hb. induction l as [|a l IH]; simpl.
  - by apply frames_ret.
  - apply frames_bind_any; [apply Hb|]. intros _. apply IH.
Qed.

Lemma frames_shuffle_loop {A} i (x : list A) :
  frames n (shuffle_loop i x) (fun _ => True).
Proof.
  revert x. induction i as [|i IH]; intros x; simpl.
  - by apply frames_ret.
  - apply frames_bind_any; [apply frames_randbelow|]. intros j. apply IH.
Qed.

End Frames.

(** The steps of a method body, one after the other; the objects made on
    the way are known to lie beyond the first [n]. *)
Ltac frames_with known :=
  repeat first
    [ known
    | apply frames_raise
    | apply frames_ret; exact I
    | apply frames_lift
    | apply frames_lift_opt
    | apply frames_load
    | apply frames_randbelow
    | apply frames_shuffle_loop
    | apply frames_store; assumption
    | eapply frames_weaken; [apply frames_alloc|done]
    | eapply frames_bind; [apply frames_alloc|intros ? ?]
    | apply frames_bind_any
    | apply frames_try_except
    | apply frames_mapM
    | apply frames_for_each
    | match goal with
      | |- forall _, _ => intro
      | |- frames _ (let _ := _ in _) _ => cbv zeta
      | |- frames _ (if ?b then _ else _) _ => destruct b
      | |- frames _ (match ?x with _ => _ end) _ => destruct x
      end ].

Section FramesOfEffects.
Variable K : PIL.Kernels.
Variable n : nat.

Lemma frames_Image_convert self m : frames n (Image_convert K self m) (fresh n).
Proof.
  unfold Image_convert. apply frames_bind_any; [apply frames_load|].
  intros im. apply frames_alloc.
Qed.

Lemma frames_Image_new m sz : frames n (Image_new m sz) (fresh n).
Proof. apply frames_alloc. Qed.

Lemma frames_Image_merge m bands : frames n (Image_merge m bands) (fresh n).
Proof.
  unfold Image_merge.
  apply frames_bind_any; [apply frames_mapM; intros; apply frames_load|].
  intros ims. apply frames_bind_any; [apply frames_lift|].
  intros im. apply frames_alloc.
Qed.

Lemma frames_Image_putalpha self alpha :
  fresh n self -> frames n (Image_putalpha K self alpha) (fun _ => True).
Proof. intros Hs. unfold Image_putalpha. frames_with fail. Qed.

Lemma frames_put_original_alpha original new_image :
  fresh n new_image ->
  frames n (put_original_alpha K original new_image) (fun _ => True).
Proof.
  intros Hn. unfold put_original_alpha, getmode, Image_split.
  frames_with ltac:(apply frames_Image_putalpha; assumption).
Qed.

Lemma frames_apply_effect e image :
  frames n (apply_effect K e image) (fun _ => True).
Proof.
  destruct e; simpl.
  - unfold Blackwhite_apply_effect, getmode.
    eapply frames_bind; [apply frames_Image_convert|]. intros bw Hbw.
    apply frames_bind_any; [frames_with fail|]. intros mode.
    eapply frames_bind; [apply frames_Image_convert|]. intros new_image Hnew.
    by apply frames_put_original_alpha.
  - unfold Greyscale_apply_effect, getmode, Image_convert. frames_with fail.
  - unfold Desaturate_apply_effect, getmode, Image_convert, Image_blend.
    frames_with fail.
  - unfold Pixelate_apply_effect, getsize, Image_resize. frames_with fail.
  - unfold Halftone_apply_effect, getmode, Image_split.
    apply frames_bind_any.
    { eapply frames_weaken; [apply frames_Image_convert|done]. }
    intros converted. apply frames_bind_any; [frames_with fail|].
    intros channels. apply frames_bind_any.
    { apply frames_mapM. intros band. unfold Image_convert. frames_with fail. }
    intros cmyk. apply frames_bind_any.
    { eapply frames_weaken; [apply frames_Image_merge|done]. }
    intros merged. apply frames_bind_any; [frames_with fail|].
    intros mode.
    eapply frames_bind; [apply frames_Image_convert|]. intros new_image Hnew.
    by apply frames_put_original_alpha.
  - unfold Blur_apply_effect, Image_filter. frames_with fail.
  - unfold Solarize_apply_effect, ImageOps_solarize, Image_convert.
    frames_with fail.
  - unfold Shredder_apply_effect, randint, getsize, int_div, shuffle.
    apply frames_bind_any; [frames_with fail|]. intros d.
    destruct (d mod 2 =? 0)%Z; [|by apply frames_ret].
    apply frames_bind_any; [frames_with fail|]. intros SHREDS.
    apply frames_bind_any; [frames_with fail|]. intros size.
    eapply frames_bind; [apply frames_Image_new|]. intros shredded Hs.
    unfold Image_crop, Image_paste. frames_with fail.
Qed.

End FramesOfEffects.

Lemma frames_prefix {A} (m : M A) Q w :
  frames (length (images w)) m Q -> images w `prefix_of` images (snd (m w)).
Proof.
  intros H. destruct (H w (le_n _)) as (_ & H2 & _).
  rewrite firstn_all in H2.
  exists (drop (length (images w)) (images (snd (m w)))).
  transitivity (take (length (images w)) (images (snd (m w)))
                ++ drop (length (images w)) (images (snd (m w)))).
  - by rewrite take_drop.
  - by rewrite H2.
Qed.

(** X3. No effect changes an image object that existed before the call,
    its input included, whether it returns or raises: the objects it
    writes to (the buffer that receives the alpha channel, the buffer the
    strips are pasted into) are objects it has made itself.  The list
    objects are left alone too. *)
Theorem apply_effect_frame K e image w :
  images w `prefix_of` images (snd (apply_effect K e image w)) /\
  lists (snd (apply_effect K e image w)) = lists w.
Proof.
  split.
  - eapply frames_prefix, frames_apply_effect.
  - eapply lists_indep_lists; [apply lists_indep_apply_effect|].
    apply surjective_pairing.
Qed.

Lemma frames_spec_attempt K n name image :
  frames n (Multiball_spec_attempt K name image) (fun _ => True).
Proof.
  unfold Multiball_spec_attempt, all_getitem, randint.
  apply frames_bind_any; [apply frames_lift_opt|]. intros cls.
  apply frames_bind_any; [destruct cls; frames_with fail|]. intros e.
  frames_with ltac:(apply frames_apply_effect).
Qed.

Lemma frames_spec_each K n names image :
  frames n (Multiball_spec_each K names image) (fun _ => True).
Proof.
  revert image. induction names as [|name names IH]; intros image; simpl.
  - by apply frames_ret.
  - apply frames_bind_any; [apply frames_spec_attempt|apply IH].
Qed.

(** X4. A call of [Multiball.apply_effect], whether it returns or raises,
    changes no image object that existed before, and no list object but
    the list of names of the instance. *)
Theorem Multiball_apply_effect_frame K self image w :
  images w `prefix_of` images (snd (Multiball_apply_effect K self image w)) /\
  length (lists (snd (Multiball_apply_effect K self image w))) = length (lists w) /\
  forall s, s <> effects self ->
    lists (snd (Multiball_apply_effect K self image w)) !! s = lists w !! s.
Proof.
  destruct self as [s0]. simpl.
  destruct (lists w !! s0) as [names|] eqn:Hl.
  - destruct (Multiball_apply_effect_spec K s0 names image w Hl)
      as (rest & _ & Hrun & _).
    rewrite Hrun. simpl.
    assert (Hlists : lists (snd (Multiball_spec K names image w)) = lists w).
    { eapply lists_indep_lists; [apply lists_indep_spec_each|].
      apply surjective_pairing. }
    rewrite Hlists. split; [|split].
    + eapply frames_prefix, frames_spec_each.
    + apply length_insert.
    + intros s Hs. by apply list_lookup_insert_ne.
  - unfold Multiball_apply_effect, list_len.
    erewrite bind_raise; [|simpl; rewrite Hl; reflexivity].
    simpl. by repeat split.
Qed.

(** ** The effects that draw no random number *)

Lemma no_draw_ret {A} (a : A) : no_draw (ret a).
Proof. by intros w. Qed.

Lemma no_draw_raise {A} e : no_draw (@raise A e).
Proof. by intros w. Qed.

Lemma no_draw_bind {A B} (m : M A) (k : A -> M B) :
  no_draw m -> (forall a, no_draw (k a)) -> no_draw (bind m k).
Proof.
  intros Hm Hk w. destruct (Hm w) as [H1 H2].
  unfold bind. destruct (m w) as [[a|e] w1]; simpl in *; [|done].
  destruct (Hk a w1) as [K1 K2]. split; congruence.
Qed.

Lemma no_draw_try_except {A} (m : M A) caught handler :
  no_draw m -> no_draw handler -> no_draw (try_except m caught handler).
Proof.
  intros Hm Hh w. destruct (Hm w) as [H1 H2].
  unfold try_except. destruct (m w) as [[a|e] w1]; simpl in *; [done|].
  destruct (caught e); [|done].
  destruct (Hh w1) as [K1 K2]. split; congruence.
Qed.

Lemma no_draw_lift {A} (r : exn + A) : no_draw (lift r).
Proof. by destruct r. Qed.

Lemma no_draw_lift_opt {A} (o : option A) e : no_draw (lift_opt o e).
Proof. by destruct o. Qed.

Lemma no_draw_load v : no_draw (load v).
Proof. intros w. destruct v; try done. unfold load. by destruct (images w !! r). Qed.

Lemma no_draw_alloc im : no_draw (alloc im).
Proof. by intros w. Qed.

Lemma no_draw_store v im : no_draw (store v im).
Proof. intros w. by destruct v. Qed.

Lemma no_draw_mapM {A B} (g : A -> M B) l :
  (forall a, no_draw (g a)) -> no_draw (mapM g l).
Proof.
  intros Hg. induction l as [|a l IH]; simpl.
  - apply no_draw_ret.
  - apply no_draw_bind; [apply Hg|]. intros b.
    apply no_draw_bind; [apply IH|]. intros bs. apply no_draw_ret.
Qed.

Ltac no_draw_with known :=
  repeat first
    [ known
    | apply no_draw_ret
    | apply no_draw_raise
    | apply no_draw_lift
    | apply no_draw_lift_opt
    | apply no_draw_load
    | apply no_draw_alloc
    | apply no_draw_store
    | apply no_draw_bind
    | apply no_draw_try_except
    | apply no_draw_mapM
    | match goal with
      | |- forall _, _ => intro
      | |- no_draw (let _ := _ in _) => cbv zeta
      | |- no_draw (if ?b then _ else _) => destruct b
      | |- no_draw (match ?x with _ => _ end) => destruct x
      end ].

Lemma no_draw_put_original_alpha K o n : no_draw (put_original_alpha K o n).
Proof.
  unfold put_original_alpha, getmode, Image_split, Image_putalpha.
  no_draw_with fail.
Qed.

(** X5. Shredder is the one effect that draws random numbers: a call of
    [apply_effect] of any other effect, whether it returns or raises,
    leaves the random generator where it was. *)
Theorem only_Shredder_draws K e image w :
  e <> Shredder ->
  random (snd (apply_effect K e image w)) = random w /\
  consumed (snd (apply_effect K e image w)) = consumed w.
Proof.
  intros He.
  enough (no_draw (apply_effect K e image)) as H by apply H.
  destruct e; try done; simpl;
    unfold Blackwhite_apply_effect, Greyscale_apply_effect,
      Desaturate_apply_effect, Pixelate_apply_effect, Halftone_apply_effect,
      Blur_apply_effect, Solarize_apply_effect,
      Image_convert, Image_split, Image_merge, Image_resize, Image_filter,
      Image_blend, ImageOps_solarize, getmode, getsize.
  all: no_draw_with ltac:(apply no_draw_put_original_alpha).
Qed.

Lemma only_Shredder_draws_witness :
  consumed (snd (apply_effect sample_kernels Halftone (PImage 1)
                   (sample_world [] [3; 1])))
  = 0.
Proof.
  apply (only_Shredder_draws sample_kernels Halftone (PImage 1)
           (sample_world [] [3; 1])).
  discriminate.
Defined.

(** ** The registry *)

Lemma all_absent name :
  name ∉ constructible_names -> name <> "multiball" -> all !! name = None.
Proof.
  intros Hn Hm. unfold all. apply not_elem_of_list_to_map_1. simpl.
  intros H. apply Hn. unfold constructible_names.
  repeat (apply elem_of_cons in H as [->|H]; [set_solver|]).
  by apply elem_of_nil in H.
Qed.

Lemma constructible_ok name :
  name ∈ constructible_names ->
  exists cls e, all !! name = Some cls /\
                (forall w, call_class cls w = (Returned e, w)) /\
                forall size, (5 <= fst size)%Z -> (5 <= snd size)%Z -> fits e size.
Proof.
  intros H. unfold constructible_names in H.
  repeat (apply elem_of_cons in H as [->|H]); [..|by apply elem_of_nil in H].
  - exists class_Blackwhite, Blackwhite. by repeat split.
  - exists class_Greyscale, Greyscale. by repeat split.
  - exists class_Desaturate, (Desaturate_init None). by repeat split.
  - exists class_Pixelate, (Pixelate_init None).
    split; [done|]. split; [done|]. intros size Hw Hh. simpl.
    split; [done|]. change 5%Q with (inject_Z 5).
    by rewrite <- !Zle_Qle.
  - exists class_Halftone, Halftone. by repeat split.
  - exists class_Blur, (Blur_init None). by repeat split.
  - exists class_Solarize, (Solarize_init None). by repeat split.
  - exists class_Shredder, Shredder. by repeat split.
Qed.

(** X6. Looking a name up in the registry and calling the class without
    arguments gives an instance exactly for the eight names other than
    [multiball]; for [multiball] the call raises TypeError (its constructor
    requires the list of effects), for any other name the lookup raises
    KeyError with that name; the state is untouched in all cases. *)
Theorem construct_spec name w :
  (name ∈ constructible_names <->
   exists e, construct name w = (Returned e, w)) /\
  (name = "multiball" -> construct name w = (Raised TypeError, w)) /\
  (name ∉ constructible_names -> name <> "multiball" ->
   construct name w = (Raised (KeyError name), w)).
Proof.
  assert (H3 : name ∉ constructible_names -> name <> "multiball" ->
               construct name w = (Raised (KeyError name), w)).
  { intros Hn Hm. unfold construct, all_getitem.
    by rewrite (all_absent name Hn Hm). }
  split; [split|split; [by intros ->|done]].
  - intros H. destruct (constructible_ok name H) as (cls & e & Hall & Hcall & _).
    exists e. unfold construct, all_getitem. rewrite Hall.
    erewrite bind_run by reflexivity. apply Hcall.
  - intros [e He].
    destruct (decide (name ∈ constructible_names)) as [|Hn]; [done|].
    destruct (decide (name = "multiball")) as [->|Hm]; [discriminate He|].
    rewrite (H3 Hn Hm) in He. discriminate He.
Qed.

Lemma construct_spec_witness :
  construct "multiball" (sample_world [] []) = (Raised TypeError, sample_world [] []) /\
  construct "sepia" (sample_world [] [])
  = (Raised (KeyError "sepia"), sample_world [] []).
Proof.
  destruct (construct_spec "multiball" (sample_world [] [])) as (_ & H2 & _).
  destruct (construct_spec "sepia" (sample_world [] [])) as (_ & _ & H3).
  split; [exact (H2 eq_refl)|].
  apply H3; [|discriminate].
  unfold constructible_names. intros H.
  repeat (apply elem_of_cons in H as [H|H]; [discriminate H|]).
  by apply elem_of_nil in H.
Defined.

(** ** The size of the result *)

Lemma effect_ok K e w image im :
  fits e (PIL.size im) ->
  images w !! image = Some im ->
  PIL.wf im -> PIL.plain (PIL.mode im) = true ->
  exists r' w' im',
    apply_effect K e (PImage image) w = (Returned (PImage r'), w') /\
    images w' !! r' = Some im' /\
    PIL.size im' = PIL.size im /\ PIL.wf im' /\
    PIL.plain (PIL.mode im') = true.
Proof.
  intros He Hi Hwf Hplain.
  assert (Hkeep : keeps_mode e (PIL.size im) ->
            exists r' w' im',
              apply_effect K e (PImage image) w = (Returned (PImage r'), w') /\
              images w' !! r' = Some im' /\
              PIL.size im' = PIL.size im /\ PIL.wf im' /\
              PIL.plain (PIL.mode im') = true).
  { intros Hk.
    destruct (keeps_mode_ok K e w image im Hk Hi Hwf Hplain)
      as (r' & w' & im' & Hrun & Hl & Hm & Hs & Hwf').
    exists r', w', im'. by rewrite Hm. }
  destruct e; try (by apply Hkeep).
  - do 3 eexists. split; [by apply Solarize_apply_effect_run|].
    split; [heap_index|]. simpl. split; [done|]. split; [|done].
    unfold PIL.wf. simpl. rewrite length_map.
    pose proof (wf_convert K im "RGB" Hwf) as Hc. unfold PIL.wf in Hc.
    by rewrite Hc, mode_convert.
  - destruct (draw w mod 2 =? 0)%Z eqn:E.
    + apply Z.eqb_eq in E.
      destruct (Shredder_apply_effect_even K w image im Hi Hwf E)
        as (sequence & w' & im' & _ & Hrun & Hl & _ & Hm & Hs & Hlen & _).
      exists (length (images w)), w', im'.
      split; [done|]. split; [done|]. split; [done|].
      rewrite Hm. split; [|done]. unfold PIL.wf. by rewrite Hm, Hlen.
    + apply Z.eqb_neq in E.
      exists image, (advance 1 w), im. split; [|done].
      apply Shredder_apply_effect_odd.
      pose proof (Z.mod_pos_bound (draw w) 2). lia.
Qed.

(** X7. On a well-formed image in one of the modes L, LA, RGB, RGBA every
    effect returns, without an exception, an image object of the size of
    its input (Pixelate holding a reduction of at least 1 that exceeds
    neither side), Solarize and Shredder included, whose results differ
    from the input in mode. *)
Theorem apply_effect_keeps_size K e w image im :
  fits e (PIL.size im) ->
  images w !! image = Some im ->
  PIL.wf im -> PIL.plain (PIL.mode im) = true ->
  exists r' w' im',
    apply_effect K e (PImage image) w = (Returned (PImage r'), w') /\
    images w' !! r' = Some im' /\
    PIL.size im' = PIL.size im /\ PIL.wf im'.
Proof.
  intros He Hi Hwf Hplain.
  destruct (effect_ok K e w image im He Hi Hwf Hplain)
    as (r' & w' & im' & Hrun & Hl & Hs & Hwf' & _).
  by exists r', w', im'.
Qed.

Lemma apply_effect_keeps_size_witness :
  exists r' w' im',
    apply_effect sample_kernels (Pixelate_init (Some (PyInt 2))) (PImage 1)
      (sample_world [] [])
    = (Returned (PImage r'), w') /\
    images w' !! r' = Some im' /\
    PIL.size im' = (4, 2)%Z /\ PIL.wf im'.
Proof.
  apply (apply_effect_keeps_size sample_kernels (Pixelate_init (Some (PyInt 2)))
           (sample_world [] []) 1 sample_rgba);
    [|reflexivity|reflexivity|reflexivity].
  simpl. repeat split; discriminate.
Defined.

Lemma Multiball_spec_each_ok K names :
  Forall (fun name => name ∈ constructible_names) names ->
  forall w image im,
    images w !! image = Some im ->
    PIL.wf im -> PIL.plain (PIL.mode im) = true ->
    (5 <= fst (PIL.size im))%Z -> (5 <= snd (PIL.size im))%Z ->
    exists r' w' im',
      Multiball_spec_each K names (PImage image) w = (Returned (PImage r'), w') /\
      images w' !! r' = Some im' /\
      PIL.size im' = PIL.size im /\ PIL.wf im'.
Proof.
  induction 1 as [|name names Hname _ IH]; intros w image im Hi Hwf Hplain Hw Hh.
  - exists image, w, im. by repeat split.
  - destruct (constructible_ok name Hname) as (cls & e & Hall & Hcall & He).
    assert (Hstep : exists r1 w1 im1,
               Multiball_spec_attempt K name (PImage image) w
               = (Returned (PImage r1), w1) /\
               images w1 !! r1 = Some im1 /\
               PIL.size im1 = PIL.size im /\ PIL.wf im1 /\
               PIL.plain (PIL.mode im1) = true).
    { unfold Multiball_spec_attempt, all_getitem. rewrite Hall. simpl.
      erewrite bind_run by reflexivity.
      erewrite bind_run by apply Hcall.
      erewrite bind_run by apply randint_ok.
      destruct (draw w mod 2 =? 0)%Z.
      - apply effect_ok; auto.
      - exists image, (advance 1 w), im. by repeat split. }
    destruct Hstep as (r1 & w1 & im1 & Hrun1 & Hi1 & Hs1 & Hwf1 & Hplain1).
    destruct (IH w1 r1 im1 Hi1 Hwf1 Hplain1)
      as (r' & w' & im' & Hrun & Hi' & Hs & Hwf').
    { by rewrite Hs1. }
    { by rewrite Hs1. }
    exists r', w', im'. simpl. rewrite (bind_run _ _ _ _ _ Hrun1).
    split; [done|]. split; [done|]. by rewrite Hs, Hs1.
Qed.

(** X8. A Multiball whose names are all among the eight names that can be
    constructed does not fail on a well-formed image in one of the modes
    L, LA, RGB, RGBA without a side below 5 (the default reduction of
    Pixelate), whatever the draws: it returns an image object of the size
    of its input, and the list of names is empty afterwards. *)
Theorem Multiball_of_constructible_names K self names w image im :
  lists w !! effects self = Some names ->
  Forall (fun name => name ∈ constructible_names) names ->
  images w !! image = Some im ->
  PIL.wf im -> PIL.plain (PIL.mode im) = true ->
  (5 <= fst (PIL.size im))%Z -> (5 <= snd (PIL.size im))%Z ->
  exists r' w' im',
    Multiball_apply_effect K self (PImage image) w = (Returned (PImage r'), w') /\
    images w' !! r' = Some im' /\
    PIL.size im' = PIL.size im /\ PIL.wf im' /\
    lists w' !! effects self = Some [].
Proof.
  destruct self as [s]. simpl. intros Hl Hnames Hi Hwf Hplain Hw Hh.
  destruct (Multiball_apply_effect_spec K s names (PImage image) w Hl)
    as (rest & _ & Hrun & Hrest).
  destruct (Multiball_spec_each_ok K (rev names)
              ltac:(by apply Forall_rev) w image im Hi Hwf Hplain Hw Hh)
    as (r' & w' & im' & Hspec & Hl' & Hs & Hwf').
  unfold Multiball_spec in Hrun, Hrest. rewrite Hspec in Hrun, Hrest.
  simpl in Hrun, Hrest. rewrite (Hrest _ eq_refl) in Hrun.
  exists r', (set_lists (fun ls => <[s := []]> ls) w'), im'.
  split; [done|]. split; [done|]. split; [done|]. split; [done|].
  simpl. apply list_lookup_insert_eq.
  rewrite (lists_indep_lists _ _ _ _ (lists_indep_spec_each K _ _) Hspec).
  eapply lookup_lt_Some; eauto.
Qed.

Lemma Multiball_of_constructible_names_witness :
  exists r' w' im',
    Multiball_apply_effect sample_kernels (mkMultiball 0) (PImage 1)
      (tile_world ["shredder"; "solarize"; "pixelate"] [1; 1; 1; 3])
    = (Returned (PImage r'), w') /\
    images w' !! r' = Some im' /\
    PIL.size im' = (10, 6)%Z /\ PIL.wf im' /\
    lists w' !! 0 = Some [].
Proof.
  apply (Multiball_of_constructible_names sample_kernels (mkMultiball 0)
           ["shredder"; "solarize"; "pixelate"]
           (tile_world ["shredder"; "solarize"; "pixelate"] [1; 1; 1; 3])
           1 sample_tile eq_refl);
    [|reflexivity|reflexivity|reflexivity|discriminate|discriminate].
  unfold constructible_names. repeat constructor; set_solver.
Defined.

(** ** Solarize at the ends of the scale *)

Lemma convert_same_mode K im m : PIL.mode im = m -> PIL.convert K im m = im.
Proof. intros <-. unfold PIL.convert. by rewrite String.eqb_refl. Qed.

Lemma solarize_lut_above threshold v :
  (v <= 255)%Z -> (255 < num_val threshold)%Q ->
  PIL.solarize_lut threshold v = v.
Proof.
  intros Hv Ht. unfold PIL.solarize_lut.
  replace (py_lt (PyInt v) threshold) with true; [done|].
  symmetry. apply py_lt_spec. simpl.
  eapply Qle_lt_trans; [|exact Ht]. unfold Qle. simpl. lia.
Qed.

Lemma solarize_lut_below threshold v :
  (0 <= v)%Z -> (num_val threshold <= 0)%Q ->
  PIL.solarize_lut threshold v = (255 - v)%Z.
Proof.
  intros Hv Ht. unfold PIL.solarize_lut.
  replace (py_lt (PyInt v) threshold) with false; [done|].
  symmetry. apply py_lt_false. simpl.
  eapply Qle_trans; [exact Ht|]. unfold Qle. simpl. lia.
Qed.

(** X9. Solarize with a threshold above 255 returns the RGB conversion of
    its input, value for value, and with a threshold of 0 or less its
    negative: every value [v] of the conversion becomes [255 - v]. *)
Theorem Solarize_extremes K w image im threshold :
  images w !! image = Some im ->
  eight_bit (PIL.convert K im "RGB") ->
  exists r' w' im',
    apply_effect K (Solarize_init (Some threshold)) (PImage image) w
    = (Returned (PImage r'), w') /\
    images w' !! r' = Some im' /\
    forall k b, PIL.bands (PIL.convert K im "RGB") !! k = Some b ->
      exists b', PIL.bands im' !! k = Some b' /\
        forall x y, PIL.inside (PIL.size im) x y = true ->
          ((255 < num_val threshold)%Q -> b' x y = b x y) /\
          ((num_val threshold <= 0)%Q -> b' x y = (255 - b x y)%Z).
Proof.
  intros Hi H8.
  do 3 eexists. split; [|split].
  - unfold Solarize_init. by apply Solarize_apply_effect_run.
  - heap_index.
  - simpl. intros k b Hb. rewrite list_lookup_fmap, Hb. simpl.
    eexists. split; [reflexivity|]. intros x y Hin.
    assert (Hv : (0 <= b x y <= 255)%Z).
    { apply (H8 k b x y Hb). by rewrite size_convert. }
    split; intros Ht.
    + apply solarize_lut_above; [lia|done].
    + apply solarize_lut_below; [lia|done].
Qed.

Lemma eight_bit_sample_rgb : eight_bit sample_rgb.
Proof.
  intros k b x y Hb Hin. unfold PIL.inside in Hin. simpl in Hin.
  apply andb_prop in Hin as [Hin Hy2]. apply andb_prop in Hin as [Hin Hy1].
  apply andb_prop in Hin as [Hx1 Hx2].
  apply Z.leb_le in Hx1, Hy1. apply Z.ltb_lt in Hx2, Hy2.
  destruct k as [|[|[|k]]]; simpl in Hb; try discriminate Hb;
    injection Hb as <-; unfold gradient; lia.
Defined.

Lemma Solarize_extremes_witness :
  exists r' w' im',
    apply_effect sample_kernels (Solarize_init (Some (PyInt 0))) (PImage 0)
      (sample_world [] [])
    = (Returned (PImage r'), w') /\
    images w' !! r' = Some im' /\
    exists b', PIL.bands im' !! 1 = Some b' /\ b' 3%Z 1%Z = (255 - 113)%Z.
Proof.
  destruct (Solarize_extremes sample_kernels (sample_world [] []) 0 sample_rgb
              (PyInt 0) eq_refl eight_bit_sample_rgb)
    as (r' & w' & im' & Hrun & Hl & Hb).
  exists r', w', im'. split; [exact Hrun|]. split; [exact Hl|].
  destruct (Hb 1 (gradient 100) eq_refl) as (b' & Hb' & Hv).
  exists b'. split; [exact Hb'|].
  exact (proj2 (Hv 3%Z 1%Z eq_refl) ltac:(discriminate)).
Defined.

(** X10. On an RGB image Solarize with a threshold of 0 or less is an
    involution: applied to its own result it gives back the values of the
    image it started from. *)
Theorem Solarize_negative_twice K w image im threshold :
  images w !! image = Some im ->
  PIL.mode im = "RGB" ->
  eight_bit im ->
  (num_val threshold <= 0)%Q ->
  exists r1 w1 r2 w2 im2,
    apply_effect K (Solarize threshold) (PImage image) w
    = (Returned (PImage r1), w1) /\
    apply_effect K (Solarize threshold) (PImage r1) w1
    = (Returned (PImage r2), w2) /\
    images w2 !! r2 = Some im2 /\
    PIL.same_pixels im2 im.
Proof.
  intros Hi Hm H8 Ht.
  pose proof (Solarize_apply_effect_run K w image im threshold Hi) as Hrun1.
  rewrite (convert_same_mode K im "RGB" Hm) in Hrun1.
  set (im1 := {| PIL.mode := "RGB"; PIL.size := PIL.size im;
                 PIL.bands :=
                   map (fun (b : PIL.band) x y => PIL.solarize_lut threshold (b x y))
                       (PIL.bands im) |}) in *.
  set (w1 := allocated im1 (allocated im w)) in *.
  assert (Hi1 : images w1 !! S (length (images w)) = Some im1)
    by (unfold w1; heap_index).
  pose proof (Solarize_apply_effect_run K w1 _ im1 threshold Hi1) as Hrun2.
  rewrite (convert_same_mode K im1 "RGB" eq_refl) in Hrun2.
  do 5 eexists. split; [exact Hrun1|]. split; [exact Hrun2|].
  split; [heap_index|].
  unfold PIL.same_pixels. simpl. rewrite !length_map.
  split; [done|]. split; [done|]. split; [done|].
  intros k ba bb Ha Hb x y Hin.
  rewrite !list_lookup_fmap, Hb in Ha. simpl in Ha. injection Ha as <-.
  pose proof (H8 k bb x y Hb Hin) as Hv.
  rewrite (solarize_lut_below threshold (bb x y)) by (lia || done).
  rewrite solarize_lut_below by (lia || done). lia.
Qed.

Lemma Solarize_negative_twice_witness :
  exists r1 w1 r2 w2 im2,
    apply_effect sample_kernels (Solarize (PyInt 0)) (PImage 0) (sample_world [] [])
    = (Returned (PImage r1), w1) /\
    apply_effect sample_kernels (Solarize (PyInt 0)) (PImage r1) w1
    = (Returned (PImage r2), w2) /\
    images w2 !! r2 = Some im2 /\
    PIL.same_pixels im2 sample_rgb.
Proof.
  apply (Solarize_negative_twice sample_kernels (sample_world [] []) 0 sample_rgb
           (PyInt 0) eq_refl eq_refl eight_bit_sample_rgb).
  discriminate.
Defined.

(** ** Pixelate: the blocks *)

(** Shrinking [r * n] columns to [n] takes the column at the centre of
    each block of [r]; growing [n] columns back to [r * n] repeats each of
    them [r] times. *)
Lemma nearest_down r n x : (0 < n)%Z -> PIL.nearest (r * n) n x = (r * x + r / 2)%Z.
Proof.
  intros Hn. unfold PIL.nearest.
  replace ((2 * x + 1) * (r * n))%Z with (((2 * x + 1) * r) * n)%Z by ring.
  rewrite Z.div_mul_cancel_r by lia.
  replace ((2 * x + 1) * r)%Z with (r * x * 2 + r)%Z by ring.
  rewrite Z.div_add_l by lia. done.
Qed.

Lemma nearest_up r n x : (0 < r)%Z -> (0 < n)%Z -> PIL.nearest n (r * n) x = (x / r)%Z.
Proof.
  intros Hr Hn. unfold PIL.nearest.
  replace (2 * (r * n))%Z with ((2 * r) * n)%Z by ring.
  rewrite Z.div_mul_cancel_r by lia.
  symmetry. apply (Z.div_unique _ _ _ (2 * (x mod r) + 1)).
  - left. pose proof (Z.mod_pos_bound x r Hr). lia.
  - pose proof (Z.div_mod x r ltac:(lia)). lia.
Qed.

Lemma block_centre_idem r x :
  (0 < r)%Z -> block_centre r (block_centre r x) = block_centre r x.
Proof.
  intros Hr. unfold block_centre. f_equal. f_equal.
  replace (r * (x / r) + r / 2)%Z with ((x / r) * r + r / 2)%Z by ring.
  rewrite Z.div_add_l by lia.
  rewrite (Z.div_small (r / 2) r); [lia|].
  split; [apply Z.div_pos; lia|apply Z.div_lt; lia].
Qed.

(** Shrinking an image of [r * n] by [r * m] pixels to [n] by [m] and
    growing the result back. *)
Lemma resize_pixelated im r n m :
  (1 <= r)%Z -> (0 < n)%Z -> (0 < m)%Z ->
  PIL.size im = ((r * n)%Z, (r * m)%Z) ->
  exists small out,
    PIL.resize im (n, m) = inr small /\
    PIL.resize small (PIL.size im) = inr out /\
    PIL.mode out = PIL.mode im /\ PIL.size out = PIL.size im /\
    forall k x y,
      PIL.pixel out k x y
      = PIL.pixel im k (block_centre r x) (block_centre r y).
Proof.
  intros Hr Hn Hm Hs.
  destruct (decide (r = 1%Z)) as [->|Hr1].
  - rewrite !Z.mul_1_l in Hs. rewrite <- Hs.
    exists im, im. rewrite !resize_same. repeat split.
    intros k x y. unfold block_centre. by rewrite !Z.mul_1_l, !Z.div_1_r, !Z.add_0_r.
  - set (small := {| PIL.mode := PIL.mode im; PIL.size := (n, m);
                     PIL.bands :=
                       map (fun (b : PIL.band) x y =>
                              b (PIL.nearest (r * n) n x)
                                (PIL.nearest (r * m) m y))
                           (PIL.bands im) |}).
    set (out := {| PIL.mode := PIL.mode im; PIL.size := PIL.size im;
                   PIL.bands :=
                     map (fun (b : PIL.band) x y =>
                            b (PIL.nearest n (r * n) x)
                              (PIL.nearest m (r * m) y))
                         (PIL.bands small) |}).
    exists small, out. split; [|split].
    + unfold PIL.resize, PIL.width, PIL.height. rewrite Hs. simpl.
      replace (n =? r * n)%Z with false by (symmetry; apply Z.eqb_neq; nia).
      replace (n <? 1)%Z with false by (symmetry; apply Z.ltb_ge; lia).
      replace (m <? 1)%Z with false by (symmetry; apply Z.ltb_ge; lia).
      reflexivity.
    + unfold PIL.resize, PIL.width, PIL.height. rewrite Hs. simpl.
      replace (r * n =? n)%Z with false by (symmetry; apply Z.eqb_neq; nia).
      replace (r * n <? 1)%Z with false by (symmetry; apply Z.ltb_ge; nia).
      replace (r * m <? 1)%Z with false by (symmetry; apply Z.ltb_ge; nia).
      unfold out. by rewrite Hs.
    + split; [done|]. split; [done|].
      intros k x y. unfold PIL.pixel. simpl. rewrite !list_lookup_fmap.
      destruct (PIL.bands im !! k) as [b|]; simpl; [|done].
      rewrite (nearest_up r n x), (nearest_up r m y) by lia.
      rewrite !nearest_down by done. unfold block_centre. done.
Qed.

(** The run of Pixelate, whatever the two resizes do. *)
Lemma Pixelate_apply_effect_cases K w image im c qw qh :
  images w !! image = Some im ->
  py_div (PyInt (fst (PIL.size im))) c = inr qw ->
  py_div (PyInt (snd (PIL.size im))) c = inr qh ->
  apply_effect K (Pixelate c) (PImage image) w
  = match PIL.resize im (py_int qw, py_int qh) with
    | inl e => (Raised e, w)
    | inr small =>
        match PIL.resize small (PIL.size im) with
        | inl e => (Raised e, allocated small w)
        | inr out => (Returned (PImage (S (length (images w)))),
                      allocated out (allocated small w))
        end
    end.
Proof.
  intros Hi Hw Hh.
  destruct (PIL.resize im (py_int qw, py_int qh)) as [e|small] eqn:Hsmall.
  - simpl. unfold Pixelate_apply_effect.
    eapply bind_intro; [run|]. rewrite Hw.
    eapply bind_intro; [run|]. eapply bind_intro; [run|]. rewrite Hh.
    eapply bind_intro; [run|].
    erewrite bind_raise; [reflexivity|].
    by eapply Image_resize_raises.
  - destruct (PIL.resize small (PIL.size im)) as [e|out] eqn:Hout.
    + simpl. unfold Pixelate_apply_effect.
      eapply bind_intro; [run|]. rewrite Hw.
      eapply bind_intro; [run|]. eapply bind_intro; [run|]. rewrite Hh.
      eapply bind_intro; [run|].
      eapply bind_intro; [eapply Image_resize_ok; [heap_lookup|exact Hsmall]|].
      eapply bind_intro; [run|].
      eapply Image_resize_raises; [heap_lookup|exact Hout].
    + by eapply Pixelate_apply_effect_run.
Qed.

Lemma Pixelate_int_run K w image im r n m :
  images w !! image = Some im ->
  (1 <= r)%Z -> (0 < n)%Z -> (0 < m)%Z ->
  PIL.size im = ((r * n)%Z, (r * m)%Z) ->
  exists small out,
    apply_effect K (Pixelate_init (Some (PyInt r))) (PImage image) w
    = (Returned (PImage (S (length (images w)))),
       allocated out (allocated small w)) /\
    PIL.mode out = PIL.mode im /\ PIL.size out = PIL.size im /\
    forall k x y,
      PIL.pixel out k x y
      = PIL.pixel im k (block_centre r x) (block_centre r y).
Proof.
  intros Hi Hr Hn Hm Hs. unfold Pixelate_init. simpl default.
  destruct (clamp_one (PyInt r)) as [_ Hid]. simpl in Hid.
  rewrite Hid by (unfold Qle; simpl; lia).
  destruct (resize_pixelated im r n m Hr Hn Hm Hs)
    as (small & out & Hsmall & Hout & Hmo & Hso & Hpix).
  exists small, out. split; [|done].
  eapply (Pixelate_apply_effect_run K w image im (PyInt r) (PyInt n) (PyInt m));
    try done.
  - rewrite Hs. simpl. rewrite py_div_int by lia. do 2 f_equal.
    rewrite Z.mul_comm. apply Z.div_mul. lia.
  - rewrite Hs. simpl. rewrite py_div_int by lia. do 2 f_equal.
    rewrite Z.mul_comm. apply Z.div_mul. lia.
Qed.

(** X11. When the reduction [r], an integer of at least 1, divides the
    width and the height, Pixelate fills every block of [r] by [r] pixels
    with the values of the pixel at the centre of the block, in every
    band. *)
Theorem Pixelate_blocks K w image im r n m :
  images w !! image = Some im ->
  (1 <= r)%Z -> (0 < n)%Z -> (0 < m)%Z ->
  PIL.size im = ((r * n)%Z, (r * m)%Z) ->
  exists r' w' im',
    apply_effect K (Pixelate_init (Some (PyInt r))) (PImage image) w
    = (Returned (PImage r'), w') /\
    images w' !! r' = Some im' /\
    PIL.mode im' = PIL.mode im /\ PIL.size im' = PIL.size im /\
    forall k x y,
      PIL.pixel im' k x y
      = PIL.pixel im k (block_centre r x) (block_centre r y).
Proof.
  intros Hi Hr Hn Hm Hs.
  destruct (Pixelate_int_run K w image im r n m Hi Hr Hn Hm Hs)
    as (small & out & Hrun & Hmo & Hso & Hpix).
  exists (S (length (images w))), (allocated out (allocated small w)), out.
  split; [done|]. split; [heap_index|]. by repeat split.
Qed.

Lemma Pixelate_blocks_witness :
  exists r' w' im',
    apply_effect sample_kernels (Pixelate_init (Some (PyInt 2))) (PImage 0)
      (sample_world [] [])
    = (Returned (PImage r'), w') /\
    images w' !! r' = Some im' /\
    PIL.mode im' = "RGB" /\ PIL.size im' = (4, 2)%Z /\
    forall k x y,
      PIL.pixel im' k x y
      = PIL.pixel sample_rgb k (block_centre 2 x) (block_centre 2 y).
Proof.
  apply (Pixelate_blocks sample_kernels (sample_world [] []) 0 sample_rgb
           2%Z 2%Z 1%Z eq_refl); (lia || reflexivity).
Defined.

(** X12. Under the same divisibility Pixelate is idempotent: applied to
    its own result, with the same reduction, it returns the same values. *)
Theorem Pixelate_idempotent K w image im r n m :
  images w !! image = Some im ->
  (1 <= r)%Z -> (0 < n)%Z -> (0 < m)%Z ->
  PIL.size im = ((r * n)%Z, (r * m)%Z) ->
  exists r1 w1 im1 r2 w2 im2,
    apply_effect K (Pixelate_init (Some (PyInt r))) (PImage image) w
    = (Returned (PImage r1), w1) /\
    images w1 !! r1 = Some im1 /\
    apply_effect K (Pixelate_init (Some (PyInt r))) (PImage r1) w1
    = (Returned (PImage r2), w2) /\
    images w2 !! r2 = Some im2 /\
    PIL.mode im2 = PIL.mode im1 /\ PIL.size im2 = PIL.size im1 /\
    forall k x y, PIL.pixel im2 k x y = PIL.pixel im1 k x y.
Proof.
  intros Hi Hr Hn Hm Hs.
  destruct (Pixelate_int_run K w image im r n m Hi Hr Hn Hm Hs)
    as (small & im1 & Hrun1 & Hm1 & Hs1 & Hpix1).
  set (w1 := allocated im1 (allocated small w)) in *.
  assert (Hi1 : images w1 !! S (length (images w)) = Some im1)
    by (unfold w1; heap_index).
  destruct (Pixelate_int_run K w1 _ im1 r n m Hi1 Hr Hn Hm ltac:(congruence))
    as (small2 & im2 & Hrun2 & Hm2 & Hs2 & Hpix2).
  exists (S (length (images w))), w1, im1.
  exists (S (length (images w1))), (allocated im2 (allocated small2 w1)), im2.
  split; [done|]. split; [done|]. split; [done|].
  split; [heap_index|]. split; [done|]. split; [done|].
  intros k x y.
  by rewrite Hpix2, !Hpix1, !block_centre_idem by lia.
Qed.

Lemma Pixelate_idempotent_witness :
  exists r1 w1 im1 r2 w2 im2,
    apply_effect sample_kernels (Pixelate_init (Some (PyInt 2))) (PImage 0)
      (sample_world [] [])
    = (Returned (PImage r1), w1) /\
    images w1 !! r1 = Some im1 /\
    apply_effect sample_kernels (Pixelate_init (Some (PyInt 2))) (PImage r1) w1
    = (Returned (PImage r2), w2) /\
    images w2 !! r2 = Some im2 /\
    PIL.mode im2 = PIL.mode im1 /\ PIL.size im2 = PIL.size im1 /\
    forall k x y, PIL.pixel im2 k x y = PIL.pixel im1 k x y.
Proof.
  apply (Pixelate_idempotent sample_kernels (sample_world [] []) 0 sample_rgb
           2%Z 2%Z 1%Z eq_refl); (lia || reflexivity).
Defined.

(** ** Pixelate: the exceptions *)

Lemma resize_error im sz e : PIL.resize im sz = inl e -> e = ValueError.
Proof.
  unfold PIL.resize. destruct (_ && _); [done|].
  destruct (_ || _); [by intros [= <-]|done].
Qed.

(** A side divided by a reduction that exceeds it, and truncated, is 0. *)
Lemma py_div_small z r :
  (0 <= z)%Z -> (inject_Z z < num_val r)%Q ->
  exists q, py_div (PyInt z) r = inr q /\ py_int q = 0%Z.
Proof.
  intros Hz Hr.
  assert (Hpos : (0 < num_val r)%Q).
  { eapply Qle_lt_trans; [|exact Hr]. unfold Qle. simpl. lia. }
  unfold py_div.
  destruct (Qeq_bool (num_val r) 0) eqn:E.
  { apply Qeq_bool_iff in E. rewrite E in Hpos. by exfalso. }
  destruct r as [y|q]; simpl in *.
  - exists (PyInt (z / y)). split; [done|]. simpl.
    rewrite <- Zlt_Qlt in Hr. apply Z.div_small. lia.
  - eexists. split; [reflexivity|]. simpl.
    assert (H0 : (inject_Z 0 <= inject_Z z / q)%Q).
    { apply Qle_shift_div_l; [done|]. rewrite Qmult_0_l.
      unfold Qle. simpl. lia. }
    assert (H1 : (inject_Z z / q < 1)%Q).
    { apply Qlt_shift_div_r; [done|]. by rewrite Qmult_1_l. }
    pose proof (Qtrunc_lower _ _ H0) as Hlo.
    unfold Qtrunc in *.
    replace (Qle_bool 0 (inject_Z z / q)) with true in *
      by (symmetry; by apply Qle_bool_iff).
    pose proof (Qfloor_le (inject_Z z / q)) as Hfl.
    pose proof (Qle_lt_trans _ _ _ Hfl H1) as Hlt.
    change 1%Q with (inject_Z 1) in Hlt. rewrite <- Zlt_Qlt in Hlt. lia.
Qed.

(** X13. The reduction a Pixelate holds is at least 1 whatever it is
    built with, so its [apply_effect] never divides by zero: the one
    exception it raises on an image is the ValueError of a resize to a
    size with a side below 1.  It returns an image of the mode and size of
    its input when the reduction exceeds neither side; it raises
    ValueError, the state untouched, when the reduction exceeds a side of
    at least 1; and built with a reduction of 1 or less (0 and the negative
    numbers included) it returns a copy of its input. *)
Theorem Pixelate_never_divides_by_zero K w image im reduction :
  images w !! image = Some im ->
  let c := clamped_reduction reduction in
  let width := fst (PIL.size im) in
  let height := snd (PIL.size im) in
  Pixelate_init reduction = Pixelate c /\
  (1 <= num_val c)%Q /\
  (forall e w', apply_effect K (Pixelate c) (PImage image) w = (Raised e, w') ->
                e = ValueError) /\
  ((num_val c <= inject_Z width)%Q -> (num_val c <= inject_Z height)%Q ->
   exists r' w' im',
     apply_effect K (Pixelate c) (PImage image) w = (Returned (PImage r'), w') /\
     images w' !! r' = Some im' /\
     PIL.mode im' = PIL.mode im /\ PIL.size im' = PIL.size im) /\
  (((1 <= width)%Z /\ (inject_Z width < num_val c)%Q) \/
   ((1 <= height)%Z /\ (inject_Z height < num_val c)%Q) ->
   apply_effect K (Pixelate c) (PImage image) w = (Raised ValueError, w)) /\
  ((num_val (default (PyInt 5) reduction) <= 1)%Q ->
   exists r' w',
     apply_effect K (Pixelate c) (PImage image) w = (Returned (PImage r'), w') /\
     images w' !! r' = Some im).
Proof.
  intros Hi c width height.
  destruct (clamp_one (default (PyInt 5) reduction)) as [Hc Hid].
  simpl in Hc, Hid. fold (clamped_reduction reduction) in Hc, Hid. fold c in Hc, Hid.
  destruct (py_div_ok width c Hc) as (qw & Hqw).
  destruct (py_div_ok height c Hc) as (qh & Hqh).
  pose proof (Pixelate_apply_effect_cases K w image im c qw qh Hi Hqw Hqh) as Hrun.
  split; [reflexivity|]. split; [done|]. split; [|split; [|split]].
  - intros e w' He. rewrite Hrun in He.
    destruct (PIL.resize im _) as [e1|small] eqn:E1.
    + injection He as <- _. by eapply resize_error.
    + destruct (PIL.resize small _) as [e2|out] eqn:E2; [|discriminate He].
      injection He as <- _. by eapply resize_error.
  - intros Hw Hh.
    destruct (py_div_ge_one width c Hc Hw) as (qw' & Hqw' & Hw1).
    destruct (py_div_ge_one height c Hc Hh) as (qh' & Hqh' & Hh1).
    fold width in Hqw. fold height in Hqh.
    rewrite Hqw in Hqw'. injection Hqw' as <-.
    rewrite Hqh in Hqh'. injection Hqh' as <-.
    destruct (resize_ok im (py_int qw, py_int qh) Hw1 Hh1)
      as (small & Hsmall & Hms & Hss & _).
    assert (H1w : (1 <= width)%Z).
    { rewrite Zle_Qle. eapply Qle_trans; [exact Hc|exact Hw]. }
    assert (H1h : (1 <= height)%Z).
    { rewrite Zle_Qle. eapply Qle_trans; [exact Hc|exact Hh]. }
    destruct (resize_ok small (PIL.size im) H1w H1h)
      as (out & Hout & Hmo & Hso & _).
    rewrite Hsmall, Hout in Hrun.
    do 3 eexists. split; [exact Hrun|]. split; [heap_index|].
    split; congruence.
  - intros Hlt. rewrite Hrun.
    assert (Hzero : (1 <= width /\ py_int qw = 0)%Z \/
                    (1 <= height /\ py_int qh = 0)%Z).
    { destruct Hlt as [[H1 Hlt]|[H1 Hlt]]; [left|right]; (split; [done|]).
      - destruct (py_div_small width c ltac:(lia) Hlt) as (q & Hq & H0).
        congruence.
      - destruct (py_div_small height c ltac:(lia) Hlt) as (q & Hq & H0).
        congruence. }
    unfold width, height in Hzero.
    rewrite resize_raises; [done| |].
    + intros Heq.
      pose proof (f_equal fst Heq) as Hf. pose proof (f_equal snd Heq) as Hg.
      simpl in Hf, Hg. lia.
    + simpl. lia.
  - intros Hle.
    assert (H1 : (num_val c == 1)%Q).
    { unfold c, clamped_reduction, py_max.
      destruct (py_lt _ (PyInt 1)) eqn:E; [done|].
      apply py_lt_false in E. simpl in E. by apply Qle_antisym. }
    destruct (py_div_one width c H1) as (qw' & Hqw' & Hw).
    destruct (py_div_one height c H1) as (qh' & Hqh' & Hh).
    fold width in Hqw. fold height in Hqh.
    rewrite Hqw in Hqw'. injection Hqw' as <-.
    rewrite Hqh in Hqh'. injection Hqh' as <-.
    rewrite Hw, Hh in Hrun. unfold width, height in Hrun.
    rewrite <- surjective_pairing, !resize_same in Hrun.
    do 2 eexists. split; [exact Hrun|]. heap_index.
Qed.

Lemma Pixelate_never_divides_by_zero_witness :
  apply_effect sample_kernels (Pixelate_init None) (PImage 0) (sample_world [] [])
  = (Raised ValueError, sample_world [] []) /\
  exists r' w',
    apply_effect sample_kernels (Pixelate_init (Some (PyInt 0))) (PImage 0)
      (sample_world [] [])
    = (Returned (PImage r'), w') /\
    images w' !! r' = Some sample_rgb.
Proof.
  destruct (Pixelate_never_divides_by_zero sample_kernels (sample_world [] []) 0
              sample_rgb None eq_refl)
    as (_ & _ & _ & _ & Hraise & _).
  destruct (Pixelate_never_divides_by_zero sample_kernels (sample_world [] []) 0
              sample_rgb (Some (PyInt 0)) eq_refl)
    as (_ & _ & _ & _ & _ & Hcopy).
  split.
  - apply Hraise. left. split; [discriminate|reflexivity].
  - apply Hcopy. discriminate.
Defined.

(** ** Desaturate between the image and its grey version *)











(** ** The alpha channel that Blackwhite and Halftone put back *)

Section AlphaPutBack.
Variable K : PIL.Kernels.

(** Putting the alpha of the original into a buffer that has the mode and
    the size of the original. *)
Lemma put_original_alpha_back w image new io id :
  images w !! image = Some io ->
  images w !! new = Some id ->
  PIL.wf io -> PIL.wf id ->
  PIL.size io = PIL.size id ->
  PIL.mode id = PIL.mode io ->
  PIL.has_alpha_layer (PIL.mode io) = true ->
  exists w' im',
    put_original_alpha K (PImage image) (PImage new) w
    = (Returned (PImage new), w') /\
    images w' !! new = Some im' /\
    PIL.mode im' = PIL.mode io /\
    PIL.size im' = PIL.size io /\
    PIL.alpha_band im' = PIL.alpha_band io /\
    PIL.color_bands im' = PIL.color_bands id.
Proof.
  intros Hi Hn Hwo Hwd Hs Hm Ha.
  destruct (put_original_alpha_layer K w image new io id)
    as (w' & im' & Hrun & Him & _ & _ & _ & Hsz & _ & Hal & Hcol & _ & Hmode);
    auto.
  { apply has_alpha_layer_alpha_ready. by rewrite Hm. }
  exists w', im'. split; [done|]. split.
  - rewrite Him. apply list_lookup_insert_eq.
    rewrite length_app. apply lookup_lt_Some in Hn. lia.
  - rewrite Hmode by (by rewrite Hm). by rewrite Hsz, Hs.
Qed.

Lemma Blackwhite_alpha w image im :
  images w !! image = Some im ->
  PIL.wf im -> PIL.has_alpha_layer (PIL.mode im) = true ->
  exists r' w' im',
    apply_effect K Blackwhite (PImage image) w = (Returned (PImage r'), w') /\
    images w' !! r' = Some im' /\
    PIL.mode im' = PIL.mode im /\ PIL.size im' = PIL.size im /\
    PIL.alpha_band im' = PIL.alpha_band im.
Proof.
  intros Hi Hwf Ha.
  set (w2 := allocated (PIL.convert K (PIL.convert K im "1") (PIL.mode im))
               (allocated (PIL.convert K im "1") w)).
  destruct (put_original_alpha_back w2 image (S (length (images w))) im
              (PIL.convert K (PIL.convert K im "1") (PIL.mode im)))
    as (w' & im' & Hrun & Hl & Hm & Hs & Hal & _); auto.
  { unfold w2. heap_lookup. }
  { unfold w2. heap_index. }
  { by do 2 apply wf_convert. }
  { by rewrite !size_convert. }
  { by rewrite mode_convert. }
  exists (S (length (images w))), w', im'. split; [|done].
  simpl. unfold Blackwhite_apply_effect.
  eapply bind_intro; [run|]. eapply bind_intro; [run|].
  eapply bind_intro; [run|].
  rewrite images_allocated, length_app. simpl.
  replace (length (images w) + 1) with (S (length (images w))) by lia.
  exact Hrun.
Qed.

Lemma Halftone_alpha w image im :
  images w !! image = Some im ->
  PIL.wf im -> PIL.has_alpha_layer (PIL.mode im) = true ->
  exists r' w' im',
    apply_effect K Halftone (PImage image) w = (Returned (PImage r'), w') /\
    images w' !! r' = Some im' /\
    PIL.mode im' = PIL.mode im /\ PIL.size im' = PIL.size im /\
    PIL.alpha_band im' = PIL.alpha_band im.
Proof.
  intros Hi Hwf Ha.
  assert (Hlt : image < length (images w)) by (eapply lookup_lt_Some; eauto).
  pose proof (wf_convert K im "CMYK" Hwf) as Hwc.
  pose proof (mode_convert K im "CMYK") as Hmc.
  pose proof (size_convert K im "CMYK") as Hsc.
  destruct (PIL.convert K im "CMYK") as [mc sc bc] eqn:Hcv.
  simpl in Hmc, Hsc. subst mc sc. unfold PIL.wf in Hwc.
  list_of_length Hwc.
  enough (returns (apply_effect K Halftone (PImage image)) w
            (fun v w' => exists r' im',
                 v = PImage r' /\ images w' !! r' = Some im' /\
                 PIL.mode im' = PIL.mode im /\ PIL.size im' = PIL.size im /\
                 PIL.alpha_band im' = PIL.alpha_band im))
    as (v & w' & Hrun & r' & im' & -> & H).
  { by exists r', w', im'. }
  simpl. unfold Halftone_apply_effect.
  eapply returns_bind, returns_exact; [run|]. rewrite Hcv.
  eapply returns_bind, returns_exact.
  { unfold Image_split. run. }
  eapply returns_bind, returns_exact; [run|].
  eapply returns_bind, returns_exact.
  { unfold Image_merge. eapply bind_intro; [run|].
    erewrite merge_CMYK;
      [run|rewrite ?mode_convert, ?size_convert; reflexivity..]. }
  returns_step. returns_step.
  match goal with
  | |- returns (put_original_alpha _ _ (PImage ?n)) (allocated ?X ?W) _ =>
      destruct (put_original_alpha_back (allocated X W) image n im X)
      as (w' & im' & Hrun & Hl & Hm & Hs & Hal & _)
  end.
  { heap_lookup. }
  { heap_index. }
  { done. }
  { apply wf_convert. reflexivity. }
  { by rewrite size_convert. }
  { by rewrite mode_convert. }
  { done. }
  do 2 eexists. split; [exact Hrun|].
  do 2 eexists. split; [reflexivity|].
  split; [exact Hl|]. split; [exact Hm|]. split; [exact Hs|exact Hal].
Qed.

End AlphaPutBack.

(** X16. Blackwhite and Halftone give their result the alpha channel of
    the input: on a well-formed image whose mode has an alpha layer (LA, PA
    or RGBA) the returned image has the mode and the size of the input and
    its alpha band is the alpha band of the input, untouched by the
    conversions to 1-bit and back. *)
Theorem alpha_is_put_back K e w image im :
  e = Blackwhite \/ e = Halftone ->
  images w !! image = Some im ->
  PIL.wf im ->
  PIL.has_alpha_layer (PIL.mode im) = true ->
  exists r' w' im',
    apply_effect K e (PImage image) w = (Returned (PImage r'), w') /\
    images w' !! r' = Some im' /\
    PIL.mode im' = PIL.mode im /\ PIL.size im' = PIL.size im /\
    PIL.alpha_band im' = PIL.alpha_band im.
Proof.
  intros [-> | ->] Hi Hwf Ha.
  - by apply Blackwhite_alpha.
  - by apply Halftone_alpha.
Qed.

Lemma alpha_is_put_back_witness :
  exists r' w' im',
    apply_effect sample_kernels Halftone (PImage 1) (sample_world [] [])
    = (Returned (PImage r'), w') /\
    images w' !! r' = Some im' /\
    PIL.mode im' = "RGBA" /\ PIL.size im' = (4, 2)%Z /\
    PIL.alpha_band im' = PIL.alpha_band sample_rgba.
Proof.
  exact (alpha_is_put_back sample_kernels Halftone (sample_world [] []) 1
           sample_rgba (or_intror eq_refl) eq_refl eq_refl eq_refl).
Defined.

(** ** Blur *)




(** ** Shredder: the numbers drawn, and what the strips leave blank *)

Lemma Shredder_even_state K w image im :
  images w !! image = Some im ->
  (draw w mod 2 = 0)%Z ->
  exists w',
    apply_effect K Shredder (PImage image) w
    = (Returned (PImage (length (images w))), w') /\
    random w' = random w /\
    consumed w' = consumed w + (1 + Z.to_nat (draw (advance 1 w))).
Proof.
  intros Hi Heven.
  assert (Hlt : image < length (images w)) by (eapply lookup_lt_Some; eauto).
  set (SHREDS := draw (advance 1 w)).
  pose proof (draw_range (advance 1 w)) as HS. fold SHREDS in HS.
  set (w1 := allocated (PIL.new "RGBA" (PIL.size im)) (advance 1 (advance 1 w))).
  destruct (shuffle_ok (range 0 SHREDS) w1) as (sequence & Hsh & Hperm).
  set (w2 := advance (length (range 0 SHREDS) - 1) w1) in *.
  destruct (Shredder_loop_ok K image (length (images w)) im
              (fst (PIL.size im) / SHREDS)%Z
              (enumerate sequence) ltac:(lia)
              (PIL.new "RGBA" (PIL.size im)) w2)
    as (w' & Hloop & _ & _ & _ & _ & Hr & Hc).
  { unfold w2, w1. simpl. heap_lookup. }
  { unfold w2, w1. simpl. heap_lookup. }
  exists w'. split; [|split].
  - simpl. unfold Shredder_apply_effect.
    eapply bind_intro; [apply randint_ok|]. rewrite Heven. simpl.
    eapply bind_intro; [apply randint_ok|].
    eapply bind_intro; [eapply getsize_ok; exact Hi|].
    eapply bind_intro; [apply Image_new_ok|].
    eapply bind_intro; [eapply getsize_ok; heap_lookup|].
    unfold int_div. fold SHREDS.
    replace (SHREDS =? 0)%Z with false by (symmetry; apply Z.eqb_neq; lia).
    eapply bind_intro; [reflexivity|].
    eapply bind_intro; [exact Hsh|].
    eapply bind_intro; [exact Hloop|].
    reflexivity.
  - by rewrite Hr.
  - rewrite Hc. unfold w2, w1. simpl. rewrite length_range. lia.
Qed.

(** X18. A call of [Shredder.apply_effect] on an image draws one number
    when the first draw is odd, and, when it is even, that number, the
    number of shreds S and the S - 1 numbers of the shuffle: S + 1 in
    all. *)
Theorem Shredder_draws K w image im :
  images w !! image = Some im ->
  random (snd (apply_effect K Shredder (PImage image) w)) = random w /\
  consumed (snd (apply_effect K Shredder (PImage image) w))
  = consumed w + (if (draw w mod 2 =? 0)%Z
                  then 1 + Z.to_nat (draw (advance 1 w))
                  else 1).
Proof.
  intros Hi. destruct (draw w mod 2 =? 0)%Z eqn:E.
  - apply Z.eqb_eq in E.
    destruct (Shredder_even_state K w image im Hi E) as (w' & Hrun & Hr & Hc).
    by rewrite Hrun.
  - apply Z.eqb_neq in E.
    rewrite Shredder_apply_effect_odd.
    + simpl. split; [done|lia].
    + pose proof (Z.mod_pos_bound (draw w) 2). lia.
Qed.

Lemma Shredder_draws_witness :
  consumed (snd (apply_effect sample_kernels Shredder (PImage 1)
                   (sample_world [] [1; 2; 0])))
  = 4.
Proof.
  exact (proj2 (Shredder_draws sample_kernels (sample_world [] [1; 2; 0]) 1
                  sample_rgba eq_refl)).
Defined.

(** X19. The strips of Shredder have the width [width / S], rounded
    down, so S of them do not always cover the image: in the buffer
    Shredder returns on an even draw, every column from [S * (width / S)]
    on is blank in all four bands, alpha included; and an image narrower
    than the number of shreds comes back blank altogether. *)
Theorem Shredder_remainder_blank K w image im :
  images w !! image = Some im ->
  PIL.wf im ->
  (draw w mod 2 = 0)%Z ->
  let SHREDS := draw (advance 1 w) in
  let shred_width := (fst (PIL.size im) / SHREDS)%Z in
  exists w' im',
    apply_effect K Shredder (PImage image) w
    = (Returned (PImage (length (images w))), w') /\
    images w' !! length (images w) = Some im' /\
    PIL.size im' = PIL.size im /\
    (forall k X y, (SHREDS * shred_width <= X)%Z -> PIL.pixel im' k X y = 0%Z) /\
    ((0 <= fst (PIL.size im) < SHREDS)%Z ->
     forall k X y, PIL.pixel im' k X y = 0%Z).
Proof.
  intros Hi Hwf Heven SHREDS shred_width.
  pose proof (draw_range (advance 1 w)) as HS. fold SHREDS in HS.
  destruct (Shredder_apply_effect_even K w image im Hi Hwf Heven)
    as (sequence & w' & im' & Hperm & Hrun & Hl & _ & _ & Hs & _ & _ & _ & Hblank).
  fold SHREDS in Hperm, Hblank. fold shred_width in Hblank.
  assert (Hlen : length sequence = Z.to_nat SHREDS).
  { rewrite (Permutation_length Hperm), length_range. f_equal. lia. }
  exists w', im'. split; [done|]. split; [done|]. split; [done|]. split.
  - intros k X y HX. apply Hblank. intros i Hi'. rewrite Hlen in Hi'. nia.
  - intros Hw k X y. apply Hblank. intros i Hi'.
    assert (shred_width = 0%Z) as -> by (apply Z.div_small; lia). lia.
Qed.

Lemma Shredder_remainder_blank_witness :
  exists w' im',
    apply_effect sample_kernels Shredder (PImage 1) (sample_world [] [1; 2; 0])
    = (Returned (PImage 4), w') /\
    images w' !! 4 = Some im' /\
    PIL.size im' = (4, 2)%Z /\
    (forall k y, PIL.pixel im' k 3%Z y = 0%Z).
Proof.
  destruct (Shredder_remainder_blank sample_kernels (sample_world [] [1; 2; 0]) 1
              sample_rgba eq_refl eq_refl eq_refl)
    as (w' & im' & Hrun & Hl & Hs & Hblank & _).
  exists w', im'. split; [exact Hrun|]. split; [exact Hl|]. split; [exact Hs|].
  intros k y. apply Hblank. discriminate.
Defined.

(** X20. With a single shred there is nothing to shuffle: on an even
    first draw followed by the draw of one shred, Shredder returns a new
    buffer that holds the RGBA input pixel for pixel. *)
Theorem Shredder_one_shred K w image im :
  images w !! image = Some im ->
  PIL.wf im ->
  PIL.mode im = "RGBA" ->
  (draw w mod 2 = 0)%Z ->
  draw (advance 1 w) = 1%Z ->
  exists w' im',
    apply_effect K Shredder (PImage image) w
    = (Returned (PImage (length (images w))), w') /\
    images w' !! length (images w) = Some im' /\
    images w' !! image = Some im /\
    PIL.same_pixels im' im.
Proof.
  intros Hi Hwf Hm Heven Hone.
  destruct (Shredder_apply_effect_even K w image im Hi Hwf Heven)
    as (sequence & w' & im' & Hperm & Hrun & Hl & Hi' & Hm' & Hs & Hlen & _ & Hpix & _).
  rewrite Hone in Hperm, Hpix. rewrite Z.div_1_r in Hpix.
  apply Permutation_singleton_r in Hperm. subst sequence.
  specialize (Hpix Hm 0 0%Z).
  exists w', im'. split; [done|]. split; [done|]. split; [done|].
  unfold PIL.same_pixels. split; [by rewrite Hm', Hm|]. split; [done|].
  split; [unfold PIL.wf in Hwf; by rewrite Hlen, Hwf, Hm|].
  intros k ba bb Ha Hb x y Hin.
  rewrite Hs in Hin. unfold PIL.inside in Hin.
  apply andb_prop in Hin as [Hin Hy2]. apply andb_prop in Hin as [Hin Hy1].
  apply andb_prop in Hin as [Hx1 Hx2].
  apply Z.leb_le in Hx1, Hy1. apply Z.ltb_lt in Hx2, Hy2.
  specialize (Hpix k x y eq_refl ltac:(lia) ltac:(lia)).
  unfold PIL.pixel in Hpix. rewrite Ha, Hb in Hpix.
  replace (fst (PIL.size im) * Z.of_nat 0 + x)%Z with x in Hpix by lia.
  replace (fst (PIL.size im) * 0 + x)%Z with x in Hpix by lia.
  exact Hpix.
Qed.

Lemma Shredder_one_shred_witness :
  exists w' im',
    apply_effect sample_kernels Shredder (PImage 1) (sample_world [] [1; 0])
    = (Returned (PImage 4), w') /\
    images w' !! 4 = Some im' /\
    images w' !! 1 = Some sample_rgba /\
    PIL.same_pixels im' sample_rgba.
Proof.
  exact (Shredder_one_shred sample_kernels (sample_world [] [1; 0]) 1 sample_rgba
           eq_refl eq_refl eq_refl eq_refl eq_refl).
Defined.

(** ** Multiball: a name that fails, and draws that are all odd *)

Section MultiballFailure.
Variable K : PIL.Kernels.

(** When the names after [bad] go through and the attempt of [bad]
    raises, the loop stops there: the names before [bad] are what is left
    of the list. *)
Lemma Multiball_loop_failure s before bad after :
  forall bound image w image1 w1 e w2,
    lists w !! s = Some (before ++ bad :: after) ->
    length (before ++ bad :: after) <= bound ->
    Multiball_spec K after image w = (Returned image1, w1) ->
    Multiball_spec_attempt K bad image1 w1 = (Raised e, w2) ->
    Multiball_loop K bound (mkMultiball s) image w
    = (Raised e, set_lists (fun ls => <[s := before]> ls) w2).
Proof.
  unfold Multiball_spec.
  induction after as [|n after IH] using rev_ind;
    intros bound image w image1 w1 e w2 Hl Hb Hafter Hbad.
  - injection Hafter as <- <-.
    rewrite length_app in Hb. simpl in Hb.
    destruct bound as [|bound]; [lia|].
    rewrite (Multiball_loop_step K s before bad bound image w Hl).
    pose proof (lists_indep_spec_attempt K bad image
                  (fun ls => <[s := before]> ls) w) as Hpop.
    rewrite Hbad in Hpop. simpl in Hpop.
    by rewrite (bind_raise _ _ _ _ _ Hpop).
  - rewrite rev_unit in Hafter. simpl in Hafter.
    destruct (Multiball_spec_attempt K n image w) as [[i0|e0] w0] eqn:Hn.
    2: { rewrite (bind_raise _ _ _ _ _ Hn) in Hafter. discriminate Hafter. }
    rewrite (bind_run _ _ _ _ _ Hn) in Hafter.
    assert (Hl' : lists w !! s = Some ((before ++ bad :: after) ++ [n])).
    { rewrite Hl. f_equal. by rewrite <- (assoc_L (++)). }
    assert (Hlen : length (before ++ bad :: after ++ [n])
                   = S (length (before ++ bad :: after))).
    { rewrite !length_app. simpl. rewrite length_app. simpl. lia. }
    destruct bound as [|bound]; [lia|].
    rewrite (Multiball_loop_step K s _ n bound image w Hl').
    pose proof (lists_indep_spec_attempt K n image
                  (fun ls => <[s := before ++ bad :: after]> ls) w) as Hpop.
    rewrite Hn in Hpop. simpl in Hpop.
    rewrite (bind_run _ _ _ _ _ Hpop).
    pose proof (lists_indep_spec_each K (rev after) i0
                  (fun ls => <[s := before ++ bad :: after]> ls) w0) as Hrest.
    rewrite Hafter in Hrest. simpl in Hrest.
    pose proof (lists_indep_spec_attempt K bad image1
                  (fun ls => <[s := before ++ bad :: after]> ls) w1) as Hbad'.
    rewrite Hbad in Hbad'. simpl in Hbad'.
    assert (Hl0 : lists (set_lists (fun ls => <[s := before ++ bad :: after]> ls) w0)
                  !! s = Some (before ++ bad :: after)).
    { simpl.
      rewrite (lists_indep_lists _ _ _ _ (lists_indep_spec_attempt K n image) Hn).
      apply list_lookup_insert_eq. eapply lookup_lt_Some; eauto. }
    rewrite (IH bound i0 _ image1 _ e _ Hl0 ltac:(lia) Hrest Hbad').
    by rewrite set_lists_twice.
Qed.

Lemma spec_each_all_odd names :
  Forall (fun name => name ∈ constructible_names) names ->
  forall image w,
    (forall i, i < length names -> (draw (advance i w) mod 2 = 1)%Z) ->
    Multiball_spec_each K names image w
    = (Returned image, advance (length names) w).
Proof.
  induction 1 as [|name names Hname _ IH]; intros image w Hodd.
  - simpl. unfold ret. by destruct w.
  - destruct (constructible_ok name Hname) as (cls & e & Hall & Hcall & _).
    assert (Hstep : Multiball_spec_attempt K name image w
                    = (Returned image, advance 1 w)).
    { unfold Multiball_spec_attempt, all_getitem. rewrite Hall. simpl.
      erewrite bind_run by reflexivity.
      erewrite bind_run by apply Hcall.
      erewrite bind_run by apply randint_ok.
      pose proof (Hodd 0 ltac:(simpl; lia)) as H0.
      change (draw (advance 0 w)) with (draw w) in H0.
      by rewrite H0. }
    simpl. rewrite (bind_run _ _ _ _ _ Hstep).
    rewrite IH.
    + rewrite advance_advance. do 2 f_equal. lia.
    + intros i Hi. rewrite advance_advance.
      replace (i + 1) with (S i) by lia. apply Hodd. simpl. lia.
Qed.

End MultiballFailure.

(** X21. When a Multiball meets a name it cannot construct (a name that
    is not in the registry, or [multiball]), the names after it being
    constructible and the image well formed, in one of the modes L, LA, RGB
    and RGBA and with no side below 5 (so that no effect applied before
    fails), the call raises at that name (KeyError for a missing name,
    TypeError for [multiball]) and leaves the list holding the names before
    it: the names already popped, the failing one included, are gone from
    the list of the caller. *)
Theorem Multiball_failure_leaves_rest K self before bad after w image im :
  lists w !! effects self = Some (before ++ bad :: after) ->
  bad ∉ constructible_names ->
  Forall (fun name => name ∈ constructible_names) after ->
  images w !! image = Some im ->
  PIL.wf im -> PIL.plain (PIL.mode im) = true ->
  (5 <= fst (PIL.size im))%Z -> (5 <= snd (PIL.size im))%Z ->
  exists w',
    Multiball_apply_effect K self (PImage image) w
    = (Raised (if decide (bad = "multiball") then TypeError else KeyError bad), w') /\
    lists w' !! effects self = Some before.
Proof.
  destruct self as [s]. simpl. intros Hl Hbad Hafter Hi Hwf Hplain Hw Hh.
  destruct (Multiball_spec_each_ok K (rev after)
              ltac:(by apply Forall_rev) w image im Hi Hwf Hplain Hw Hh)
    as (r1 & w1 & im1 & Hspec & _).
  assert (Hraise : Multiball_spec_attempt K bad (PImage r1) w1
                   = (Raised (if decide (bad = "multiball")
                              then TypeError else KeyError bad), w1)).
  { destruct (decide (bad = "multiball")) as [->|Hm].
    - reflexivity.
    - unfold Multiball_spec_attempt, all_getitem.
      by rewrite (all_absent bad Hbad Hm). }
  exists (set_lists (fun ls => <[s := before]> ls) w1). split.
  - unfold Multiball_apply_effect.
    erewrite bind_run by (eapply list_len_ok; eassumption).
    eapply Multiball_loop_failure; eauto.
  - simpl. apply list_lookup_insert_eq.
    rewrite (lists_indep_lists _ _ _ _ (lists_indep_spec_each K _ _) Hspec).
    eapply lookup_lt_Some; eauto.
Qed.

Lemma Multiball_failure_leaves_rest_witness :
  exists w',
    Multiball_apply_effect sample_kernels (mkMultiball 0) (PImage 1)
      (tile_world ["blur"; "greyscale"; "sepia"; "pixelate"] [0])
    = (Raised (KeyError "sepia"), w') /\
    lists w' !! 0 = Some ["blur"; "greyscale"].
Proof.
  apply (Multiball_failure_leaves_rest sample_kernels (mkMultiball 0)
           ["blur"; "greyscale"] "sepia" ["pixelate"]
           (tile_world ["blur"; "greyscale"; "sepia"; "pixelate"] [0])
           1 sample_tile eq_refl);
    [| |reflexivity|reflexivity|reflexivity|simpl; lia|simpl; lia].
  - unfold constructible_names. intros H.
    repeat (apply elem_of_cons in H as [H|H]; [discriminate H|]).
    by apply elem_of_nil in H.
  - unfold constructible_names. repeat constructor; set_solver.
Defined.

(** X22. When every draw is odd, a Multiball of constructible names
    applies nothing: it returns the very value it was given, whatever that
    is, having drawn one number for each name and emptied its list; no
    image object is made or changed. *)
Theorem Multiball_all_odd K self names image w :
  lists w !! effects self = Some names ->
  Forall (fun name => name ∈ constructible_names) names ->
  (forall i, i < length names -> (draw (advance i w) mod 2 = 1)%Z) ->
  Multiball_apply_effect K self image w
  = (Returned image,
     set_lists (fun ls => <[effects self := []]> ls) (advance (length names) w)).
Proof.
  destruct self as [s]. simpl. intros Hl Hnames Hodd.
  destruct (Multiball_apply_effect_spec K s names image w Hl)
    as (rest & _ & Hrun & Hrest).
  unfold Multiball_spec in Hrun, Hrest.
  rewrite (spec_each_all_odd K (rev names)) in Hrun, Hrest.
  - simpl in Hrun, Hrest. rewrite (Hrest _ eq_refl) in Hrun.
    by rewrite length_rev in Hrun.
  - by apply Forall_rev.
  - intros i Hi. rewrite length_rev in Hi. by apply Hodd.
  - by apply Forall_rev.
  - intros i Hi. rewrite length_rev in Hi. by apply Hodd.
Qed.

Lemma Multiball_all_odd_witness :
  Multiball_apply_effect sample_kernels (mkMultiball 0) (PImage 1)
    (sample_world ["blur"; "solarize"] [0; 2])
  = (Returned (PImage 1),
     set_lists (fun ls => <[0 := []]> ls)
       (advance 2 (sample_world ["blur"; "solarize"] [0; 2]))).
Proof.
  apply (Multiball_all_odd sample_kernels (mkMultiball 0) ["blur"; "solarize"]
           (PImage 1) (sample_world ["blur"; "solarize"] [0; 2]) eq_refl).
  - unfold constructible_names. repeat constructor; set_solver.
  - intros [|[|i]] Hi; [reflexivity|reflexivity|simpl in Hi; lia].
Defined.

(** ** put_original_alpha: the letter A, and the exceptions *)

(** X23. [put_original_alpha] finds the alpha channel by the letter A in
    the name of the mode.  In the mode LAB that letter names a colour axis:
    for an original in LAB the band at the index of the letter, the second
    one, is put into [derived] as its alpha channel. *)
Theorem put_original_alpha_LAB K w original derived io id :
  images w !! original = Some io ->
  images w !! derived = Some id ->
  PIL.mode io = "LAB" ->
  PIL.wf io -> PIL.wf id ->
  PIL.size io = PIL.size id ->
  PIL.alpha_ready (PIL.mode id) = true ->
  exists w' im',
    put_original_alpha K (PImage original) (PImage derived) w
    = (Returned (PImage derived), w') /\
    images w' !! derived = Some im' /\
    PIL.has_alpha_layer (PIL.mode im') = true /\
    PIL.alpha_band im' = PIL.bands io !! 1 /\
    PIL.color_bands im' = PIL.color_bands id.
Proof.
  intros Ho Hd Hm Hwo Hwd Hs Had.
  destruct io as [mo so bo], id as [md sd bd].
  unfold PIL.wf in *. simpl in *. subst mo sd.
  assert (Hlt : derived < length (images w)) by (eapply lookup_lt_Some; eauto).
  mode_cases Had;
  list_of_length Hwo; list_of_length Hwd;
  unfold put_original_alpha, Image_split, Image_putalpha.
  all: do 2 eexists; split; [run|].
  all: simpl;
    repeat first [rewrite images_allocated | rewrite images_stored];
    rewrite ?list_insert_insert_eq, <- ?(assoc_L (++)); simpl.
  all: split; [by apply list_lookup_insert_eq; rewrite length_app; lia|].
  all: repeat split; reflexivity.
Qed.

(** An image in the mode LAB, for the example. *)
Lemma put_original_alpha_LAB_witness :
  let lab := {| PIL.mode := "LAB"; PIL.size := (4, 2)%Z;
                PIL.bands := [gradient 0; gradient 50; gradient 100] |} in
  let w := {| images := [sample_rgb; lab]; lists := [];
              random := fun _ => 0; consumed := 0 |} in
  exists w' im',
    put_original_alpha sample_kernels (PImage 1) (PImage 0) w
    = (Returned (PImage 0), w') /\
    images w' !! 0 = Some im' /\
    PIL.has_alpha_layer (PIL.mode im') = true /\
    PIL.alpha_band im' = Some (gradient 50) /\
    PIL.color_bands im' = PIL.color_bands sample_rgb.
Proof.
  intros lab w.
  exact (put_original_alpha_LAB sample_kernels w 1 0 lab sample_rgb
           eq_refl eq_refl eq_refl eq_refl eq_refl eq_refl eq_refl).
Defined.

(** X24. [put_original_alpha] swallows ValueError and nothing else: it
    never raises ValueError; when it returns, it returns the value
    [new_image] it was given; and when the original is not an image, the
    AttributeError of reading its mode leaves the function, the state
    untouched. *)
Theorem put_original_alpha_errors K original new_image w :
  fst (put_original_alpha K original new_image w) <> Raised ValueError /\
  (forall v, fst (put_original_alpha K original new_image w) = Returned v ->
             v = new_image) /\
  ((forall r, original <> PImage r) ->
   put_original_alpha K original new_image w = (Raised AttributeError, w)).
Proof.
  assert (H : (exists w1, put_original_alpha K original new_image w
                          = (Returned new_image, w1)) \/
              (exists e w1, put_original_alpha K original new_image w
                            = (Raised e, w1) /\ e <> ValueError)).
  { unfold put_original_alpha.
    match goal with
    | |- context [try_except ?body _ _] =>
        destruct (body w) as [[u|e] w1] eqn:Hbody
    end.
    - left. exists w1. eapply bind_intro; [|reflexivity].
      by eapply try_except_run.
    - destruct (is_ValueError e) eqn:E.
      + left. exists w1. eapply bind_intro; [|reflexivity].
        by erewrite try_except_caught by eassumption.
      + right. exists e, w1. split; [|by intros ->].
        eapply bind_raise. by eapply try_except_escapes. }
  split; [|split].
  - destruct H as [[w1 ->]|(e & w1 & -> & He)]; simpl; congruence.
  - intros v. destruct H as [[w1 ->]|(e & w1 & -> & He)]; simpl; congruence.
  - intros Hv. unfold put_original_alpha, getmode.
    erewrite bind_raise; [reflexivity|].
    eapply try_except_escapes; [|reflexivity].
    erewrite bind_raise; [reflexivity|].
    erewrite bind_raise; [reflexivity|].
    by apply load_non_image.
Qed.

Lemma put_original_alpha_errors_witness :
  put_original_alpha sample_kernels PObject (PImage 0) (sample_world [] [])
  = (Raised AttributeError, sample_world [] []).
Proof.
  apply (put_original_alpha_errors sample_kernels PObject (PImage 0)
           (sample_world [] [])).
  discriminate.
Defined.

(** X25. On an even draw and an RGB input, the alpha band of the buffer
    Shredder returns is 255 on the columns the S strips cover: the strips
    are converted to RGBA, opaque, when they are pasted.  (Beyond these
    columns the band is 0, as every band is.) *)
Theorem Shredder_strips_opaque K w image im :
  images w !! image = Some im ->
  PIL.wf im ->
  PIL.mode im = "RGB" ->
  (draw w mod 2 = 0)%Z ->
  let SHREDS := draw (advance 1 w) in
  let shred_width := (fst (PIL.size im) / SHREDS)%Z in
  exists w' im',
    apply_effect K Shredder (PImage image) w
    = (Returned (PImage (length (images w))), w') /\
    images w' !! length (images w) = Some im' /\
    forall X y,
      (0 <= X < SHREDS * shred_width)%Z -> (0 <= y < snd (PIL.size im))%Z ->
      PIL.pixel im' 3 X y = 255%Z.
Proof.
  intros Hi Hwf Hm Heven SHREDS shred_width.
  pose proof (draw_range (advance 1 w)) as HS. fold SHREDS in HS.
  destruct (Shredder_apply_effect_even K w image im Hi Hwf Heven)
    as (sequence & w' & im' & Hperm & Hrun & Hl & _ & _ & _ & _ & Hpix & _).
  fold SHREDS in Hperm, Hpix. fold shred_width in Hpix.
  assert (Hlen : length sequence = Z.to_nat SHREDS).
  { rewrite (Permutation_length Hperm), length_range. f_equal. lia. }
  exists w', im'. split; [done|]. split; [done|].
  intros X y HX Hy.
  assert (Hsw : (0 < shred_width)%Z) by nia.
  pose proof (Z.div_mod X shred_width ltac:(lia)) as Hdm.
  pose proof (Z.mod_pos_bound X shred_width Hsw) as Hmod.
  assert (Hq : (0 <= X / shred_width < SHREDS)%Z).
  { split; [apply Z.div_pos; lia|]. apply Z.div_lt_upper_bound; lia. }
  destruct (lookup_lt_is_Some_2 sequence (Z.to_nat (X / shred_width)))
    as [p Hp]; [lia|].
  rewrite Hdm at 1.
  replace (X / shred_width)%Z with (Z.of_nat (Z.to_nat (X / shred_width)))
    at 1 by lia.
  rewrite (Hpix _ p 3 (X mod shred_width)%Z y Hp Hmod Hy).
  unfold strip, PIL.convert, PIL.pixel. cbn -[String.eqb]. rewrite Hm.
  replace ("RGBA" =? "RGB") with false by reflexivity.
  replace ("RGB" =? "L") with false by reflexivity.
  replace ("RGB" =? "RGB") with true by reflexivity.
  replace ("RGBA" =? "RGBA") with true by reflexivity.
  cbn -[String.eqb].
  unfold PIL.wf in Hwf. rewrite Hm in Hwf.
  destruct im as [mo so bo]. simpl in *. list_of_length Hwf.
  reflexivity.
Qed.

Lemma Shredder_strips_opaque_witness :
  exists w' im',
    apply_effect sample_kernels Shredder (PImage 0) (sample_world [] [1; 2; 0])
    = (Returned (PImage 4), w') /\
    images w' !! 4 = Some im' /\
    PIL.pixel im' 3 2%Z 1%Z = 255%Z.
Proof.
  destruct (Shredder_strips_opaque sample_kernels (sample_world [] [1; 2; 0]) 0
              sample_rgb eq_refl eq_refl eq_refl eq_refl)
    as (w' & im' & Hrun & Hl & Hpix).
  exists w', im'. split; [exact Hrun|]. split; [exact Hl|].
  apply Hpix; split; (discriminate || reflexivity).
Defined.
